(** * gifmeta: metadata extraction from GIF files

    A shallow embedding of [gifmeta/gif.py] and [gifmeta/constants.py]
    together with the properties of the parser that the specification
    states.  Bytes are [Byte.byte], Python integers are [Z], the cursor
    offset is a [nat], and the stateful stream methods live in a small
    state-and-exception monad over the process state (the memory-mapped
    cursor and the standard output). *)

From Stdlib Require Import List ZArith Lia Bool String Ascii Arith.
From Stdlib Require Import Strings.Byte.
Import ListNotations.

Local Open Scope Z_scope.

(* ===================================================================== *)
(** ** Bytes and integers *)
(* ===================================================================== *)

(** The integer a Python [bytes] object yields when indexed. *)
Definition byte_int (b : byte) : Z := Z.of_N (Byte.to_N b).

(** [int.from_bytes(bs, "little")]. *)
Fixpoint int_from_bytes_little (bs : list byte) : Z :=
  match bs with
  | [] => 0
  | b :: rest => byte_int b + 256 * int_from_bytes_little rest
  end.

(** Python's [bool(n)] on an integer. *)
Definition bool_of_int (n : Z) : bool := negb (n =? 0).

(* ===================================================================== *)
(** ** constants.py *)
(* ===================================================================== *)

Inductive GifVersion := GIF87a | GIF89a.

Inductive DisposalMethod :=
| NONE
| NO_DISPOSE
| RESTORE_BACKGROUND
| RESTORE_PREVIOUS.

(** The value each member of the [DisposalMethod] enum is declared with. *)
Definition DisposalMethod_value (d : DisposalMethod) : Z :=
  match d with
  | NONE => 0
  | NO_DISPOSE => 1
  | RESTORE_BACKGROUND => 2
  | RESTORE_PREVIOUS => 3
  end.

(** Calling the enum class on an integer, [DisposalMethod(n)]: the member
    declared with that value, and no member ([ValueError] in Python) for
    any other integer. *)
Definition DisposalMethod_of_value (n : Z) : option DisposalMethod :=
  if n =? 0 then Some NONE
  else if n =? 1 then Some NO_DISPOSE
  else if n =? 2 then Some RESTORE_BACKGROUND
  else if n =? 3 then Some RESTORE_PREVIOUS
  else None.

(* ===================================================================== *)
(** ** Internal constants of gif.py *)
(* ===================================================================== *)

Definition EXT_INTRODUCER : Z := 0x21.
Definition EXT_GRAPHIC_CONTROL_LABEL : Z := 0xF9.
Definition EXT_COMMENT_LABEL : Z := 0xFE.
Definition EXT_PLAINTEXT_LABEL : Z := 0x01.
Definition EXT_APPLICATION_LABEL : Z := 0xFF.
Definition TRAILER_LABEL : Z := 0x3B.
Definition IMAGE_SEPARATOR : Z := 0x2C.

Definition GIF_87a : string := "87a".
Definition GIF_89a : string := "89a".
Definition VALID_GIF_REVS : list string := [GIF_87a; GIF_89a].

(* ===================================================================== *)
(** ** Exceptions *)
(* ===================================================================== *)

(** The messages [GifStreamException] is raised with, with the values
    that are formatted into them. *)
Inductive GifStreamMessage :=
| Bad_signature (signature : string)
| Invalid_GIF_version (version : string)
| Bad_separator (separator : Z)
| Unexpected_end_of_file
| Unknown_block (signature0 signature1 : Z)
| Unexpected_byte_skipping_extension (introducer : Z)
| Bad_graphic_control_signature.

Inductive exn :=
| GifStreamException (msg : GifStreamMessage)
  (** [raise Exception("Two graphic control blocks for one image!")] *)
| Exception_two_graphic_control_blocks
  (** [raise Exception("Unexpected blocktype returned!")] *)
| Exception_unexpected_blocktype
  (** [DisposalMethod(n)] for an [n] that is no member's value *)
| ValueError_DisposalMethod (n : Z)
  (** indexing a [bytes] object past its end *)
| IndexError
  (** a cursor read that asks for more bytes than the mapping holds *)
| ShortRead (wanted available : nat)
  (** an ASCII read over a byte above 0x7F *)
| UnicodeDecodeError (b : byte)
  (** a dictionary lookup with a key the dictionary does not hold *)
| KeyError (key : string)
  (** [r, g, b = bs] for a [bs] that does not hold exactly three bytes *)
| ValueError_unpack
  (** Not a Python exception: the bound that makes the two [while] loops
      of the source structurally recursive was used up.  The bounds are
      chosen so that this never happens, see [Gif_init_terminates]. *)
| LoopBoundReached.

(* ===================================================================== *)
(** ** The process state and the monad of the stream methods *)
(* ===================================================================== *)

(** Modelled from the spec: the [MmapCursor] class of the external
    [mmaputils] package, of which the repository holds only the calls.
    The object is the mapped file contents, the current offset and
    whether the mapping has been released. *)
Record MmapCursor := {
  data : list byte;
  position : nat;
  closed : bool
}.

(** What a run of the parser can see and change: the cursor it opened
    and the lines it has printed. *)
Record world := {
  stream : MmapCursor;
  stdout : list string
}.

Inductive outcome (A : Type) :=
| Return (a : A) (w : world)
| Raise (e : exn) (w : world).
Arguments Return {A} a w.
Arguments Raise {A} e w.

Definition M (A : Type) : Type := world -> outcome A.

Definition ret {A} (a : A) : M A := fun w => Return a w.

Definition raise {A} (e : exn) : M A := fun w => Raise e w.

Definition bind {A B} (c : M A) (k : A -> M B) : M B :=
  fun w =>
    match c w with
    | Return a w' => k a w'
    | Raise e w' => Raise e w'
    end.

Declare Scope gif_scope.
Delimit Scope gif_scope with gif.
Notation "x <- c ;; k" := (bind c (fun x => k))
  (at level 61, c at next level, right associativity) : gif_scope.
Notation "c ;;; k" := (bind c (fun _ => k))
  (at level 61, right associativity) : gif_scope.
Local Open Scope gif_scope.

(** The final state of a run, whichever way it ended. *)
Definition final_world {A} (o : outcome A) : world :=
  match o with
  | Return _ w => w
  | Raise _ w => w
  end.

(* --------------------------------------------------------------------- *)
(** *** The cursor primitives *)

(** The bytes from the current offset to the end of the mapping. *)
Definition remaining (w : world) : list byte :=
  skipn (position (stream w)) (data (stream w)).

(** The same process with the cursor moved forward by [n]. *)
Definition advance (n : nat) (w : world) : world :=
  {| stream := {| data := data (stream w);
                  position := position (stream w) + n;
                  closed := closed (stream w) |};
     stdout := stdout w |}.

(** The same process with the mapping released. *)
Definition release (w : world) : world :=
  {| stream := {| data := data (stream w);
                  position := position (stream w);
                  closed := true |};
     stdout := stdout w |}.

(** The same process with one more line printed. *)
Definition say (line : string) (w : world) : world :=
  {| stream := stream w; stdout := stdout w ++ [line] |}.

(** Modelled from the spec: [MmapCursor(path, byteorder="little")] over
    a file with the given contents. *)
Definition MmapCursor_open (file : list byte) : MmapCursor :=
  {| data := file; position := 0; closed := false |}.

(** The process right after [_GifStream(path)] on a file holding [bs]:
    the file mapped at offset 0, nothing printed yet. *)
Definition world_of (bs : list byte) : world :=
  {| stream := MmapCursor_open bs; stdout := [] |}.

(** Modelled from the spec: [cursor.read(n)], the read-ahead.  It gives
    up to [n] bytes from the current offset without moving it, fewer when
    the mapping ends first: [check_blocktype] tests the length of what it
    gets. *)
Definition MmapCursor_read (n : nat) : M (list byte) :=
  fun w => Return (firstn n (remaining w)) w.

(** Modelled from the spec: [cursor.next(n)], a fixed-length raw read
    that moves the offset past the bytes it returns and fails fast on a
    short read. *)
Definition MmapCursor_next (n : nat) : M (list byte) :=
  fun w =>
    let available := List.length (remaining w) in
    if (available <? n)%nat then Raise (ShortRead n available) w
    else Return (firstn n (remaining w)) (advance n w).

(** Modelled from the spec: [cursor.next_byte()]. *)
Definition MmapCursor_next_byte : M Z :=
  bs <- MmapCursor_next 1 ;;
  ret (int_from_bytes_little bs).

(** Modelled from the spec: [cursor.next_int(n)] with the byte order the
    cursor was opened with, little endian. *)
Definition MmapCursor_next_int (n : nat) : M Z :=
  bs <- MmapCursor_next n ;;
  ret (int_from_bytes_little bs).

(** [bytes.decode("ascii")]: the first byte above 0x7F is an error. *)
Fixpoint decode_ascii (bs : list byte) : byte + string :=
  match bs with
  | [] => inr EmptyString
  | b :: rest =>
      if (127 <? byte_int b) then inl b
      else match decode_ascii rest with
           | inl bad => inl bad
           | inr s => inr (String (ascii_of_byte b) s)
           end
  end.

(** Modelled from the spec: [cursor.next_ascii(n)], a fixed-length ASCII
    read. *)
Definition MmapCursor_next_ascii (n : nat) : M string :=
  bs <- MmapCursor_next n ;;
  match decode_ascii bs with
  | inl bad => raise (UnicodeDecodeError bad)
  | inr s => ret s
  end.

(** Modelled from the spec: [cursor.position += n], the explicit advance.
    The offset is a plain attribute: moving it past the end is not an
    error by itself, the next read is. *)
Definition MmapCursor_position_add (n : Z) : M unit :=
  fun w => Return tt (advance (Z.to_nat n) w).

(** Modelled from the spec: [cursor.close()], the release of the
    mapping. *)
Definition MmapCursor_close : M unit :=
  fun w => Return tt (release w).

(** [print(line)]. *)
Definition print (line : string) : M unit :=
  fun w => Return tt (say line w).

(** [bs[i]] on a [bytes] object. *)
Definition bytes_index (bs : list byte) (i : nat) : M Z :=
  match nth_error bs i with
  | Some b => ret (byte_int b)
  | None => raise IndexError
  end.

(* ===================================================================== *)
(** ** The block models of gif.py *)
(* ===================================================================== *)

(** A color table, [t.Sequence[t.Tuple[int, int, int]]]. *)
Definition Colortable : Type := list (Z * Z * Z).

Module LogicalScreenDescriptor.

Record t := {
  width : Z;
  height : Z;
  colortable_exists : bool;
  color_resolution : Z;
  colortable_is_sorted : bool;
  colortable_size : Z;
  background_color_index : Z;
  pixel_aspect_ratio : Z
}.

Definition num_colors (self : t) : Z := 2 ^ (colortable_size self + 1).

End LogicalScreenDescriptor.

Module ImageDescriptor.

(** The attributes [__init__] creates, and [interlaced]: the attribute
    that [consume_image_descriptor] assigns.  A Python object takes any
    attribute name on assignment, so [interlaced] is absent ([None] here)
    on a fresh descriptor and present once the decode has run. *)
Record t := {
  leftpos : Z;
  toppos : Z;
  width : Z;
  height : Z;
  interlace : bool;
  colortable_exists : bool;
  colortable_is_sorted : bool;
  colortable_size : Z;
  interlaced : option bool
}.

(** [ImageDescriptor()]. *)
Definition init : t :=
  {| leftpos := 0; toppos := 0; width := 0; height := 0;
     interlace := false;
     colortable_exists := false;
     colortable_is_sorted := false;
     colortable_size := 0;
     interlaced := None |}.

Definition num_colors (self : t) : Z := 2 ^ (colortable_size self + 1).

End ImageDescriptor.

Module GraphicControlExtension.

Record t := {
  disposal_method : DisposalMethod;
  user_input_flag : bool;
  transparent_flag : bool;
  transparent_color : Z;
  delay : Z
}.

Definition delay_ms (self : t) : Z := delay self * 10.

End GraphicControlExtension.

(** [_BlockType], what [check_blocktype] signals to the dispatch loop. *)
Inductive BlockType :=
| IMAGE_DATA
| EXT_GRAPHIC_CONTROL
| EXT_COMMENT
| EXT_PLAINTEXT
| EXT_APPLICATION
| EXT_UNKNOWN
| TRAILER.

(* ===================================================================== *)
(** ** _GifStream *)
(* ===================================================================== *)

Module GifStream.

(** [{GIF_87a: GifVersion.GIF87a, GIF_89a: GifVersion.GIF89a}[version]]. *)
Definition version_of_rev (version : string) : M GifVersion :=
  if String.eqb version GIF_87a then ret GIF87a
  else if String.eqb version GIF_89a then ret GIF89a
  else raise (KeyError version).

Definition consume_header : M GifVersion :=
  signature <- MmapCursor_next_ascii 3 ;;
  if negb (String.eqb signature "GIF") then
    raise (GifStreamException (Bad_signature signature))
  else
    version <- MmapCursor_next_ascii 3 ;;
    if negb (existsb (String.eqb version) VALID_GIF_REVS) then
      raise (GifStreamException (Invalid_GIF_version version))
    else
      version_of_rev version.

Definition consume_screen_descriptor : M LogicalScreenDescriptor.t :=
  width <- MmapCursor_next_int 2 ;;
  height <- MmapCursor_next_int 2 ;;
  packed_fields <- MmapCursor_next_byte ;;
  background_color_index <- MmapCursor_next_byte ;;
  pixel_aspect_ratio <- MmapCursor_next_byte ;;
  ret {| LogicalScreenDescriptor.width := width;
         LogicalScreenDescriptor.height := height;
         LogicalScreenDescriptor.colortable_exists :=
           bool_of_int (Z.land (Z.shiftr packed_fields 7) 0x1);
         LogicalScreenDescriptor.color_resolution :=
           Z.land (Z.shiftr packed_fields 4) 0x7;
         LogicalScreenDescriptor.colortable_is_sorted :=
           bool_of_int (Z.land (Z.shiftr packed_fields 3) 0x1);
         LogicalScreenDescriptor.colortable_size := Z.land packed_fields 0x7;
         LogicalScreenDescriptor.background_color_index :=
           background_color_index;
         LogicalScreenDescriptor.pixel_aspect_ratio := pixel_aspect_ratio |}.

(** The body of [for _ in range(num_colors)], run [n] more times. *)
Fixpoint consume_color_table_loop (n : nat) (colortable : Colortable)
  : M Colortable :=
  match n with
  | O => ret colortable
  | S n' =>
      rgb <- MmapCursor_next 3 ;;
      match rgb with
      | [r; g; b] =>
          consume_color_table_loop n'
            (colortable ++ [(byte_int r, byte_int g, byte_int b)])
      | _ => raise ValueError_unpack
      end
  end.

Definition consume_color_table (num_colors : Z) : M Colortable :=
  consume_color_table_loop (Z.to_nat num_colors) [].

Definition consume_image_descriptor : M ImageDescriptor.t :=
  let desc := ImageDescriptor.init in
  separator <- MmapCursor_next_byte ;;
  if negb (separator =? IMAGE_SEPARATOR) then
    raise (GifStreamException (Bad_separator separator))
  else
    leftpos <- MmapCursor_next_int 2 ;;
    toppos <- MmapCursor_next_int 2 ;;
    width <- MmapCursor_next_int 2 ;;
    height <- MmapCursor_next_int 2 ;;
    packed_fields <- MmapCursor_next_byte ;;
    ret {| ImageDescriptor.leftpos := leftpos;
           ImageDescriptor.toppos := toppos;
           ImageDescriptor.width := width;
           ImageDescriptor.height := height;
           ImageDescriptor.interlace := ImageDescriptor.interlace desc;
           ImageDescriptor.colortable_exists :=
             bool_of_int (Z.land (Z.shiftr packed_fields 7) 0x1);
           ImageDescriptor.colortable_is_sorted :=
             bool_of_int (Z.land (Z.shiftr packed_fields 5) 0x1);
           ImageDescriptor.colortable_size := Z.land packed_fields 0x7;
           ImageDescriptor.interlaced :=
             Some (bool_of_int (Z.land (Z.shiftr packed_fields 6) 0x1)) |}.

Definition check_blocktype : M BlockType :=
  signature <- MmapCursor_read 2 ;;
  signature0 <- bytes_index signature 0 ;;
  if signature0 =? TRAILER_LABEL then ret TRAILER
  else if (List.length signature <? 2)%nat then
    raise (GifStreamException Unexpected_end_of_file)
  else if signature0 =? IMAGE_SEPARATOR then ret IMAGE_DATA
  else if signature0 =? EXT_INTRODUCER then
    signature1 <- bytes_index signature 1 ;;
    if signature1 =? EXT_GRAPHIC_CONTROL_LABEL then ret EXT_GRAPHIC_CONTROL
    else ret EXT_UNKNOWN
  else
    signature1 <- bytes_index signature 1 ;;
    raise (GifStreamException (Unknown_block signature0 signature1)).

(** The [while data_size != 0] loop of [skip_data], entered with the
    current values of its two variables; [bound] is the number of
    iterations it may still make. *)
Fixpoint skip_data_loop (bound : nat) (data_size total_data : Z) : M Z :=
  if data_size =? 0 then ret total_data
  else
    match bound with
    | O => raise LoopBoundReached
    | S bound' =>
        MmapCursor_position_add data_size ;;;
        data_size' <- MmapCursor_next_byte ;;
        skip_data_loop bound' data_size' (total_data + data_size')
    end.

Definition skip_data : M Z :=
  fun w =>
    (data_size <- MmapCursor_next_byte ;;
     skip_data_loop (List.length (data (stream w))) data_size data_size) w.

Definition skip_image_data : M Z :=
  MmapCursor_position_add 1 ;;;
  skip_data.

Definition skip_extension : M Z :=
  introducer <- MmapCursor_next_byte ;;
  if negb (introducer =? EXT_INTRODUCER) then
    raise (GifStreamException (Unexpected_byte_skipping_extension introducer))
  else
    MmapCursor_position_add 1 ;;;
    skip_data.

Definition consume_graphic_control_extension
  : M GraphicControlExtension.t :=
  signature <- MmapCursor_next 2 ;;
  if list_eq_dec Z.eq_dec (map byte_int signature)
       [EXT_INTRODUCER; EXT_GRAPHIC_CONTROL_LABEL]
  then
    MmapCursor_position_add 1 ;;;
    packed_fields <- MmapCursor_next_byte ;;
    delay <- MmapCursor_next_int 2 ;;
    transparent_color <- MmapCursor_next_byte ;;
    MmapCursor_position_add 1 ;;;
    match DisposalMethod_of_value (Z.land (Z.shiftr packed_fields 2) 0x7) with
    | None =>
        raise (ValueError_DisposalMethod
                 (Z.land (Z.shiftr packed_fields 2) 0x7))
    | Some disposal_method =>
        ret {| GraphicControlExtension.disposal_method := disposal_method;
               GraphicControlExtension.user_input_flag :=
                 bool_of_int (Z.land (Z.shiftr packed_fields 1) 0x1);
               GraphicControlExtension.transparent_flag :=
                 bool_of_int (Z.land packed_fields 0x1);
               GraphicControlExtension.transparent_color := transparent_color;
               GraphicControlExtension.delay := delay |}
    end
  else
    raise (GifStreamException Bad_graphic_control_signature).

Definition close : M unit := MmapCursor_close.

End GifStream.

(* ===================================================================== *)
(** ** GifImage and Gif *)
(* ===================================================================== *)

Module GifImage.

(** The metadata of one frame.  The Python object also keeps a reference
    to the [_GifStream] it was read from; that reference is the stream of
    the [world] and is not repeated here. *)
Record t := {
  graphic_control : option GraphicControlExtension.t;
  colortable : option Colortable;
  image_descriptor : ImageDescriptor.t;
  image_data_size : Z
}.

(** [GifImage(stream, graphic_control)]: [__init__] followed by the
    [__parse_metadata] it calls. *)
Definition init (graphic_control : option GraphicControlExtension.t) : M t :=
  image_descriptor <- GifStream.consume_image_descriptor ;;
  colortable <-
    (if ImageDescriptor.colortable_exists image_descriptor then
       table <- GifStream.consume_color_table
                  (ImageDescriptor.num_colors image_descriptor) ;;
       ret (Some table)
     else ret None) ;;
  image_data_size <- GifStream.skip_image_data ;;
  ret {| graphic_control := graphic_control;
         colortable := colortable;
         image_descriptor := image_descriptor;
         image_data_size := image_data_size |}.

End GifImage.

Module Gif.

Record t := {
  version : GifVersion;
  colortable : option Colortable;
  logical_screen_descriptor : LogicalScreenDescriptor.t;
  images : list GifImage.t
}.

(** The [while True] loop of [__parse_metadata], entered with the current
    values of [graphic_control] and [images]; [bound] is the number of
    iterations it may still make. *)
Fixpoint parse_blocks (bound : nat)
  (graphic_control : option GraphicControlExtension.t)
  (images : list GifImage.t) : M (list GifImage.t) :=
  match bound with
  | O => raise LoopBoundReached
  | S bound' =>
      blocktype <- GifStream.check_blocktype ;;
      match blocktype with
      | TRAILER => ret images
      | EXT_GRAPHIC_CONTROL =>
          match graphic_control with
          | Some _ => raise Exception_two_graphic_control_blocks
          | None =>
              control <- GifStream.consume_graphic_control_extension ;;
              parse_blocks bound' (Some control) images
          end
      | IMAGE_DATA =>
          img <- GifImage.init graphic_control ;;
          parse_blocks bound' None (images ++ [img])
      | EXT_UNKNOWN =>
          GifStream.skip_extension ;;;
          parse_blocks bound' graphic_control images
      | _ => raise Exception_unexpected_blocktype
      end
  end.

(** [__parse_metadata], run on the stream that [_GifStream(self.path)]
    has opened. *)
Definition parse_metadata : M t :=
  fun w =>
    (version <- GifStream.consume_header ;;
     logical_screen_descriptor <- GifStream.consume_screen_descriptor ;;
     colortable <-
       (if LogicalScreenDescriptor.colortable_exists
             logical_screen_descriptor then
          table <- GifStream.consume_color_table
                     (LogicalScreenDescriptor.num_colors
                        logical_screen_descriptor) ;;
          ret (Some table)
        else
          print "warning: no global color table" ;;;
          ret None) ;;
     images <- parse_blocks (S (List.length (data (stream w)))) None [] ;;
     GifStream.close ;;;
     ret {| version := version;
            colortable := colortable;
            logical_screen_descriptor := logical_screen_descriptor;
            images := images |}) w.

(** [Gif(path)] for a file with the given contents. *)
Definition init (file : list byte) : outcome t :=
  parse_metadata (world_of file).

End Gif.

(* ===================================================================== *)
(** ** The layout of a GIF byte stream *)
(* ===================================================================== *)

(** The byte-level format the parser walks over, written down as data so
    that statements can say which bytes of a stream are sub-block payload
    and which are structure.  Nothing here is used by the parser. *)

(** One data sub-block: a size byte and the bytes it announces. *)
Record subblock := {
  sb_size : byte;
  sb_data : list byte
}.

(** A sub-block inside a chain has a size byte other than zero and holds
    exactly as many payload bytes as the size byte says. *)
Definition wf_subblock (sb : subblock) : Prop :=
  sb_size sb <> x00 /\ List.length (sb_data sb) = Byte.to_nat (sb_size sb).

Definition encode_subblock (sb : subblock) : list byte :=
  sb_size sb :: sb_data sb.

(** A chain of sub-blocks, closed by the zero size byte. *)
Definition encode_chain (chain : list subblock) : list byte :=
  flat_map encode_subblock chain ++ [x00].

(** The sum of the size bytes of a chain. *)
Definition chain_total (chain : list subblock) : Z :=
  fold_right (fun sb acc => byte_int (sb_size sb) + acc) 0 chain.

(** The bytes of a color table that follows a descriptor with the given
    packed byte: none when bit 7 is clear, three per color otherwise. *)
Definition table_bytes (packed : byte) : nat :=
  if Z.testbit (byte_int packed) 7
  then 3 * Z.to_nat (2 ^ (Z.land (byte_int packed) 7 + 1))
  else 0.

(** A byte string read as RGB triples, in order. *)
Fixpoint rgb_triples (bs : list byte) : Colortable :=
  match bs with
  | r :: g :: b :: rest =>
      (byte_int r, byte_int g, byte_int b) :: rgb_triples rest
  | _ => []
  end.

Inductive block :=
| GraphicControl (block_size packed delay_lo delay_hi transparent
                  terminator : byte)
| Image (left_lo left_hi top_lo top_hi width_lo width_hi
         height_lo height_hi packed : byte)
        (table : list byte) (lzw_code_size : byte) (chain : list subblock)
| Extension (label : byte) (chain : list subblock).

Definition encode_block (b : block) : list byte :=
  match b with
  | GraphicControl block_size packed delay_lo delay_hi transparent
      terminator =>
      [x21; xf9; block_size; packed; delay_lo; delay_hi; transparent;
       terminator]
  | Image left_lo left_hi top_lo top_hi width_lo width_hi
      height_lo height_hi packed table lzw_code_size chain =>
      [x2c; left_lo; left_hi; top_lo; top_hi; width_lo; width_hi;
       height_lo; height_hi; packed]
      ++ table ++ lzw_code_size :: encode_chain chain
  | Extension label chain =>
      x21 :: label :: encode_chain chain
  end.

Definition wf_block (b : block) : Prop :=
  match b with
  | GraphicControl _ _ _ _ _ _ => True
  | Image _ _ _ _ _ _ _ _ packed table _ chain =>
      List.length table = table_bytes packed /\ Forall wf_subblock chain
  | Extension label chain =>
      label <> xf9 /\ Forall wf_subblock chain
  end.

Definition encode_blocks (blocks : list block) : list byte :=
  flat_map encode_block blocks.

(** Two sub-blocks that differ at most in their payload bytes. *)
Definition same_size (sb1 sb2 : subblock) : Prop :=
  sb_size sb1 = sb_size sb2.

(** Two blocks that differ at most in the payload bytes of their
    sub-block chains. *)
Inductive same_structure : block -> block -> Prop :=
| same_block b :
    same_structure b b
| same_Image l0 l1 t0 t1 w0 w1 h0 h1 packed table lzw chain1 chain2 :
    Forall2 same_size chain1 chain2 ->
    same_structure
      (Image l0 l1 t0 t1 w0 w1 h0 h1 packed table lzw chain1)
      (Image l0 l1 t0 t1 w0 w1 h0 h1 packed table lzw chain2)
| same_Extension label chain1 chain2 :
    Forall2 same_size chain1 chain2 ->
    same_structure (Extension label chain1) (Extension label chain2).

(** The bytes of the two versions a header can announce. *)
Definition encode_version (v : GifVersion) : list byte :=
  match v with
  | GIF87a => ["G"; "I"; "F"; "8"; "7"; "a"]%byte
  | GIF89a => ["G"; "I"; "F"; "8"; "9"; "a"]%byte
  end.

(** A stream that starts as a GIF file does: header, screen descriptor,
    global color table when the descriptor announces one, and a sequence
    of blocks.  What follows the blocks is [tail], any bytes at all: the
    trailer and whatever comes after it, or a damaged rest. *)
Record layout := {
  lay_version : GifVersion;
  lay_width_lo : byte;
  lay_width_hi : byte;
  lay_height_lo : byte;
  lay_height_hi : byte;
  lay_packed : byte;
  lay_background : byte;
  lay_aspect : byte;
  lay_table : list byte;
  lay_blocks : list block;
  lay_tail : list byte
}.

Definition encode_layout (f : layout) : list byte :=
  encode_version (lay_version f)
  ++ [lay_width_lo f; lay_width_hi f; lay_height_lo f; lay_height_hi f;
      lay_packed f; lay_background f; lay_aspect f]
  ++ lay_table f
  ++ encode_blocks (lay_blocks f)
  ++ lay_tail f.

Definition wf_layout (f : layout) : Prop :=
  List.length (lay_table f) = table_bytes (lay_packed f)
  /\ Forall wf_block (lay_blocks f).

(** Two layouts that differ at most in the payload bytes of the sub-block
    chains of their blocks. *)
Definition same_layout (f1 f2 : layout) : Prop :=
  lay_version f1 = lay_version f2
  /\ lay_width_lo f1 = lay_width_lo f2
  /\ lay_width_hi f1 = lay_width_hi f2
  /\ lay_height_lo f1 = lay_height_lo f2
  /\ lay_height_hi f1 = lay_height_hi f2
  /\ lay_packed f1 = lay_packed f2
  /\ lay_background f1 = lay_background f2
  /\ lay_aspect f1 = lay_aspect f2
  /\ lay_table f1 = lay_table f2
  /\ Forall2 same_structure (lay_blocks f1) (lay_blocks f2)
  /\ lay_tail f1 = lay_tail f2.

(** The payload bytes of a chain, without size bytes and terminator. *)
Definition chain_payload (chain : list subblock) : list byte :=
  flat_map sb_data chain.

(** The kinds of block that the statements about sequences of blocks
    tell apart. *)
Definition is_graphic_control (b : block) : Prop :=
  match b with
  | GraphicControl _ _ _ _ _ _ => True
  | _ => False
  end.

Definition not_image (b : block) : Prop :=
  match b with
  | Image _ _ _ _ _ _ _ _ _ _ _ _ => False
  | _ => True
  end.

(** A block that is not a graphic control block with one of the reserved
    disposal codes 4-7. *)
Definition disposal_defined (b : block) : Prop :=
  match b with
  | GraphicControl _ packed _ _ _ _ =>
      Z.land (Z.shiftr (byte_int packed) 2) 0x7 <= 3
  | _ => True
  end.

(* ===================================================================== *)
(** ** What the parser makes of a laid-out stream *)
(* ===================================================================== *)

(** The world in which the dispatch loop starts on a stream laid out as
    [f] says. *)
Definition after_preamble (f : layout) (w : world) : world :=
  if Z.testbit (byte_int (lay_packed f)) 7
  then advance (13 + List.length (lay_table f)) w
  else say "warning: no global color table" (advance 13 w).

(** What [__parse_metadata] makes of the screen descriptor of [f]. *)
Definition screen_descriptor_of (f : layout) : LogicalScreenDescriptor.t :=
  {| LogicalScreenDescriptor.width :=
       int_from_bytes_little [lay_width_lo f; lay_width_hi f];
     LogicalScreenDescriptor.height :=
       int_from_bytes_little [lay_height_lo f; lay_height_hi f];
     LogicalScreenDescriptor.colortable_exists :=
       Z.testbit (byte_int (lay_packed f)) 7;
     LogicalScreenDescriptor.color_resolution :=
       Z.land (Z.shiftr (byte_int (lay_packed f)) 4) 0x7;
     LogicalScreenDescriptor.colortable_is_sorted :=
       Z.testbit (byte_int (lay_packed f)) 3;
     LogicalScreenDescriptor.colortable_size :=
       Z.land (byte_int (lay_packed f)) 0x7;
     LogicalScreenDescriptor.background_color_index :=
       byte_int (lay_background f);
     LogicalScreenDescriptor.pixel_aspect_ratio := byte_int (lay_aspect f) |}.

(** What the decode of section 4.5 makes of the bytes of a graphic
    control block. *)
Definition decode_graphic_control (packed delay_lo delay_hi transparent : byte)
  : exn + GraphicControlExtension.t :=
  match DisposalMethod_of_value
          (Z.land (Z.shiftr (byte_int packed) 2) 0x7) with
  | None =>
      inl (ValueError_DisposalMethod
             (Z.land (Z.shiftr (byte_int packed) 2) 0x7))
  | Some disposal_method =>
      inr {| GraphicControlExtension.disposal_method := disposal_method;
             GraphicControlExtension.user_input_flag :=
               bool_of_int (Z.land (Z.shiftr (byte_int packed) 1) 0x1);
             GraphicControlExtension.transparent_flag :=
               bool_of_int (Z.land (byte_int packed) 0x1);
             GraphicControlExtension.transparent_color := byte_int transparent;
             GraphicControlExtension.delay :=
               int_from_bytes_little [delay_lo; delay_hi] |}
  end.

(** What [GifImage] makes of the bytes of an image block; of the chain,
    only the size bytes enter. *)
Definition decode_image
  (l0 l1 t0 t1 w0 w1 h0 h1 packed : byte) (table : list byte)
  (chain : list subblock)
  (graphic_control : option GraphicControlExtension.t) : GifImage.t :=
  {| GifImage.graphic_control := graphic_control;
     GifImage.colortable :=
       if Z.testbit (byte_int packed) 7
       then Some (rgb_triples table) else None;
     GifImage.image_descriptor :=
       {| ImageDescriptor.leftpos := int_from_bytes_little [l0; l1];
          ImageDescriptor.toppos := int_from_bytes_little [t0; t1];
          ImageDescriptor.width := int_from_bytes_little [w0; w1];
          ImageDescriptor.height := int_from_bytes_little [h0; h1];
          ImageDescriptor.interlace := false;
          ImageDescriptor.colortable_exists := Z.testbit (byte_int packed) 7;
          ImageDescriptor.colortable_is_sorted :=
            Z.testbit (byte_int packed) 5;
          ImageDescriptor.colortable_size := Z.land (byte_int packed) 7;
          ImageDescriptor.interlaced :=
            Some (Z.testbit (byte_int packed) 6) |};
     GifImage.image_data_size := chain_total chain |}.

(** The two variables of the dispatch loop. *)
Definition loop_state : Type :=
  (option GraphicControlExtension.t * list GifImage.t)%type.

(** The transition of section 4.7 for one block: the next loop state, or
    the exception together with the number of bytes of the block that
    were consumed before it was raised. *)
Definition dispatch (b : block) (state : loop_state)
  : (exn * nat) + loop_state :=
  match b with
  | GraphicControl _ packed delay_lo delay_hi transparent _ =>
      match fst state with
      | Some _ => inl (Exception_two_graphic_control_blocks, 0%nat)
      | None =>
          match decode_graphic_control packed delay_lo delay_hi
                  transparent with
          | inl e => inl (e, 8%nat)
          | inr control => inr (Some control, snd state)
          end
      end
  | Image l0 l1 t0 t1 w0 w1 h0 h1 packed table _ chain =>
      inr (None,
           snd state
           ++ [decode_image l0 l1 t0 t1 w0 w1 h0 h1 packed table chain
                 (fst state)])
  | Extension _ _ => inr state
  end.

Fixpoint dispatch_all (blocks : list block) (state : loop_state)
  : (exn * nat) + loop_state :=
  match blocks with
  | [] => inr state
  | b :: rest =>
      match dispatch b state with
      | inl failure => inl failure
      | inr state' =>
          match dispatch_all rest state' with
          | inl (e, consumed) =>
              inl (e, (List.length (encode_block b) + consumed)%nat)
          | inr state'' => inr state''
          end
      end
  end.

(* ===================================================================== *)
(** ** Statements about whole runs *)
(* ===================================================================== *)

(** What a caller of [Gif(path)] can observe of a run: the aggregate or
    the exception, what was printed, where the cursor stopped and whether
    the stream was released.  The mapped bytes themselves are left out. *)
Definition observation {A} (o : outcome A) : (A + exn) * list string * nat * bool :=
  match o with
  | Return a w =>
      (inl a, stdout w, position (stream w), closed (stream w))
  | Raise e w =>
      (inr e, stdout w, position (stream w), closed (stream w))
  end.

(** The two exceptions that no run is meant to end in: the bound of the
    model's loops, and the fallback branch of the dispatch loop. *)
Definition unreachable (e : exn) : Prop :=
  e = LoopBoundReached \/ e = Exception_unexpected_blocktype.

(** From [w] to [w']: the cursor has not moved backwards over unread
    bytes, the stream is as open or closed as it was, and the mapped
    bytes are the same. *)
Definition steady (w w' : world) : Prop :=
  (List.length (remaining w') <= List.length (remaining w))%nat
  /\ closed (stream w') = closed (stream w)
  /\ data (stream w') = data (stream w).

(** An outcome of a run from [w] that is [steady] and does not end in an
    [unreachable] exception. *)
Definition well {A} (w : world) (o : outcome A) : Prop :=
  match o with
  | Return _ w' => steady w w'
  | Raise e w' => steady w w' /\ ~ unreachable e
  end.

Definition tame {A} (c : M A) : Prop := forall w, well w (c w).

(** A computation that cannot return without having read a byte. *)
Definition eats {A} (c : M A) : Prop :=
  forall w a w',
    c w = Return a w' ->
    (List.length (remaining w') < List.length (remaining w))%nat.

(** Two processes that no stream method can tell apart: the same bytes
    ahead of the cursor at the same offset of mappings of the same
    length, the same lines printed, both open or both closed. *)
Definition alike (w1 w2 : world) : Prop :=
  remaining w1 = remaining w2
  /\ position (stream w1) = position (stream w2)
  /\ List.length (data (stream w1)) = List.length (data (stream w2))
  /\ closed (stream w1) = closed (stream w2)
  /\ stdout w1 = stdout w2.

Definition alike_outcome {A} (o1 o2 : outcome A) : Prop :=
  match o1, o2 with
  | Return a1 w1, Return a2 w2 => a1 = a2 /\ alike w1 w2
  | Raise e1 w1, Raise e2 w2 => e1 = e2 /\ alike w1 w2
  | _, _ => False
  end.

(** A computation that treats [alike] processes alike. *)
Definition uniform {A} (c : M A) : Prop :=
  forall w1 w2, alike w1 w2 -> alike_outcome (c w1) (c w2).

(** What the specification says of a color table [table] produced from a
    file, for a descriptor that announces it with the flag [present] and
    the length [num_colors]: it is there exactly when announced, it has
    the announced number of entries, and its entries are the triples of
    a run of consecutive bytes of the file, in file order. *)
Definition table_ok (file : list byte) (present : bool) (num_colors : Z)
  (table : option Colortable) : Prop :=
  match table with
  | Some t =>
      present = true
      /\ Z.of_nat (List.length t) = num_colors
      /\ exists offset,
           t = rgb_triples (firstn (3 * List.length t) (skipn offset file))
  | None => present = false
  end.

(** The same for the table of one frame, together with the range of its
    size code. *)
Definition image_table_ok (file : list byte) (img : GifImage.t) : Prop :=
  let desc := GifImage.image_descriptor img in
  0 <= ImageDescriptor.colortable_size desc <= 7
  /\ ImageDescriptor.num_colors desc
     = 2 ^ (ImageDescriptor.colortable_size desc + 1)
  /\ table_ok file (ImageDescriptor.colortable_exists desc)
       (ImageDescriptor.num_colors desc) (GifImage.colortable img).

(* ===================================================================== *)
(** ** Sample streams *)
(* ===================================================================== *)

(** A sample file: a global table of two colors, a graphic control
    extension (disposal 2, delay 50), and one image with a local table of
    four colors and two data sub-blocks. *)
Definition sample_file : list byte :=
  ["G"; "I"; "F"; "8"; "9"; "a"]%byte
  ++ [x0a; x00; x14; x00; x80; x00; x00]
  ++ [x01; x02; x03; x04; x05; x06]
  ++ [x21; xf9; x04; x09; x32; x00; x07; x00]
  ++ [x2c; x01; x00; x02; x00; x03; x00; x04; x00; x81;
      x0a; x0b; x0c; x0d; x0e; x0f; x10; x11; x12; x13; x14; x15;
      x02; x03; x11; x12; x13; x01; x14; x00]
  ++ [x3b].

(** What the parse of [sample_file] returns. *)
Definition sample_gif : Gif.t :=
  {| Gif.version := GIF89a;
     Gif.colortable := Some [(1, 2, 3); (4, 5, 6)];
     Gif.logical_screen_descriptor :=
       {| LogicalScreenDescriptor.width := 10;
          LogicalScreenDescriptor.height := 20;
          LogicalScreenDescriptor.colortable_exists := true;
          LogicalScreenDescriptor.color_resolution := 0;
          LogicalScreenDescriptor.colortable_is_sorted := false;
          LogicalScreenDescriptor.colortable_size := 0;
          LogicalScreenDescriptor.background_color_index := 0;
          LogicalScreenDescriptor.pixel_aspect_ratio := 0 |};
     Gif.images :=
       [ {| GifImage.graphic_control :=
              Some {| GraphicControlExtension.disposal_method :=
                        RESTORE_BACKGROUND;
                      GraphicControlExtension.user_input_flag := false;
                      GraphicControlExtension.transparent_flag := true;
                      GraphicControlExtension.transparent_color := 7;
                      GraphicControlExtension.delay := 50 |};
            GifImage.colortable :=
              Some [(10, 11, 12); (13, 14, 15); (16, 17, 18); (19, 20, 21)];
            GifImage.image_descriptor :=
              {| ImageDescriptor.leftpos := 1;
                 ImageDescriptor.toppos := 2;
                 ImageDescriptor.width := 3;
                 ImageDescriptor.height := 4;
                 ImageDescriptor.interlace := false;
                 ImageDescriptor.colortable_exists := true;
                 ImageDescriptor.colortable_is_sorted := false;
                 ImageDescriptor.colortable_size := 1;
                 ImageDescriptor.interlaced := Some false |};
            GifImage.image_data_size := 4 |} ] |}.

(** A layout with one image whose data chain holds the payload bytes
    [p1 p2 p3] and [p4], followed by a comment extension holding
    [p1 p2]. *)
Definition sample_layout (p1 p2 p3 p4 : byte) : layout :=
  {| lay_version := GIF89a;
     lay_width_lo := x0a; lay_width_hi := x00;
     lay_height_lo := x14; lay_height_hi := x00;
     lay_packed := x80; lay_background := x00; lay_aspect := x00;
     lay_table := [x01; x02; x03; x04; x05; x06];
     lay_blocks :=
       [ GraphicControl x04 x09 x32 x00 x07 x00;
         Image x01 x00 x02 x00 x03 x00 x04 x00 x00 [] x02
           [ {| sb_size := x03; sb_data := [p1; p2; p3] |};
             {| sb_size := x01; sb_data := [p4] |} ];
         Extension xfe [ {| sb_size := x02; sb_data := [p1; p2] |} ] ];
     lay_tail := [x3b] |}.

(** A layout with two graphic control blocks and only a comment
    extension between them. *)
Definition doubled_control_layout : layout :=
  {| lay_version := GIF89a;
     lay_width_lo := x0a; lay_width_hi := x00;
     lay_height_lo := x14; lay_height_hi := x00;
     lay_packed := x00; lay_background := x00; lay_aspect := x00;
     lay_table := [];
     lay_blocks :=
       [ GraphicControl x04 x09 x32 x00 x07 x00;
         Extension xfe [ {| sb_size := x02; sb_data := [x41; x42] |} ];
         GraphicControl x04 x04 x0a x00 x00 x00;
         Image x01 x00 x02 x00 x03 x00 x04 x00 x00 [] x02
           [ {| sb_size := x01; sb_data := [x14] |} ] ];
     lay_tail := [x3b] |}.

(** A layout whose first graphic control block carries the reserved
    disposal code 4 (packed byte 0x10) and is followed at once by a
    second graphic control block. *)
Definition reserved_control_layout : layout :=
  {| lay_version := GIF89a;
     lay_width_lo := x0a; lay_width_hi := x00;
     lay_height_lo := x14; lay_height_hi := x00;
     lay_packed := x00; lay_background := x00; lay_aspect := x00;
     lay_table := [];
     lay_blocks :=
       [ GraphicControl x04 x10 x32 x00 x07 x00;
         GraphicControl x04 x04 x0a x00 x00 x00;
         Image x01 x00 x02 x00 x03 x00 x04 x00 x00 [] x02
           [ {| sb_size := x01; sb_data := [x14] |} ] ];
     lay_tail := [x3b] |}.

(* ===================================================================== *)
(** ** Further definitions: the rest of the package *)
(* ===================================================================== *)

(** [GifVersion.__str__].  Its last branch, a [TypeError] for a value
    that is neither member, has no value to run on. *)
Definition GifVersion_str (v : GifVersion) : string :=
  match v with
  | GIF87a => "GIF87a"
  | GIF89a => "GIF89a"
  end.


(** A computation that prints nothing, however it ends. *)
Definition quiet {A} (c : M A) : Prop :=
  forall w, stdout (final_world (c w)) = stdout w.

(** The exceptions a run of [Gif(path)] can end in.  The checks the
    consume methods make on bytes the dispatch loop has already looked
    at, the dictionary lookup of the version and the unpacking of a
    color triple are not among them. *)
Definition parse_failure (e : exn) : Prop :=
  match e with
  | GifStreamException (Bad_signature _)
  | GifStreamException (Invalid_GIF_version _)
  | GifStreamException Unexpected_end_of_file
  | GifStreamException (Unknown_block _ _)
  | Exception_two_graphic_control_blocks
  | ValueError_DisposalMethod _
  | IndexError
  | ShortRead _ _
  | UnicodeDecodeError _ => True
  | _ => False
  end.

(** A run of [c] from [w] that raises, raises a [parse_failure], or has
    used up the bound of a loop of the model. *)
Definition fails_in {A} (c : M A) (w : world) : Prop :=
  forall e w', c w = Raise e w' -> parse_failure e \/ e = LoopBoundReached.

Definition only {A} (c : M A) : Prop := forall w, fails_in c w.

(** What a parse of a stream laid out as [f] has printed when the
    dispatch loop starts, and where the loop starts. *)
Definition preamble_output (f : layout) : list string :=
  if Z.testbit (byte_int (lay_packed f)) 7 then []
  else ["warning: no global color table"%string].

Definition blocks_offset (f : layout) : nat :=
  (13 + List.length (lay_table f))%nat.

(** The aggregate of a stream laid out as [f] whose frames are
    [images]. *)
Definition gif_of (f : layout) (images : list GifImage.t) : Gif.t :=
  {| Gif.version := lay_version f;
     Gif.colortable :=
       if Z.testbit (byte_int (lay_packed f)) 7
       then Some (rgb_triples (lay_table f)) else None;
     Gif.logical_screen_descriptor := screen_descriptor_of f;
     Gif.images := images |}.

(** The number of payload bytes of each image block, in order. *)
Definition image_payload_sizes (blocks : list block) : list Z :=
  flat_map (fun b =>
              match b with
              | Image _ _ _ _ _ _ _ _ _ _ _ chain =>
                  [Z.of_nat (List.length (chain_payload chain))]
              | _ => []
              end) blocks.

(** The number of graphic control blocks of a sequence, and the number
    of frames that carry a graphic control extension. *)
Definition count_controls (blocks : list block) : nat :=
  List.length (filter (fun b =>
                         match b with
                         | GraphicControl _ _ _ _ _ _ => true
                         | _ => false
                         end) blocks).

Definition count_controlled (images : list GifImage.t) : nat :=
  List.length (filter (fun img =>
                         match GifImage.graphic_control img with
                         | Some _ => true
                         | None => false
                         end) images).

(** A layout that ends in a graphic control block with no image behind
    it, and in bytes behind the trailer. *)
Definition dangling_control_layout : layout :=
  {| lay_version := GIF89a;
     lay_width_lo := x0a; lay_width_hi := x00;
     lay_height_lo := x14; lay_height_hi := x00;
     lay_packed := x00; lay_background := x00; lay_aspect := x00;
     lay_table := [];
     lay_blocks :=
       [ Image x01 x00 x02 x00 x03 x00 x04 x00 x00 [] x02
           [ {| sb_size := x02; sb_data := [x14; x15] |} ];
         GraphicControl x04 x04 x0a x00 x00 x00 ];
     lay_tail := [x3b; x2c; xff] |}.

(** The same blocks with the file cut off before the trailer. *)
Definition truncated_layout : layout :=
  {| lay_version := GIF89a;
     lay_width_lo := x0a; lay_width_hi := x00;
     lay_height_lo := x14; lay_height_hi := x00;
     lay_packed := x00; lay_background := x00; lay_aspect := x00;
     lay_table := [];
     lay_blocks :=
       [ Image x01 x00 x02 x00 x03 x00 x04 x00 x00 [] x02
           [ {| sb_size := x02; sb_data := [x14; x15] |} ] ];
     lay_tail := [] |}.

(** [s.split(sep)] for a separator of one character: the pieces of [s]
    between the occurrences of [sep], at least one piece. *)
Fixpoint str_split (sep : ascii) (s : string) : list string :=
  match s with
  | EmptyString => [EmptyString]
  | String c rest =>
      if Ascii.eqb c sep then EmptyString :: str_split sep rest
      else match str_split sep rest with
           | [] => [String c EmptyString]
           | first :: others => String c first :: others
           end
  end.

(** [c in s]. *)
Fixpoint str_contains (c : ascii) (s : string) : bool :=
  match s with
  | EmptyString => false
  | String c' rest => Ascii.eqb c' c || str_contains c rest
  end.

(** Modelled from the spec: [os.path.basename] of [posixpath], what
    follows the last slash of the path. *)
Definition os_path_basename (path : string) : string :=
  last (str_split "/" path) EmptyString.

(** [Gif.name], as a function of the path the object was made from:
    [".".join(os.path.basename(self.path).split(".")[:-1])]. *)
Definition Gif_name (path : string) : string :=
  String.concat "." (removelast (str_split "." (os_path_basename path))).

(* ===================================================================== *)
(** ** gifdump.py: the palette image *)
(* ===================================================================== *)

(** [enumerate(l)], counted from [start]. *)
Fixpoint enumerate_from {A} (start : Z) (l : list A) : list (Z * A) :=
  match l with
  | [] => []
  | a :: rest => (start, a) :: enumerate_from (start + 1) rest
  end.

(** What [generate_palette_img] puts into the image it builds: the size
    and the background it passes to [Image.new], and the rectangles it
    draws, in order, each with its corner coordinates
    [(x0, y0, x1, y1)] and its color.  The image itself belongs to the
    external imaging library. *)
Record PaletteImage := {
  img_size : Z * Z;
  img_background : Z * Z * Z;
  img_rectangles : list ((Z * Z * Z * Z) * (Z * Z * Z))
}.

(** [int(math.sqrt(num_colors))] is taken as the integer square root,
    which it is for every length a color table can have. *)
Definition generate_palette_img (colortable : Colortable) : PaletteImage :=
  let palette_block_size := 25 in
  let num_colors := Z.of_nat (List.length colortable) in
  let h_blocks := Z.sqrt num_colors in
  let w_blocks :=
    if h_blocks ^ 2 =? num_colors then h_blocks else h_blocks + 1 in
  {| img_size := (palette_block_size * w_blocks,
                  palette_block_size * h_blocks);
     img_background := (249, 11, 243);
     img_rectangles :=
       map (fun entry : Z * (Z * Z * Z) =>
              let n := fst entry in
              let color := snd entry in
              let y_block := n / w_blocks in
              let x_block := n mod w_blocks in
              let y := y_block * palette_block_size in
              let x := x_block * palette_block_size in
              ((x, y, x + palette_block_size - 1, y + palette_block_size - 1),
               color))
           (enumerate_from 0 colortable) |}.

(** A rectangle with inclusive corners that lies within an image of the
    given size, and one that lies below its last row of pixels. *)
Definition rect_inside (size : Z * Z) (rect : Z * Z * Z * Z) : Prop :=
  let '(x0, y0, x1, y1) := rect in
  0 <= x0 /\ x1 < fst size /\ 0 <= y0 /\ y1 < snd size.

Definition rect_below (size : Z * Z) (rect : Z * Z * Z * Z) : Prop :=
  let '(x0, y0, x1, y1) := rect in
  0 <= x0 /\ x1 < fst size /\ snd size <= y0.

(** A computation that, when it returns, has moved the cursor forward
    by [k] bytes and has found at least [m] bytes ahead of it. *)
Definition spans {A} (k m : nat) (c : M A) : Prop :=
  forall w a w',
    c w = Return a w' ->
    w' = advance k w /\ (m <= List.length (remaining w))%nat.

(** The truth value of an optional table, as [if gif.colortable:] takes
    it: [None] and the empty list are false. *)
Definition truthy {A} (x : option (list A)) : bool :=
  match x with
  | Some (_ :: _) => true
  | _ => false
  end.

(** How [write_global_palette] ends: in [parser.error], which prints the
    message and leaves the program, or with the image saved under
    [output_name] and a line printed. *)
Inductive palette_outcome :=
| Parser_error (message : string)
| Palette_written (output_name : string) (img : PaletteImage)
    (printed : string).

(** [write_global_palette] for the aggregate [gif] made from [path]. *)
Definition write_global_palette (path : string) (gif : Gif.t)
  : palette_outcome :=
  if negb (truthy (Gif.colortable gif)) then
    Parser_error "GIF has no global colortable. Abort."
  else
    let img :=
      generate_palette_img
        (match Gif.colortable gif with Some table => table | None => [] end) in
    let output_name := (Gif_name path ++ "_palette.png")%string in
    Palette_written output_name img ("Palette written to " ++ output_name).

(* ===================================================================== *)
(** ** The cursor: basic facts *)
(* ===================================================================== *)

Lemma advance_0 w : advance 0 w = w.
Proof.
  destruct w as [[d p c] o]; unfold advance; simpl.
  now rewrite Nat.add_0_r.
Qed.

Lemma advance_advance n m w : advance n (advance m w) = advance (m + n) w.
Proof.
  unfold advance; simpl. now rewrite Nat.add_assoc.
Qed.

Lemma remaining_advance n w : remaining (advance n w) = skipn n (remaining w).
Proof.
  unfold remaining, advance; simpl.
  now rewrite skipn_skipn, (Nat.add_comm n).
Qed.

Lemma remaining_advance_app bs r w :
  remaining w = bs ++ r -> remaining (advance (List.length bs) w) = r.
Proof.
  intros H. rewrite remaining_advance, H.
  now rewrite skipn_app, skipn_all, Nat.sub_diag.
Qed.

Lemma next_here n l w :
  remaining w = l ->
  MmapCursor_next n w =
  if (List.length l <? n)%nat then Raise (ShortRead n (List.length l)) w
  else Return (firstn n l) (advance n w).
Proof. intros <-. reflexivity. Qed.

Lemma next_adv n k l w :
  remaining w = l ->
  MmapCursor_next n (advance k w) =
  if (List.length (skipn k l) <? n)%nat
  then Raise (ShortRead n (List.length (skipn k l))) (advance k w)
  else Return (firstn n (skipn k l)) (advance (k + n) w).
Proof.
  intros <-. unfold MmapCursor_next.
  now rewrite remaining_advance, advance_advance.
Qed.

Lemma read_here n l w :
  remaining w = l -> MmapCursor_read n w = Return (firstn n l) w.
Proof. intros <-. reflexivity. Qed.

Lemma read_adv n k l w :
  remaining w = l ->
  MmapCursor_read n (advance k w) = Return (firstn n (skipn k l)) (advance k w).
Proof.
  intros <-. unfold MmapCursor_read. now rewrite remaining_advance.
Qed.

Lemma position_add_here z w :
  MmapCursor_position_add z w = Return tt (advance (Z.to_nat z) w).
Proof. reflexivity. Qed.

Lemma position_add_adv z k w :
  MmapCursor_position_add z (advance k w) =
  Return tt (advance (k + Z.to_nat z) w).
Proof.
  unfold MmapCursor_position_add. now rewrite advance_advance.
Qed.

Lemma int_from_bytes_little_1 b : int_from_bytes_little [b] = byte_int b.
Proof. simpl. lia. Qed.

Lemma byte_int_range b : 0 <= byte_int b < 256.
Proof. destruct b; vm_compute; split; congruence. Qed.

Lemma byte_int_to_nat b : Z.to_nat (byte_int b) = Byte.to_nat b.
Proof. destruct b; reflexivity. Qed.

Lemma byte_int_inj b1 b2 : byte_int b1 = byte_int b2 -> b1 = b2.
Proof.
  unfold byte_int. intros H. apply N2Z.inj in H.
  assert (E : Byte.of_N (Byte.to_N b1) = Byte.of_N (Byte.to_N b2))
    by (now rewrite H).
  rewrite !Byte.of_to_N in E. congruence.
Qed.

(** Bit [n] of a packed byte, as the shift-and-mask idiom of the source
    reads it. *)
Lemma shift_mask_testbit z n :
  0 <= n -> bool_of_int (Z.land (Z.shiftr z n) 1) = Z.testbit z n.
Proof.
  intros Hn. unfold bool_of_int.
  change 1 with (Z.ones 1). rewrite Z.land_ones by lia.
  rewrite <- Z.bit0_mod, Z.shiftr_spec by lia. simpl.
  now destruct (Z.testbit z n).
Qed.

(* ===================================================================== *)
(** ** Running the stream methods over known bytes *)
(* ===================================================================== *)

(** One step of symbolic execution: the next cursor primitive of the
    goal is run against the bytes [H] says are left. *)
Ltac cursor_step H :=
  first
    [ rewrite (next_adv _ _ _ _ H)
    | rewrite (next_here _ _ _ H)
    | rewrite (read_adv _ _ _ _ H)
    | rewrite (read_here _ _ _ H)
    | rewrite position_add_adv
    | rewrite position_add_here ];
  try change (Z.to_nat 1) with 1%nat;
  cbn [List.length skipn firstn Nat.ltb Nat.leb Nat.add app].

(** A test of the goal whose outcome is a matter of computation. *)
Ltac closed_test :=
  match goal with
  | |- context [if ?c then _ else _] =>
      let v := eval vm_compute in c in
      match v with
      | true => change c with true
      | false => change c with false
      end;
      cbv beta iota
  end.

Ltac cursor_run H :=
  unfold MmapCursor_next_byte, MmapCursor_next_int, MmapCursor_next_ascii,
    bind, ret, raise;
  repeat first [ cursor_step H | progress cbv beta iota | closed_test ].

Lemma check_blocktype_two b0 b1 r w :
  remaining w = b0 :: b1 :: r ->
  GifStream.check_blocktype w =
  if byte_int b0 =? TRAILER_LABEL then Return TRAILER w
  else if byte_int b0 =? IMAGE_SEPARATOR then Return IMAGE_DATA w
  else if byte_int b0 =? EXT_INTRODUCER then
    if byte_int b1 =? EXT_GRAPHIC_CONTROL_LABEL
    then Return EXT_GRAPHIC_CONTROL w
    else Return EXT_UNKNOWN w
  else Raise (GifStreamException
                (Unknown_block (byte_int b0) (byte_int b1))) w.
Proof.
  intros H. unfold GifStream.check_blocktype, bytes_index.
  cursor_run H. cbn [nth_error].
  repeat match goal with |- context [if ?c then _ else _] =>
    destruct c; try reflexivity end.
Qed.

Lemma consume_graphic_control_extension_run
  block_size packed delay_lo delay_hi transparent terminator r w :
  remaining w =
    encode_block (GraphicControl block_size packed delay_lo delay_hi
                    transparent terminator) ++ r ->
  GifStream.consume_graphic_control_extension w =
  match DisposalMethod_of_value
          (Z.land (Z.shiftr (byte_int packed) 2) 0x7) with
  | None =>
      Raise (ValueError_DisposalMethod
               (Z.land (Z.shiftr (byte_int packed) 2) 0x7)) (advance 8 w)
  | Some disposal_method =>
      Return
        {| GraphicControlExtension.disposal_method := disposal_method;
           GraphicControlExtension.user_input_flag :=
             bool_of_int (Z.land (Z.shiftr (byte_int packed) 1) 0x1);
           GraphicControlExtension.transparent_flag :=
             bool_of_int (Z.land (byte_int packed) 0x1);
           GraphicControlExtension.transparent_color := byte_int transparent;
           GraphicControlExtension.delay :=
             int_from_bytes_little [delay_lo; delay_hi] |}
        (advance 8 w)
  end.
Proof.
  cbn [encode_block app]. intros H.
  unfold GifStream.consume_graphic_control_extension.
  cursor_run H.
  destruct (list_eq_dec _ _ _) as [_ | ne];
    [ | exfalso; apply ne; reflexivity ].
  cursor_run H. rewrite ?int_from_bytes_little_1.
  destruct (DisposalMethod_of_value _); reflexivity.
Qed.

Lemma length_remaining_le w :
  (List.length (remaining w) <= List.length (data (stream w)))%nat.
Proof. unfold remaining. rewrite length_skipn. lia. Qed.

Lemma encode_chain_cons sb chain :
  encode_chain (sb :: chain) = sb_size sb :: sb_data sb ++ encode_chain chain.
Proof.
  unfold encode_chain. cbn [flat_map encode_subblock app].
  now rewrite <- app_assoc.
Qed.

Lemma length_encode_chain_cons sb chain :
  List.length (encode_chain (sb :: chain)) =
  (1 + List.length (sb_data sb) + List.length (encode_chain chain))%nat.
Proof. rewrite encode_chain_cons. cbn [List.length]. rewrite length_app. lia. Qed.

Lemma length_encode_chain_lower chain :
  (List.length chain < List.length (encode_chain chain))%nat.
Proof.
  induction chain as [| sb chain IH].
  - cbn. lia.
  - rewrite length_encode_chain_cons. cbn [List.length]. lia.
Qed.

Lemma byte_int_nonzero b : b <> x00 -> (byte_int b =? 0) = false.
Proof.
  intros Hb. apply Z.eqb_neq. intros E. apply Hb.
  apply byte_int_inj. exact E.
Qed.

(** The loop of [skip_data] over a well-formed chain, from the read of a
    size byte on. *)
Lemma skip_data_loop_chain chain :
  forall bound total r w,
    Forall wf_subblock chain ->
    (List.length chain <= bound)%nat ->
    remaining w = encode_chain chain ++ r ->
    bind MmapCursor_next_byte
      (fun data_size =>
         GifStream.skip_data_loop bound data_size (total + data_size)) w =
    Return (total + chain_total chain)
           (advance (List.length (encode_chain chain)) w).
Proof.
  induction chain as [| sb chain IH]; intros bound total r w Hwf Hb H.
  - cbn [encode_chain flat_map app] in H.
    cursor_run H. rewrite ?int_from_bytes_little_1.
    change (byte_int x00) with 0.
    destruct bound; reflexivity.
  - inversion Hwf as [| ? ? [Hnz Hlen] Hwf']; subst.
    rewrite encode_chain_cons in H. cbn [app] in H.
    destruct bound as [| bound]; [cbn in Hb; lia |].
    unfold bind at 1. unfold MmapCursor_next_byte.
    cursor_run H. rewrite ?int_from_bytes_little_1.
    cbn [GifStream.skip_data_loop]. rewrite (byte_int_nonzero _ Hnz).
    unfold bind at 1. rewrite position_add_adv.
    rewrite byte_int_to_nat, <- Hlen.
    assert (H' : remaining (advance (1 + List.length (sb_data sb)) w)
                 = encode_chain chain ++ r).
    { rewrite remaining_advance, H. cbn [Nat.add skipn].
      rewrite <- app_assoc.
      now rewrite skipn_app, skipn_all, Nat.sub_diag. }
    rewrite (IH bound (total + byte_int (sb_size sb)) r _ Hwf'
               ltac:(cbn in Hb; lia) H').
    rewrite advance_advance, length_encode_chain_cons.
    change (chain_total (sb :: chain))
      with (byte_int (sb_size sb) + chain_total chain).
    f_equal. lia.
Qed.

Lemma skip_data_chain chain r w :
  Forall wf_subblock chain ->
  remaining w = encode_chain chain ++ r ->
  GifStream.skip_data w =
  Return (chain_total chain) (advance (List.length (encode_chain chain)) w).
Proof.
  intros Hwf H. unfold GifStream.skip_data.
  assert (Hb : (List.length chain <= List.length (data (stream w)))%nat).
  { pose proof (length_remaining_le w) as L. rewrite H, length_app in L.
    pose proof (length_encode_chain_lower chain). lia. }
  pose proof (skip_data_loop_chain chain _ 0 r w Hwf Hb H) as E.
  rewrite Z.add_0_l in E. rewrite <- E.
  unfold bind. destruct (MmapCursor_next_byte w); reflexivity.
Qed.

Lemma remaining_advance_skip k l w :
  remaining w = l -> remaining (advance k w) = skipn k l.
Proof. intros <-. apply remaining_advance. Qed.

Lemma skip_extension_run label chain r w :
  Forall wf_subblock chain ->
  remaining w = encode_block (Extension label chain) ++ r ->
  GifStream.skip_extension w =
  Return (chain_total chain)
         (advance (List.length (encode_block (Extension label chain))) w).
Proof.
  intros Hwf H. cbn [encode_block app] in H.
  unfold GifStream.skip_extension. cursor_run H.
  rewrite ?int_from_bytes_little_1.
  try change (negb (byte_int x21 =? EXT_INTRODUCER)) with false.
  cursor_run H.
  rewrite (skip_data_chain chain r (advance 2 w) Hwf)
    by (rewrite (remaining_advance_skip _ _ _ H); reflexivity).
  now rewrite advance_advance.
Qed.

Lemma consume_color_table_loop_run n :
  forall table acc r w,
    List.length table = (3 * n)%nat ->
    remaining w = table ++ r ->
    GifStream.consume_color_table_loop n acc w =
    Return (acc ++ rgb_triples table) (advance (3 * n) w).
Proof.
  induction n as [| n IH]; intros table acc r w Hlen H.
  - destruct table; [| discriminate].
    cbn. now rewrite app_nil_r, advance_0.
  - destruct table as [| cr [| cg [| cb table]]]; try (cbn in Hlen; lia).
    cbn [app] in H. cbn [GifStream.consume_color_table_loop].
    cursor_run H.
    rewrite (IH table _ r (advance 3 w))
      by (try rewrite (remaining_advance_skip _ _ _ H); cbn in *; lia || reflexivity).
    rewrite advance_advance. cbn [rgb_triples].
    rewrite <- app_assoc. cbn [app]. f_equal. f_equal. lia.
Qed.

Lemma skipn_app_length {A} (l1 l2 : list A) :
  skipn (List.length l1) (l1 ++ l2) = l2.
Proof. now rewrite skipn_app, skipn_all, Nat.sub_diag. Qed.

Lemma length_encode_Image
  l0 l1 t0 t1 w0 w1 h0 h1 packed table lzw chain :
  List.length
    (encode_block (Image l0 l1 t0 t1 w0 w1 h0 h1 packed table lzw chain)) =
  (10 + List.length table + 1 + List.length (encode_chain chain))%nat.
Proof.
  cbn [encode_block app List.length]. rewrite length_app.
  cbn [List.length]. lia.
Qed.

Lemma GifImage_init_run
  l0 l1 t0 t1 w0 w1 h0 h1 packed table lzw chain graphic_control r w :
  let b := Image l0 l1 t0 t1 w0 w1 h0 h1 packed table lzw chain in
  wf_block b ->
  remaining w = encode_block b ++ r ->
  GifImage.init graphic_control w =
  Return
    {| GifImage.graphic_control := graphic_control;
       GifImage.colortable :=
         if Z.testbit (byte_int packed) 7
         then Some (rgb_triples table) else None;
       GifImage.image_descriptor :=
         {| ImageDescriptor.leftpos := int_from_bytes_little [l0; l1];
            ImageDescriptor.toppos := int_from_bytes_little [t0; t1];
            ImageDescriptor.width := int_from_bytes_little [w0; w1];
            ImageDescriptor.height := int_from_bytes_little [h0; h1];
            ImageDescriptor.interlace := false;
            ImageDescriptor.colortable_exists :=
              Z.testbit (byte_int packed) 7;
            ImageDescriptor.colortable_is_sorted :=
              Z.testbit (byte_int packed) 5;
            ImageDescriptor.colortable_size := Z.land (byte_int packed) 7;
            ImageDescriptor.interlaced :=
              Some (Z.testbit (byte_int packed) 6) |};
       GifImage.image_data_size := chain_total chain |}
    (advance (List.length (encode_block b)) w).
Proof.
  intros b [Htable Hchain] H. subst b. cbn [encode_block app] in H.
  unfold GifImage.init, GifStream.consume_image_descriptor,
    GifStream.skip_image_data, GifStream.consume_color_table.
  cursor_run H. rewrite ?int_from_bytes_little_1.
  try change (negb (byte_int x2c =? IMAGE_SEPARATOR)) with false.
  cursor_run H. rewrite ?int_from_bytes_little_1.
  unfold ImageDescriptor.num_colors.
  cbn [ImageDescriptor.colortable_exists
       ImageDescriptor.colortable_size ImageDescriptor.interlace
       ImageDescriptor.init].
  rewrite !shift_mask_testbit by lia.
  unfold table_bytes in Htable.
  assert (Hrem : remaining (advance 10 w)
                 = table ++ lzw :: encode_chain chain ++ r)
    by (rewrite (remaining_advance_skip _ _ _ H); cbn [skipn];
        now rewrite <- app_assoc).
  destruct (Z.testbit (byte_int packed) 7).
  - rewrite (consume_color_table_loop_run _ table [] _ _ Htable Hrem).
    rewrite advance_advance. cbn [app].
    rewrite position_add_adv. change (Z.to_nat 1) with 1%nat.
    rewrite (skip_data_chain chain r _ Hchain).
    + rewrite advance_advance, length_encode_Image, Htable.
      reflexivity.
    + rewrite <- Htable.
      replace (advance (10 + List.length table + 1) w)
        with (advance (1 + List.length table) (advance 10 w))
        by (rewrite advance_advance; f_equal; lia).
      rewrite remaining_advance, Hrem, <- skipn_skipn, skipn_app_length.
      reflexivity.
  - destruct table; [| discriminate]. cbn [app] in *.
    cursor_run H.
    rewrite (skip_data_chain chain r _ Hchain)
      by (rewrite (remaining_advance_skip _ _ _ H); reflexivity).
    rewrite advance_advance, length_encode_Image. reflexivity.
Qed.

Lemma consume_header_run v r w :
  remaining w = encode_version v ++ r ->
  GifStream.consume_header w = Return v (advance 6 w).
Proof.
  intros H. unfold GifStream.consume_header.
  destruct v; cbn [encode_version app] in H; cursor_run H.
  - change (decode_ascii ["G"; "I"; "F"]%byte) with (@inr byte _ "GIF"%string).
    cursor_run H.
    change (decode_ascii ["8"; "7"; "a"]%byte) with (@inr byte _ "87a"%string).
    cursor_run H. reflexivity.
  - change (decode_ascii ["G"; "I"; "F"]%byte) with (@inr byte _ "GIF"%string).
    cursor_run H.
    change (decode_ascii ["8"; "9"; "a"]%byte) with (@inr byte _ "89a"%string).
    cursor_run H. reflexivity.
Qed.

Lemma remaining_say line w : remaining (say line w) = remaining w.
Proof. reflexivity. Qed.

Lemma remaining_after_preamble f w :
  wf_layout f ->
  remaining w = encode_layout f ->
  remaining (after_preamble f w) = encode_blocks (lay_blocks f) ++ lay_tail f.
Proof.
  intros [Htable _] H. unfold after_preamble, encode_layout in *.
  unfold table_bytes in Htable.
  destruct (Z.testbit (byte_int (lay_packed f)) 7).
  - replace (advance (13 + List.length (lay_table f)) w)
      with (advance (List.length (lay_table f)) (advance 13 w))
      by (now rewrite advance_advance).
    rewrite remaining_advance, (remaining_advance_skip _ _ _ H).
    destruct (lay_version f); cbn [encode_version app skipn];
      now rewrite skipn_app_length.
  - rewrite remaining_say, (remaining_advance_skip _ _ _ H).
    destruct (lay_table f); [| discriminate].
    destruct (lay_version f); reflexivity.
Qed.

Lemma parse_metadata_run f w :
  wf_layout f ->
  remaining w = encode_layout f ->
  Gif.parse_metadata w =
  match Gif.parse_blocks (S (List.length (data (stream w)))) None []
          (after_preamble f w) with
  | Return images w' =>
      Return {| Gif.version := lay_version f;
                Gif.colortable :=
                  if Z.testbit (byte_int (lay_packed f)) 7
                  then Some (rgb_triples (lay_table f)) else None;
                Gif.logical_screen_descriptor := screen_descriptor_of f;
                Gif.images := images |}
             (release w')
  | Raise e w' => Raise e w'
  end.
Proof.
  intros [Htable _] H. unfold Gif.parse_metadata.
  unfold bind at 1.
  unfold encode_layout in H.
  rewrite (consume_header_run _ _ _ H).
  assert (H6 : remaining (advance 6 w) =
               [lay_width_lo f; lay_width_hi f; lay_height_lo f;
                lay_height_hi f; lay_packed f; lay_background f;
                lay_aspect f]
               ++ lay_table f ++ encode_blocks (lay_blocks f) ++ lay_tail f).
  { rewrite (remaining_advance_skip _ _ _ H).
    destruct (lay_version f); reflexivity. }
  cbn [app] in H6. clear H.
  unfold GifStream.consume_screen_descriptor, GifStream.consume_color_table,
    print, GifStream.close, MmapCursor_close.
  cursor_run H6. rewrite ?int_from_bytes_little_1.
  unfold LogicalScreenDescriptor.num_colors, after_preamble, screen_descriptor_of.
  cbn [LogicalScreenDescriptor.colortable_exists
       LogicalScreenDescriptor.colortable_size].
  rewrite !shift_mask_testbit by lia.
  unfold table_bytes in Htable.
  destruct (Z.testbit (byte_int (lay_packed f)) 7).
  - rewrite (consume_color_table_loop_run _ (lay_table f) [] _ _ Htable)
      by (rewrite (remaining_advance_skip _ _ _ H6); reflexivity).
    rewrite !advance_advance, Htable. cbn [app Nat.add].
    destruct (Gif.parse_blocks _ _ _ _); reflexivity.
  - rewrite !advance_advance. cbn [Nat.add].
    destruct (Gif.parse_blocks _ _ _ _); reflexivity.
Qed.

(* ===================================================================== *)
(** ** What no stream method does *)
(* ===================================================================== *)

Lemma steady_refl w : steady w w.
Proof. repeat split. lia. Qed.

Lemma steady_trans w1 w2 w3 : steady w1 w2 -> steady w2 w3 -> steady w1 w3.
Proof.
  intros [L1 [C1 D1]] [L2 [C2 D2]]. repeat split; [lia | congruence ..].
Qed.

Lemma steady_advance n w : steady w (advance n w).
Proof.
  split; [| split; reflexivity].
  rewrite remaining_advance, length_skipn. lia.
Qed.

Lemma well_trans {A} w1 w2 (o : outcome A) :
  steady w1 w2 -> well w2 o -> well w1 o.
Proof.
  intros S12. destruct o as [a w' | e w']; cbn.
  - now apply steady_trans.
  - intros [S U]. split; [now apply (steady_trans _ w2) | exact U].
Qed.

Lemma tame_ret {A} (a : A) : tame (ret a).
Proof. intros w. apply steady_refl. Qed.

Lemma tame_raise {A} e : ~ unreachable e -> tame (@raise A e).
Proof. intros U w. split; [apply steady_refl | exact U]. Qed.

Lemma tame_bind {A B} (c : M A) (k : A -> M B) :
  tame c -> (forall a, tame (k a)) -> tame (bind c k).
Proof.
  intros Hc Hk w. unfold bind. specialize (Hc w).
  destruct (c w) as [a w' | e w']; cbn in *.
  - apply (well_trans _ w'); [exact Hc | apply Hk].
  - exact Hc.
Qed.

Lemma not_unreachable_ShortRead n k : ~ unreachable (ShortRead n k).
Proof. intros [E | E]; discriminate. Qed.

Lemma tame_next n : tame (MmapCursor_next n).
Proof.
  intros w. unfold MmapCursor_next.
  destruct (_ <? _)%nat; cbn.
  - split; [apply steady_refl | apply not_unreachable_ShortRead].
  - apply steady_advance.
Qed.

Lemma tame_read n : tame (MmapCursor_read n).
Proof. intros w. apply steady_refl. Qed.

Lemma tame_position_add z : tame (MmapCursor_position_add z).
Proof. intros w. apply steady_advance. Qed.

Lemma tame_print line : tame (print line).
Proof.
  intros w. unfold print, well.
  split; [rewrite remaining_say; lia | split; reflexivity].
Qed.

Lemma tame_bytes_index bs i : tame (bytes_index bs i).
Proof.
  unfold bytes_index. destruct (nth_error bs i).
  - apply tame_ret.
  - apply tame_raise. intros [E | E]; discriminate.
Qed.

(** The proof that a straight-line method is [tame]: by its syntax. *)
Ltac tame_step :=
  match goal with
  | |- tame (bind _ _) => apply tame_bind; [| intros ?]
  | |- tame (ret _) => apply tame_ret
  | |- tame (raise _) =>
      apply tame_raise; intros [E | E]; discriminate E
  | |- tame (MmapCursor_next _) => apply tame_next
  | |- tame (MmapCursor_read _) => apply tame_read
  | |- tame (MmapCursor_position_add _) => apply tame_position_add
  | |- tame (print _) => apply tame_print
  | |- tame (bytes_index _ _) => apply tame_bytes_index
  | |- tame (if ?c then _ else _) => destruct c
  | |- tame (match ?x with _ => _ end) => destruct x
  | H : tame ?c |- tame ?c => exact H
  end.

Ltac tame_auto := repeat tame_step.

Lemma tame_next_byte : tame MmapCursor_next_byte.
Proof. unfold MmapCursor_next_byte. tame_auto. Qed.

Lemma tame_next_int n : tame (MmapCursor_next_int n).
Proof. unfold MmapCursor_next_int. tame_auto. Qed.

Lemma tame_next_ascii n : tame (MmapCursor_next_ascii n).
Proof. unfold MmapCursor_next_ascii. tame_auto. Qed.

Create HintDb tame.
#[local] Hint Resolve tame_next_byte tame_next_int tame_next_ascii : tame.

Lemma tame_consume_header : tame GifStream.consume_header.
Proof.
  unfold GifStream.consume_header, GifStream.version_of_rev.
  repeat first [ tame_step | solve [auto with tame] ].
Qed.

Lemma tame_consume_screen_descriptor : tame GifStream.consume_screen_descriptor.
Proof.
  unfold GifStream.consume_screen_descriptor.
  repeat first [ tame_step | solve [auto with tame] ].
Qed.

Lemma tame_consume_color_table_loop n :
  forall acc, tame (GifStream.consume_color_table_loop n acc).
Proof.
  induction n as [| n IH]; intros acc; cbn [GifStream.consume_color_table_loop].
  - apply tame_ret.
  - apply tame_bind; [apply tame_next |].
    intros rgb.
    destruct rgb as [| r [| g [| b [| ? ?]]]];
      try (apply tame_raise; intros [E | E]; discriminate E).
    apply IH.
Qed.

Lemma tame_consume_color_table z : tame (GifStream.consume_color_table z).
Proof. apply tame_consume_color_table_loop. Qed.

Lemma tame_consume_image_descriptor : tame GifStream.consume_image_descriptor.
Proof.
  unfold GifStream.consume_image_descriptor.
  repeat first [ tame_step | solve [auto with tame] ].
Qed.

Lemma tame_check_blocktype : tame GifStream.check_blocktype.
Proof.
  unfold GifStream.check_blocktype.
  repeat first [ tame_step | solve [auto with tame] ].
Qed.

Lemma tame_consume_graphic_control_extension :
  tame GifStream.consume_graphic_control_extension.
Proof.
  unfold GifStream.consume_graphic_control_extension.
  repeat first [ tame_step | solve [auto with tame] ].
Qed.

(** A read that succeeds leaves fewer bytes. *)
Lemma next_eats n : (0 < n)%nat -> eats (MmapCursor_next n).
Proof.
  intros Hn w a w'. unfold MmapCursor_next.
  destruct (_ <? _)%nat eqn:E; [discriminate |].
  intros [= _ <-]. apply Nat.ltb_ge in E.
  rewrite remaining_advance, length_skipn. lia.
Qed.

Lemma eats_bind_l {A B} (c : M A) (k : A -> M B) :
  eats c -> (forall a, tame (k a)) -> eats (bind c k).
Proof.
  intros Hc Hk w b w'. unfold bind.
  destruct (c w) as [a w1 | e w1] eqn:E; [| discriminate].
  intros Ek. specialize (Hc _ _ _ E).
  pose proof (Hk a w1) as K. rewrite Ek in K. destruct K as [L _]. lia.
Qed.

Lemma next_byte_eats : eats MmapCursor_next_byte.
Proof.
  unfold MmapCursor_next_byte.
  apply eats_bind_l; [apply next_eats; lia | intros; apply tame_ret].
Qed.

(** The loop of [skip_data] stays within its bound when the bound
    exceeds the number of bytes left. *)
Lemma skip_data_loop_well bound :
  forall data_size total w,
    (List.length (remaining w) < bound)%nat ->
    well w (GifStream.skip_data_loop bound data_size total w).
Proof.
  induction bound as [| bound IH]; intros data_size total w Hb; [lia |].
  cbn [GifStream.skip_data_loop].
  destruct (data_size =? 0); [apply steady_refl |].
  unfold bind at 1. rewrite position_add_here.
  set (w1 := advance (Z.to_nat data_size) w).
  assert (S1 : steady w w1) by apply steady_advance.
  apply (well_trans _ w1); [exact S1 |].
  unfold bind.
  pose proof (tame_next_byte w1) as T.
  pose proof (next_byte_eats w1) as E.
  destruct (MmapCursor_next_byte w1) as [ds w2 | e w2]; [| exact T].
  specialize (E _ _ eq_refl).
  apply (well_trans _ w2); [exact T |].
  apply IH. destruct S1 as [L _]. lia.
Qed.

Lemma tame_skip_data : tame GifStream.skip_data.
Proof.
  intros w. unfold GifStream.skip_data, bind.
  pose proof (tame_next_byte w) as T.
  pose proof (next_byte_eats w) as E.
  destruct (MmapCursor_next_byte w) as [ds w1 | e w1]; [| exact T].
  specialize (E _ _ eq_refl).
  apply (well_trans _ w1); [exact T |].
  apply skip_data_loop_well.
  pose proof (length_remaining_le w). lia.
Qed.

#[local] Hint Resolve tame_skip_data tame_consume_color_table
  tame_consume_image_descriptor tame_check_blocktype
  tame_consume_graphic_control_extension tame_consume_header
  tame_consume_screen_descriptor : tame.

Lemma tame_skip_image_data : tame GifStream.skip_image_data.
Proof.
  unfold GifStream.skip_image_data.
  repeat first [ tame_step | solve [auto with tame] ].
Qed.

Lemma tame_skip_extension : tame GifStream.skip_extension.
Proof.
  unfold GifStream.skip_extension.
  repeat first [ tame_step | solve [auto with tame] ].
Qed.

#[local] Hint Resolve tame_skip_image_data tame_skip_extension : tame.

Lemma tame_GifImage_init gc : tame (GifImage.init gc).
Proof.
  unfold GifImage.init.
  repeat first [ tame_step | solve [auto with tame] ].
Qed.

Lemma consume_graphic_control_extension_eats :
  eats GifStream.consume_graphic_control_extension.
Proof.
  unfold GifStream.consume_graphic_control_extension.
  apply eats_bind_l; [apply next_eats; lia |].
  intros signature.
  repeat first [ tame_step | solve [auto with tame] ].
Qed.

Lemma skip_extension_eats : eats GifStream.skip_extension.
Proof.
  unfold GifStream.skip_extension.
  apply eats_bind_l; [apply next_byte_eats |].
  intros introducer.
  repeat first [ tame_step | solve [auto with tame] ].
Qed.

Lemma consume_image_descriptor_eats : eats GifStream.consume_image_descriptor.
Proof.
  unfold GifStream.consume_image_descriptor.
  apply eats_bind_l; [apply next_byte_eats |].
  intros separator.
  repeat first [ tame_step | solve [auto with tame] ].
Qed.

Lemma GifImage_init_eats gc : eats (GifImage.init gc).
Proof.
  unfold GifImage.init.
  apply eats_bind_l; [apply consume_image_descriptor_eats |].
  intros desc.
  repeat first [ tame_step | solve [auto with tame] ].
Qed.

(** The classifier looks ahead and leaves the process as it found it. *)
Lemma check_blocktype_world w :
  final_world (GifStream.check_blocktype w) = w.
Proof.
  unfold GifStream.check_blocktype, bind, MmapCursor_read, bytes_index,
    ret, raise.
  destruct (nth_error (firstn 2 (remaining w)) 0); [| reflexivity].
  repeat match goal with
         | |- context [if ?c then _ else _] => destruct c
         | |- context [match nth_error ?l ?i with _ => _ end] =>
             destruct (nth_error l i)
         end; reflexivity.
Qed.

(** The classifier answers with one of four block types only. *)
Lemma check_blocktype_variants w blocktype w' :
  GifStream.check_blocktype w = Return blocktype w' ->
  blocktype = TRAILER \/ blocktype = IMAGE_DATA
  \/ blocktype = EXT_GRAPHIC_CONTROL \/ blocktype = EXT_UNKNOWN.
Proof.
  unfold GifStream.check_blocktype, bind, MmapCursor_read, bytes_index,
    ret, raise.
  destruct (nth_error (firstn 2 (remaining w)) 0); [| discriminate].
  repeat match goal with
         | |- context [if ?c then _ else _] => destruct c
         | |- context [match nth_error ?l ?i with _ => _ end] =>
             destruct (nth_error l i)
         end; intros [= <- _] || discriminate; auto.
Qed.

(** The dispatch loop stays within its bound when the bound exceeds the
    number of bytes left, and never takes its fallback branch. *)
Lemma parse_blocks_well bound :
  forall graphic_control images w,
    (List.length (remaining w) < bound)%nat ->
    well w (Gif.parse_blocks bound graphic_control images w).
Proof.
  induction bound as [| bound IH]; intros gc images w Hb; [lia |].
  cbn [Gif.parse_blocks]. unfold bind at 1.
  pose proof (tame_check_blocktype w) as T.
  pose proof (check_blocktype_world w) as W.
  pose proof (check_blocktype_variants w) as V.
  destruct (GifStream.check_blocktype w) as [bt w0 | e w0]; [| exact T].
  cbn in W. subst w0.
  destruct (V bt w eq_refl) as [-> | [-> | [-> | ->]]].
  - apply steady_refl.
  - unfold bind.
    pose proof (tame_GifImage_init gc w) as TI.
    pose proof (GifImage_init_eats gc w) as EI.
    destruct (GifImage.init gc w) as [img w1 | e w1]; [| exact TI].
    specialize (EI _ _ eq_refl).
    apply (well_trans _ w1); [exact TI | apply IH; lia].
  - destruct gc as [g |].
    + split; [apply steady_refl | intros [E | E]; discriminate E].
    + unfold bind.
      pose proof (tame_consume_graphic_control_extension w) as TG.
      pose proof (consume_graphic_control_extension_eats w) as EG.
      destruct (GifStream.consume_graphic_control_extension w)
        as [g w1 | e w1]; [| exact TG].
      specialize (EG _ _ eq_refl).
      apply (well_trans _ w1); [exact TG | apply IH; lia].
  - unfold bind.
    pose proof (tame_skip_extension w) as TS.
    pose proof (skip_extension_eats w) as ES.
    destruct (GifStream.skip_extension w) as [n w1 | e w1]; [| exact TS].
    specialize (ES _ _ eq_refl).
    apply (well_trans _ w1); [exact TS | apply IH; lia].
Qed.

(** How a run of [__parse_metadata] can end: with the aggregate and the
    stream released, or with an exception that is not [unreachable] and
    the stream as open or closed as it was. *)
Lemma parse_metadata_outcome w :
  match Gif.parse_metadata w with
  | Return _ w' => closed (stream w') = true
  | Raise e w' =>
      closed (stream w') = closed (stream w) /\ ~ unreachable e
  end.
Proof.
  unfold Gif.parse_metadata.
  unfold bind at 1.
  pose proof (tame_consume_header w) as T1.
  destruct (GifStream.consume_header w) as [version w1 | e w1];
    [| destruct T1 as [[_ [C _]] U]; now split].
  unfold bind at 1.
  pose proof (tame_consume_screen_descriptor w1) as T2.
  destruct (GifStream.consume_screen_descriptor w1) as [lsd w2 | e w2];
    [| destruct T1 as [_ [C1 _]], T2 as [[_ [C2 _]] U];
       split; [congruence | exact U]].
  unfold bind at 1.
  set (table := if LogicalScreenDescriptor.colortable_exists lsd
                then _ else _).
  assert (T3 : tame table).
  { subst table. repeat first [ tame_step | solve [auto with tame] ]. }
  specialize (T3 w2).
  destruct (table w2) as [colortable w3 | e w3];
    [| destruct T1 as [_ [C1 _]], T2 as [_ [C2 _]], T3 as [[_ [C3 _]] U];
       split; [congruence | exact U]].
  unfold bind at 1.
  pose proof (parse_blocks_well (S (List.length (data (stream w)))) None []
                w3) as T4.
  destruct T1 as [L1 [C1 _]], T2 as [L2 [C2 _]], T3 as [L3 [C3 _]].
  pose proof (length_remaining_le w) as L0.
  specialize (T4 ltac:(lia)).
  destruct (Gif.parse_blocks _ _ _ w3) as [images w4 | e w4];
    [| destruct T4 as [[_ [C4 _]] U]; split; [congruence | exact U]].
  reflexivity.
Qed.

(* ===================================================================== *)
(** ** The block classifier *)
(* ===================================================================== *)

Lemma check_blocktype_empty w :
  remaining w = [] ->
  GifStream.check_blocktype w = Raise IndexError w.
Proof.
  intros H. unfold GifStream.check_blocktype, bytes_index.
  cursor_run H. reflexivity.
Qed.

Lemma check_blocktype_trailer b0 r w :
  remaining w = b0 :: r ->
  byte_int b0 = TRAILER_LABEL ->
  GifStream.check_blocktype w = Return TRAILER w.
Proof.
  intros H E. unfold GifStream.check_blocktype, bytes_index.
  cursor_run H. destruct r; cbn [firstn nth_error]; cbv beta iota;
    rewrite E; reflexivity.
Qed.

Lemma check_blocktype_one b0 w :
  remaining w = [b0] ->
  byte_int b0 <> TRAILER_LABEL ->
  GifStream.check_blocktype w =
  Raise (GifStreamException Unexpected_end_of_file) w.
Proof.
  intros H E. unfold GifStream.check_blocktype, bytes_index.
  cursor_run H. cbn [nth_error]. cbv beta iota.
  apply Z.eqb_neq in E. rewrite E. reflexivity.
Qed.

(** C7, as the code has it.  Block classification looks at the next two
    bytes without consuming them and decides in this order: a first byte
    0x3B is the trailer, even when it is the last byte of the stream;
    with a single byte left that is not the trailer the classifier
    raises the end-of-file error; a first byte 0x2C is image data; a
    first byte 0x21 is the graphic control extension when the second
    byte is 0xF9 and an unknown extension otherwise; any other first
    byte raises the unknown-block error with both bytes.  In every case
    the process is left as it was: the cursor is where it was before the
    call.  With no byte left at all, the classifier does not raise the
    end-of-file error: it indexes the read-ahead before it tests its
    length, the read-ahead is empty, and the indexing raises
    [IndexError]. *)
Theorem check_blocktype_classification (w : world) :
  final_world (GifStream.check_blocktype w) = w
  /\ (forall b0 r,
        remaining w = b0 :: r -> byte_int b0 = 0x3B ->
        GifStream.check_blocktype w = Return TRAILER w)
  /\ (forall b0,
        remaining w = [b0] -> byte_int b0 <> 0x3B ->
        GifStream.check_blocktype w =
        Raise (GifStreamException Unexpected_end_of_file) w)
  /\ (forall b0 b1 r,
        remaining w = b0 :: b1 :: r -> byte_int b0 <> 0x3B ->
        (byte_int b0 = 0x2C ->
         GifStream.check_blocktype w = Return IMAGE_DATA w)
        /\ (byte_int b0 = 0x21 -> byte_int b1 = 0xF9 ->
            GifStream.check_blocktype w = Return EXT_GRAPHIC_CONTROL w)
        /\ (byte_int b0 = 0x21 -> byte_int b1 <> 0xF9 ->
            GifStream.check_blocktype w = Return EXT_UNKNOWN w)
        /\ (byte_int b0 <> 0x2C -> byte_int b0 <> 0x21 ->
            GifStream.check_blocktype w =
            Raise (GifStreamException
                     (Unknown_block (byte_int b0) (byte_int b1))) w))
  /\ (remaining w = [] ->
      GifStream.check_blocktype w = Raise IndexError w).
Proof.
  split; [apply check_blocktype_world |].
  split; [intros b0 r H E; now apply (check_blocktype_trailer b0 r) |].
  split; [intros b0 H E; now apply (check_blocktype_one b0) |].
  split; [| apply check_blocktype_empty].
  intros b0 b1 r H Ht.
  rewrite (check_blocktype_two _ _ _ _ H).
  unfold TRAILER_LABEL, IMAGE_SEPARATOR, EXT_INTRODUCER,
    EXT_GRAPHIC_CONTROL_LABEL.
  apply Z.eqb_neq in Ht. rewrite Ht.
  repeat split.
  - intros ->. reflexivity.
  - intros -> ->. reflexivity.
  - intros -> E. apply Z.eqb_neq in E. rewrite E. reflexivity.
  - intros E1 E2. apply Z.eqb_neq in E1, E2. rewrite E1, E2. reflexivity.
Qed.

Lemma check_blocktype_classification_witness :
  let w := world_of [x21; xf9; x04] in
  GifStream.check_blocktype w = Return EXT_GRAPHIC_CONTROL w
  /\ GifStream.check_blocktype (world_of [x3b]) = Return TRAILER (world_of [x3b])
  /\ GifStream.check_blocktype (world_of [x2c]) =
     Raise (GifStreamException Unexpected_end_of_file) (world_of [x2c])
  /\ GifStream.check_blocktype (world_of []) = Raise IndexError (world_of []).
Proof.
  split; [| split; [| split]].
  - refine (proj1 (proj2 (proj1 (proj2 (proj2 (proj2
              (check_blocktype_classification (world_of [x21; xf9; x04])))))
              x21 xf9 [x04] eq_refl _)) eq_refl eq_refl).
    vm_compute. discriminate.
  - exact (proj1 (proj2 (check_blocktype_classification (world_of [x3b])))
             x3b [] eq_refl eq_refl).
  - refine (proj1 (proj2 (proj2 (check_blocktype_classification
              (world_of [x2c])))) x2c eq_refl _).
    vm_compute. discriminate.
  - exact (proj2 (proj2 (proj2 (proj2 (check_blocktype_classification
             (world_of []))))) eq_refl).
Defined.

(** The input on which the classifier departs from the end-of-file
    rule: a stream with no byte left, as in a file that ends right
    behind its screen descriptor.  The classifier, and with it the
    parse, raises [IndexError], which is not the end-of-file error of
    [GifStreamException]; the cursor has not moved. *)
Lemma classifier_at_end_of_file_raises_IndexError :
  GifStream.check_blocktype (world_of []) = Raise IndexError (world_of [])
  /\ Gif.init (["G"; "I"; "F"; "8"; "9"; "a"]%byte
               ++ [x0a; x00; x14; x00; x00; x00; x00])
     = Raise IndexError
         (say "warning: no global color table"
            (advance 13
               (world_of (["G"; "I"; "F"; "8"; "9"; "a"]%byte
                          ++ [x0a; x00; x14; x00; x00; x00; x00]))))
  /\ IndexError <> GifStreamException Unexpected_end_of_file.
Proof.
  split; [reflexivity |].
  split; [vm_compute; reflexivity | discriminate].
Qed.

(* ===================================================================== *)
(** ** The sub-block skipper *)
(* ===================================================================== *)

Lemma chain_total_payload chain :
  Forall wf_subblock chain ->
  chain_total chain = Z.of_nat (List.length (chain_payload chain)).
Proof.
  induction 1 as [| sb chain [_ Hlen] _ IH].
  - reflexivity.
  - change (chain_total (sb :: chain))
      with (byte_int (sb_size sb) + chain_total chain).
    cbn [chain_payload flat_map]. rewrite length_app, Nat2Z.inj_add.
    fold (chain_payload chain). rewrite <- IH, Hlen, <- byte_int_to_nat.
    pose proof (byte_int_range (sb_size sb)). lia.
Qed.

Lemma length_encode_chain chain :
  List.length (encode_chain chain) =
  (List.length chain + List.length (chain_payload chain) + 1)%nat.
Proof.
  induction chain as [| sb chain IH].
  - reflexivity.
  - rewrite length_encode_chain_cons, IH.
    cbn [chain_payload flat_map List.length]. rewrite length_app.
    fold (chain_payload chain). lia.
Qed.

(** C5.  On a chain of sub-blocks, each a size byte other than zero
    followed by that many payload bytes, closed by a zero size byte,
    [skip_data] returns the sum of the size bytes, which is the number of
    payload bytes it has advanced over (size bytes and terminator not
    counted), and leaves the cursor on the byte after the terminating
    zero. *)
Theorem skip_data_returns_payload_size
  (chain : list subblock) (rest : list byte) (w : world) :
  Forall wf_subblock chain ->
  remaining w = encode_chain chain ++ rest ->
  exists w',
    GifStream.skip_data w = Return (chain_total chain) w'
    /\ chain_total chain = Z.of_nat (List.length (chain_payload chain))
    /\ remaining w' = rest
    /\ position (stream w') =
       (position (stream w)
        + (List.length chain + List.length (chain_payload chain) + 1))%nat.
Proof.
  intros Hwf H. eexists. split; [apply (skip_data_chain _ rest _ Hwf H) |].
  split; [now apply chain_total_payload |].
  split; [now apply remaining_advance_app |].
  cbn [advance stream position]. now rewrite length_encode_chain.
Qed.

Lemma skip_data_returns_payload_size_witness :
  let chain := [ {| sb_size := x03; sb_data := [x11; x12; x13] |};
                 {| sb_size := x01; sb_data := [x14] |} ] in
  let w := world_of (encode_chain chain ++ [x3b]) in
  exists w',
    GifStream.skip_data w = Return 4 w'
    /\ 4 = Z.of_nat (List.length (chain_payload chain))
    /\ remaining w' = [x3b]
    /\ position (stream w') = 7%nat.
Proof.
  intros chain w.
  apply (skip_data_returns_payload_size chain [x3b] w).
  - repeat constructor; discriminate.
  - reflexivity.
Defined.

(* ===================================================================== *)
(** ** The graphic control extension *)
(* ===================================================================== *)

Lemma DisposalMethod_of_value_Some n d :
  DisposalMethod_of_value n = Some d -> DisposalMethod_value d = n.
Proof.
  unfold DisposalMethod_of_value.
  repeat match goal with
         | |- context [?a =? ?b] => destruct (Z.eqb_spec a b)
         end; intros [= <-] || discriminate; now subst.
Qed.

Lemma DisposalMethod_of_value_reserved n :
  4 <= n -> DisposalMethod_of_value n = None.
Proof.
  intros Hn. unfold DisposalMethod_of_value.
  repeat match goal with
         | |- context [?a =? ?b] => destruct (Z.eqb_spec a b); [lia |]
         end.
  reflexivity.
Qed.

Lemma DisposalMethod_of_value_defined n :
  0 <= n <= 3 -> exists d, DisposalMethod_of_value n = Some d.
Proof.
  intros Hn. unfold DisposalMethod_of_value.
  repeat match goal with
         | |- context [?a =? ?b] => destruct (Z.eqb_spec a b); [eauto |]
         end.
  lia.
Qed.

Lemma land_7_range z : 0 <= Z.land z 7 <= 7.
Proof.
  replace (Z.land z 7) with (z mod 8)
    by (symmetry; apply (Z.land_ones z 3); lia).
  pose proof (Z.mod_pos_bound z 8 ltac:(lia)). lia.
Qed.

(** C3, as the code has it.  The decode of a graphic control extension
    reads the eight bytes of the block and takes bits 2-4 of the packed
    byte as the disposal code.  Codes 0-3 give the member of
    [DisposalMethod] with that value.  Codes 4-7 are not accepted: the
    enum has no member for them, and the decode ends in the [ValueError]
    of the enum constructor, after the block has been read. *)
Theorem graphic_control_disposal_codes
  (block_size packed delay_lo delay_hi transparent terminator : byte)
  (rest : list byte) (w : world) :
  remaining w =
    encode_block (GraphicControl block_size packed delay_lo delay_hi
                    transparent terminator) ++ rest ->
  let code := Z.land (Z.shiftr (byte_int packed) 2) 0x7 in
  0 <= code <= 7
  /\ (code <= 3 ->
      exists ext,
        GifStream.consume_graphic_control_extension w =
          Return ext (advance 8 w)
        /\ DisposalMethod_value
             (GraphicControlExtension.disposal_method ext) = code)
  /\ (4 <= code ->
      GifStream.consume_graphic_control_extension w =
        Raise (ValueError_DisposalMethod code) (advance 8 w)).
Proof.
  intros H code.
  pose proof (land_7_range (Z.shiftr (byte_int packed) 2)) as R.
  fold code in R. split; [exact R |].
  rewrite (consume_graphic_control_extension_run _ _ _ _ _ _ _ _ H).
  fold code. split.
  - intros Hc. destruct (DisposalMethod_of_value_defined code) as [d E];
      [lia |].
    rewrite E. eexists. split; [reflexivity |].
    now apply DisposalMethod_of_value_Some.
  - intros Hc. now rewrite (DisposalMethod_of_value_reserved code Hc).
Qed.

Lemma graphic_control_disposal_codes_witness :
  let w := world_of [x21; xf9; x04; x09; x32; x00; x07; x00; x3b] in
  exists ext,
    GifStream.consume_graphic_control_extension w = Return ext (advance 8 w)
    /\ DisposalMethod_value (GraphicControlExtension.disposal_method ext) = 2.
Proof.
  intros w.
  refine (proj1 (proj2 (graphic_control_disposal_codes
                          x04 x09 x32 x00 x07 x00 [x3b] w eq_refl)) _).
  vm_compute. discriminate.
Defined.

(** C3, as the claim states it, fails: a graphic control block whose
    packed byte is 0x10 carries the reserved disposal code 4, and its
    decode raises. *)
Lemma graphic_control_reserved_code_raises :
  let w := world_of [x21; xf9; x04; x10; x32; x00; x07; x00; x3b] in
  Z.land (Z.shiftr (byte_int x10) 2) 0x7 = 4
  /\ GifStream.consume_graphic_control_extension w =
     Raise (ValueError_DisposalMethod 4) (advance 8 w).
Proof. split; reflexivity. Qed.

(* ===================================================================== *)
(** ** The image descriptor *)
(* ===================================================================== *)

Lemma consume_image_descriptor_run
  l0 l1 t0 t1 w0 w1 h0 h1 packed r w :
  remaining w = x2c :: l0 :: l1 :: t0 :: t1 :: w0 :: w1 :: h0 :: h1
                  :: packed :: r ->
  GifStream.consume_image_descriptor w =
  Return
    {| ImageDescriptor.leftpos := int_from_bytes_little [l0; l1];
       ImageDescriptor.toppos := int_from_bytes_little [t0; t1];
       ImageDescriptor.width := int_from_bytes_little [w0; w1];
       ImageDescriptor.height := int_from_bytes_little [h0; h1];
       ImageDescriptor.interlace := false;
       ImageDescriptor.colortable_exists := Z.testbit (byte_int packed) 7;
       ImageDescriptor.colortable_is_sorted := Z.testbit (byte_int packed) 5;
       ImageDescriptor.colortable_size := Z.land (byte_int packed) 7;
       ImageDescriptor.interlaced := Some (Z.testbit (byte_int packed) 6) |}
    (advance 10 w).
Proof.
  intros H. unfold GifStream.consume_image_descriptor.
  cursor_run H. rewrite ?int_from_bytes_little_1.
  cbn [ImageDescriptor.interlace ImageDescriptor.init].
  now rewrite !shift_mask_testbit by lia.
Qed.

(** C1, what the code does.  The decode of an image descriptor reads bit
    6 of the packed byte, but stores it under the attribute name
    [interlaced]; the attribute [interlace], which [__init__] creates and
    [pretty_print] reports, keeps its initial value [False] whatever the
    packed byte is.  The other three fields of the packed byte arrive:
    bits 0-2 as the table size, bit 5 as the sorted flag, bit 7 as the
    table-present flag. *)
Theorem image_descriptor_interlace_not_stored
  (l0 l1 t0 t1 w0 w1 h0 h1 packed : byte) (rest : list byte) (w : world) :
  remaining w = x2c :: l0 :: l1 :: t0 :: t1 :: w0 :: w1 :: h0 :: h1
                  :: packed :: rest ->
  exists desc,
    GifStream.consume_image_descriptor w = Return desc (advance 10 w)
    /\ ImageDescriptor.interlace desc = false
    /\ ImageDescriptor.interlaced desc = Some (Z.testbit (byte_int packed) 6)
    /\ ImageDescriptor.colortable_size desc = Z.land (byte_int packed) 7
    /\ ImageDescriptor.colortable_is_sorted desc
       = Z.testbit (byte_int packed) 5
    /\ ImageDescriptor.colortable_exists desc
       = Z.testbit (byte_int packed) 7.
Proof.
  intros H. eexists.
  split; [apply (consume_image_descriptor_run _ _ _ _ _ _ _ _ _ _ _ H) |].
  repeat split.
Qed.

Lemma image_descriptor_interlace_not_stored_witness :
  let w := world_of [x2c; x00; x00; x00; x00; x01; x00; x01; x00; x40;
                     x02; x00; x3b] in
  Z.testbit (byte_int x40) 6 = true
  /\ exists desc,
       GifStream.consume_image_descriptor w = Return desc (advance 10 w)
       /\ ImageDescriptor.interlace desc = false
       /\ ImageDescriptor.interlaced desc = Some true
       /\ ImageDescriptor.colortable_size desc = 0
       /\ ImageDescriptor.colortable_is_sorted desc = false
       /\ ImageDescriptor.colortable_exists desc = false.
Proof.
  intros w. split; [reflexivity |].
  exact (image_descriptor_interlace_not_stored
           x00 x00 x00 x00 x01 x00 x01 x00 x40 [x02; x00; x3b] w eq_refl).
Defined.

(* ===================================================================== *)
(** ** Whole runs: termination, release of the stream, dispatch *)
(* ===================================================================== *)

(** The bound of the two loops is never what ends a parse: the model of
    [Gif(path)] returns or raises as the Python code does. *)
Lemma Gif_init_terminates file e w' :
  Gif.init file = Raise e w' -> e <> LoopBoundReached.
Proof.
  unfold Gif.init. intros E.
  pose proof (parse_metadata_outcome (world_of file)) as O.
  rewrite E in O. destruct O as [_ U].
  intros ->. apply U. now left.
Qed.

(** C2, as the code has it.  [__parse_metadata] calls [close] once, after
    the dispatch loop has reached the trailer: a parse that returns has
    released the stream, and a parse that raises, whatever the error,
    leaves it open, since no handler or scope calls [close] on the way
    out. *)
Theorem stream_released_on_success_only (file : list byte) :
  match Gif.init file with
  | Return _ w' => closed (stream w') = true
  | Raise _ w' => closed (stream w') = false
  end.
Proof.
  unfold Gif.init.
  pose proof (parse_metadata_outcome (world_of file)) as O.
  destruct (Gif.parse_metadata _) as [g w' | e w'].
  - exact O.
  - exact (proj1 O).
Qed.

(** C2, as the claim states it, fails: on a file with the signature
    [GIX] the parse raises and the stream has not been closed. *)
Lemma stream_left_open_on_bad_signature :
  let o := Gif.init ["G"; "I"; "X"; "8"; "9"; "a"]%byte in
  (exists w', o = Raise (GifStreamException (Bad_signature "GIX")) w')
  /\ closed (stream (final_world o)) = false.
Proof. split; [eexists |]; reflexivity. Qed.

Lemma parse_blocks_no_fallback bound :
  forall graphic_control images w e w',
    Gif.parse_blocks bound graphic_control images w = Raise e w' ->
    e <> Exception_unexpected_blocktype.
Proof.
  assert (U : forall e, ~ unreachable e -> e <> Exception_unexpected_blocktype)
    by (intros e H ->; apply H; now right).
  induction bound as [| bound IH]; intros gc images w e w';
    [intros [= <- _]; discriminate |].
  cbn [Gif.parse_blocks]. unfold bind at 1.
  pose proof (tame_check_blocktype w) as T.
  pose proof (check_blocktype_variants w) as V.
  destruct (GifStream.check_blocktype w) as [bt w0 | e0 w0];
    [| intros [= <- _]; apply U, T].
  destruct (V bt w0 eq_refl) as [-> | [-> | [-> | ->]]].
  - discriminate.
  - unfold bind.
    pose proof (tame_GifImage_init gc w0) as TI.
    destruct (GifImage.init gc w0) as [img w1 | e1 w1];
      [apply IH | intros [= <- _]; apply U, TI].
  - destruct gc as [g |]; [intros [= <- _]; discriminate |].
    unfold bind.
    pose proof (tame_consume_graphic_control_extension w0) as TG.
    destruct (GifStream.consume_graphic_control_extension w0)
      as [g w1 | e1 w1]; [apply IH | intros [= <- _]; apply U, TG].
  - unfold bind.
    pose proof (tame_skip_extension w0) as TS.
    destruct (GifStream.skip_extension w0) as [n w1 | e1 w1];
      [apply IH | intros [= <- _]; apply U, TS].
Qed.

(** C10.  The classifier answers with [TRAILER], [IMAGE_DATA],
    [EXT_GRAPHIC_CONTROL] or [EXT_UNKNOWN] only, never with the comment,
    plain-text or application members of [_BlockType]; hence the final
    [else] branch of the dispatch loop, which raises "Unexpected blocktype
    returned!", is not taken: neither the loop, from any state, nor a
    parse of any file ends in that exception. *)
Theorem dispatch_fallback_unreachable :
  (forall w blocktype w',
     GifStream.check_blocktype w = Return blocktype w' ->
     In blocktype [TRAILER; IMAGE_DATA; EXT_GRAPHIC_CONTROL; EXT_UNKNOWN])
  /\ (forall bound graphic_control images w e w',
        Gif.parse_blocks bound graphic_control images w = Raise e w' ->
        e <> Exception_unexpected_blocktype)
  /\ (forall file e w',
        Gif.init file = Raise e w' -> e <> Exception_unexpected_blocktype).
Proof.
  split; [| split].
  - intros w bt w' E.
    destruct (check_blocktype_variants _ _ _ E) as [-> | [-> | [-> | ->]]];
      cbn; auto.
  - intros bound. apply parse_blocks_no_fallback.
  - intros file e w' E.
    pose proof (parse_metadata_outcome (world_of file)) as O.
    unfold Gif.init in E. rewrite E in O.
    destruct O as [_ U]. intros ->. apply U. now right.
Qed.

Lemma dispatch_fallback_unreachable_witness :
  In EXT_UNKNOWN [TRAILER; IMAGE_DATA; EXT_GRAPHIC_CONTROL; EXT_UNKNOWN]
  /\ Exception_two_graphic_control_blocks <> Exception_unexpected_blocktype
  /\ GifStreamException (Bad_signature "GIX")
     <> Exception_unexpected_blocktype.
Proof.
  split; [| split].
  - exact (proj1 dispatch_fallback_unreachable
             (world_of [x21; xfe; x00]) EXT_UNKNOWN
             (world_of [x21; xfe; x00]) eq_refl).
  - exact (proj1 (proj2 dispatch_fallback_unreachable)
             1%nat
             (Some {| GraphicControlExtension.disposal_method := NONE;
                      GraphicControlExtension.user_input_flag := false;
                      GraphicControlExtension.transparent_flag := false;
                      GraphicControlExtension.transparent_color := 0;
                      GraphicControlExtension.delay := 0 |})
             [] (world_of [x21; xf9; x04]) _
             (world_of [x21; xf9; x04]) eq_refl).
  - exact (proj2 (proj2 dispatch_fallback_unreachable)
             ["G"; "I"; "X"; "8"; "9"; "a"]%byte _
             (advance 3 (world_of ["G"; "I"; "X"; "8"; "9"; "a"]%byte))
             eq_refl).
Defined.

(* ===================================================================== *)
(** ** The minimal file *)
(* ===================================================================== *)

(** C8.  The file made of the header [GIF89a], a screen descriptor whose
    packed byte has bit 7 clear, and the trailer byte parses: the
    aggregate has version GIF89a, no global color table and no images,
    the one line printed is the warning about the absent global table,
    and no exception is raised. *)
Theorem minimal_file_parses
  (width_lo width_hi height_lo height_hi packed background aspect : byte) :
  Z.testbit (byte_int packed) 7 = false ->
  exists g w',
    Gif.init (["G"; "I"; "F"; "8"; "9"; "a"]%byte
              ++ [width_lo; width_hi; height_lo; height_hi; packed;
                  background; aspect]
              ++ [x3b]) = Return g w'
    /\ Gif.version g = GIF89a
    /\ Gif.colortable g = None
    /\ Gif.images g = []
    /\ LogicalScreenDescriptor.colortable_exists
         (Gif.logical_screen_descriptor g) = false
    /\ stdout w' = ["warning: no global color table"%string].
Proof.
  intros Hbit.
  set (f := {| lay_version := GIF89a;
               lay_width_lo := width_lo; lay_width_hi := width_hi;
               lay_height_lo := height_lo; lay_height_hi := height_hi;
               lay_packed := packed; lay_background := background;
               lay_aspect := aspect;
               lay_table := []; lay_blocks := []; lay_tail := [x3b] |}).
  assert (Hwf : wf_layout f).
  { split; [| constructor]. cbn. unfold table_bytes. now rewrite Hbit. }
  unfold Gif.init.
  change (["G"; "I"; "F"; "8"; "9"; "a"]%byte ++ _) with (encode_layout f).
  set (w := world_of (encode_layout f)).
  rewrite (parse_metadata_run f w Hwf eq_refl).
  pose proof (remaining_after_preamble f w Hwf eq_refl) as Hrem.
  cbn [Gif.parse_blocks]. unfold bind at 1.
  rewrite (check_blocktype_trailer x3b [] _ Hrem eq_refl).
  unfold ret, after_preamble, screen_descriptor_of.
  cbn [lay_packed f lay_version]. rewrite Hbit.
  do 2 eexists. split; [reflexivity |].
  cbn [Gif.version Gif.colortable Gif.images Gif.logical_screen_descriptor
       LogicalScreenDescriptor.colortable_exists].
  repeat split.
Qed.

Lemma minimal_file_parses_witness :
  exists g w',
    Gif.init (["G"; "I"; "F"; "8"; "9"; "a"]%byte
              ++ [x0a; x00; x14; x00; x70; x00; x00]
              ++ [x3b]) = Return g w'
    /\ Gif.version g = GIF89a
    /\ Gif.colortable g = None
    /\ Gif.images g = []
    /\ LogicalScreenDescriptor.colortable_exists
         (Gif.logical_screen_descriptor g) = false
    /\ stdout w' = ["warning: no global color table"%string].
Proof.
  apply (minimal_file_parses x0a x00 x14 x00 x70 x00 x00).
  reflexivity.
Defined.

(* ===================================================================== *)
(** ** Color tables *)
(* ===================================================================== *)

Lemma bind_Return_inv {A B} (c : M A) (k : A -> M B) w b w' :
  bind c k w = Return b w' ->
  exists a w1, c w = Return a w1 /\ k a w1 = Return b w'.
Proof.
  unfold bind. destruct (c w) as [a w1 | e w1]; [| discriminate].
  intros E. now exists a, w1.
Qed.

Lemma next_Return_inv n w bs w' :
  MmapCursor_next n w = Return bs w' ->
  bs = firstn n (remaining w) /\ w' = advance n w
  /\ (n <= List.length (remaining w))%nat.
Proof.
  unfold MmapCursor_next. destruct (_ <? _)%nat eqn:E; [discriminate |].
  apply Nat.ltb_ge in E. intros [= <- <-]. auto.
Qed.

(** A table decode that returns has read [3 * n] bytes and grouped them,
    in order, into [n] triples. *)
Lemma consume_color_table_loop_post n :
  forall acc w table w',
    GifStream.consume_color_table_loop n acc w = Return table w' ->
    table = acc ++ rgb_triples (firstn (3 * n) (remaining w))
    /\ List.length table = (List.length acc + n)%nat
    /\ w' = advance (3 * n) w.
Proof.
  induction n as [| n IH]; intros acc w table w' E.
  - injection E as <- <-. cbn. now rewrite app_nil_r, advance_0, Nat.add_0_r.
  - cbn [GifStream.consume_color_table_loop] in E.
    apply bind_Return_inv in E as (bs & w1 & E1 & E2).
    apply next_Return_inv in E1 as (-> & -> & L).
    pose proof (remaining_advance 3 w) as R.
    destruct (remaining w) as [| r [| g [| b rest]]];
      try (cbn in L; lia).
    cbn [firstn skipn] in *.
    apply IH in E2 as (-> & Hlen & ->).
    rewrite R in *. rewrite advance_advance.
    replace (3 * S n)%nat with (S (S (S (3 * n)))) by lia.
    cbn [firstn rgb_triples]. split; [| split].
    + rewrite <- app_assoc. reflexivity.
    + rewrite Hlen, length_app. cbn. lia.
    + reflexivity.
Qed.

Lemma consume_color_table_ok z w table w' :
  0 <= z ->
  GifStream.consume_color_table z w = Return table w' ->
  Z.of_nat (List.length table) = z
  /\ table = rgb_triples (firstn (3 * List.length table) (remaining w))
  /\ w' = advance (3 * Z.to_nat z) w.
Proof.
  intros Hz E. unfold GifStream.consume_color_table in E.
  apply consume_color_table_loop_post in E as (E1 & E2 & ->).
  cbn [app List.length Nat.add] in *. split; [lia |].
  split; [| reflexivity]. now rewrite E2.
Qed.

Lemma pow2_nonneg z : 0 <= 2 ^ z.
Proof. apply Z.pow_nonneg. lia. Qed.

Lemma consume_image_descriptor_size w desc w' :
  GifStream.consume_image_descriptor w = Return desc w' ->
  0 <= ImageDescriptor.colortable_size desc <= 7
  /\ steady w w'.
Proof.
  intros E. pose proof (tame_consume_image_descriptor w) as T.
  rewrite E in T. split; [| exact T].
  unfold GifStream.consume_image_descriptor in E.
  repeat match type of E with
         | bind _ _ _ = Return _ _ =>
             apply bind_Return_inv in E as (? & ? & _ & E)
         | (if ?c then _ else _) _ = Return _ _ =>
             destruct c; [discriminate |]
         end.
  injection E as <- _. apply land_7_range.
Qed.

Lemma GifImage_init_table_ok gc w img w' :
  GifImage.init gc w = Return img w' ->
  image_table_ok (data (stream w)) img.
Proof.
  intros E. unfold GifImage.init in E.
  apply bind_Return_inv in E as (desc & w1 & E1 & E).
  apply consume_image_descriptor_size in E1 as (Hsize & _ & _ & D1).
  apply bind_Return_inv in E as (colortable & w2 & E2 & E).
  apply bind_Return_inv in E as (size & w3 & _ & E).
  injection E as <- _.
  unfold image_table_ok.
  cbn [GifImage.image_descriptor GifImage.colortable].
  split; [exact Hsize |]. split; [reflexivity |].
  destruct (ImageDescriptor.colortable_exists desc).
  - apply bind_Return_inv in E2 as (table & w2' & E2 & E2').
    injection E2' as <- _.
    apply consume_color_table_ok in E2 as (L & T & _);
      [| apply pow2_nonneg].
    cbn [table_ok]. split; [reflexivity |]. split; [exact L |].
    exists (position (stream w1)). rewrite <- D1. exact T.
  - injection E2 as <- _. reflexivity.
Qed.

Lemma parse_blocks_tables_ok bound :
  forall gc images w images' w',
    Gif.parse_blocks bound gc images w = Return images' w' ->
    Forall (image_table_ok (data (stream w))) images ->
    Forall (image_table_ok (data (stream w))) images'.
Proof.
  induction bound as [| bound IH]; intros gc images w images' w' E Hok;
    [discriminate |].
  cbn [Gif.parse_blocks] in E.
  apply bind_Return_inv in E as (bt & w0 & E0 & E).
  pose proof (check_blocktype_world w) as W. rewrite E0 in W.
  cbn in W. subst w0.
  destruct bt; try discriminate.
  - apply bind_Return_inv in E as (img & w1 & E1 & E).
    pose proof (tame_GifImage_init gc w) as T. rewrite E1 in T.
    destruct T as (_ & _ & D).
    apply GifImage_init_table_ok in E1.
    rewrite <- D. apply (IH _ _ _ _ _ E). rewrite D.
    apply Forall_app. split; [exact Hok | now constructor].
  - destruct gc; [discriminate |].
    apply bind_Return_inv in E as (g & w1 & E1 & E).
    pose proof (tame_consume_graphic_control_extension w) as T.
    rewrite E1 in T. destruct T as (_ & _ & D).
    rewrite <- D. apply (IH _ _ _ _ _ E). now rewrite D.
  - apply bind_Return_inv in E as (n & w1 & E1 & E).
    pose proof (tame_skip_extension w) as T.
    rewrite E1 in T. destruct T as (_ & _ & D).
    rewrite <- D. apply (IH _ _ _ _ _ E). now rewrite D.
  - injection E as <- _. exact Hok.
Qed.

Lemma consume_screen_descriptor_size w lsd w' :
  GifStream.consume_screen_descriptor w = Return lsd w' ->
  0 <= LogicalScreenDescriptor.colortable_size lsd <= 7.
Proof.
  intros E. unfold GifStream.consume_screen_descriptor in E.
  repeat match type of E with
         | bind _ _ _ = Return _ _ =>
             apply bind_Return_inv in E as (? & ? & _ & E)
         end.
  injection E as <- _. apply land_7_range.
Qed.

(** C6.  In the aggregate of every parse that returns, the size code [C]
    of the screen descriptor and of every image descriptor lies in 0-7,
    [num_colors] is [2^(C+1)], and every color table, global or local,
    is present exactly when its descriptor's flag is set, has exactly
    [num_colors] entries of its own descriptor, and holds the RGB triples
    of consecutive bytes of the file in file order. *)
Theorem color_table_lengths (file : list byte) (g : Gif.t) (w' : world) :
  Gif.init file = Return g w' ->
  let lsd := Gif.logical_screen_descriptor g in
  0 <= LogicalScreenDescriptor.colortable_size lsd <= 7
  /\ LogicalScreenDescriptor.num_colors lsd
     = 2 ^ (LogicalScreenDescriptor.colortable_size lsd + 1)
  /\ table_ok file (LogicalScreenDescriptor.colortable_exists lsd)
       (LogicalScreenDescriptor.num_colors lsd) (Gif.colortable g)
  /\ Forall (image_table_ok file) (Gif.images g).
Proof.
  unfold Gif.init, Gif.parse_metadata. intros E.
  apply bind_Return_inv in E as (version & w1 & E1 & E).
  apply bind_Return_inv in E as (lsd & w2 & E2 & E).
  apply bind_Return_inv in E as (colortable & w3 & E3 & E).
  apply bind_Return_inv in E as (images & w4 & E4 & E).
  apply bind_Return_inv in E as (u & w5 & _ & E).
  injection E as <- _.
  cbn [Gif.logical_screen_descriptor Gif.colortable Gif.images].
  pose proof (tame_consume_header (world_of file)) as T1.
  rewrite E1 in T1. destruct T1 as (_ & _ & D1).
  pose proof (tame_consume_screen_descriptor w1) as T2.
  rewrite E2 in T2. destruct T2 as (_ & _ & D2).
  change (data (stream (world_of file))) with file in D1.
  assert (Dw2 : data (stream w2) = file) by congruence.
  split; [apply (consume_screen_descriptor_size _ _ _ E2) |].
  split; [reflexivity |].
  assert (Dw3 : data (stream w3) = file
                /\ table_ok file
                     (LogicalScreenDescriptor.colortable_exists lsd)
                     (LogicalScreenDescriptor.num_colors lsd) colortable).
  { destruct (LogicalScreenDescriptor.colortable_exists lsd).
    - apply bind_Return_inv in E3 as (table & w3' & E3 & E3').
      injection E3' as <- <-.
      apply consume_color_table_ok in E3 as (L & T & ->);
        [| apply pow2_nonneg].
      split; [exact Dw2 |].
      cbn [table_ok]. split; [reflexivity |]. split; [exact L |].
      exists (position (stream w2)). rewrite <- Dw2. exact T.
    - apply bind_Return_inv in E3 as (u' & w3' & E3 & E3').
      injection E3' as <- <-. injection E3 as _ <-.
      split; [exact Dw2 | reflexivity]. }
  destruct Dw3 as [Dw3 Hglobal].
  split; [exact Hglobal |].
  rewrite <- Dw3. apply (parse_blocks_tables_ok _ _ _ _ _ _ E4).
  constructor.
Qed.

Lemma color_table_lengths_witness :
  Gif.init sample_file
  = Return sample_gif (release (advance 57 (world_of sample_file)))
  /\ table_ok sample_file true 2 (Gif.colortable sample_gif)
  /\ Forall (image_table_ok sample_file) (Gif.images sample_gif).
Proof.
  assert (E : Gif.init sample_file
              = Return sample_gif
                  (release (advance 57 (world_of sample_file))))
    by (vm_compute; reflexivity).
  split; [exact E |].
  exact (proj2 (proj2 (color_table_lengths sample_file _ _ E))).
Defined.

(* ===================================================================== *)
(** ** The dispatch loop over a laid-out sequence of blocks *)
(* ===================================================================== *)

Lemma check_blocktype_block b r w :
  remaining w = encode_block b ++ r ->
  wf_block b ->
  GifStream.check_blocktype w =
  Return match b with
         | GraphicControl _ _ _ _ _ _ => EXT_GRAPHIC_CONTROL
         | Image _ _ _ _ _ _ _ _ _ _ _ _ => IMAGE_DATA
         | Extension _ _ => EXT_UNKNOWN
         end w.
Proof.
  intros H Hwf. destruct b; cbn [encode_block app] in H.
  - now rewrite (check_blocktype_two _ _ _ _ H).
  - now rewrite (check_blocktype_two _ _ _ _ H).
  - destruct Hwf as [Hlabel _].
    unfold encode_chain in H.
    destruct (flat_map encode_subblock chain ++ [x00]) as [| c rest] eqn:E.
    { destruct (flat_map encode_subblock chain); discriminate. }
    rewrite (check_blocktype_two _ _ _ _ H).
    change (byte_int x21 =? TRAILER_LABEL) with false.
    change (byte_int x21 =? IMAGE_SEPARATOR) with false.
    change (byte_int x21 =? EXT_INTRODUCER) with true.
    cbv beta iota.
    destruct (Z.eqb_spec (byte_int label) EXT_GRAPHIC_CONTROL_LABEL) as [E1 |];
      [| reflexivity].
    exfalso. apply Hlabel. apply byte_int_inj. exact E1.
Qed.

(** One iteration of the loop over one well-formed block is the
    transition [dispatch]. *)
Lemma parse_blocks_step b r bound gc images w :
  wf_block b ->
  remaining w = encode_block b ++ r ->
  Gif.parse_blocks (S bound) gc images w =
  match dispatch b (gc, images) with
  | inl (e, consumed) => Raise e (advance consumed w)
  | inr (gc', images') =>
      Gif.parse_blocks bound gc' images'
        (advance (List.length (encode_block b)) w)
  end.
Proof.
  intros Hwf H. cbn [Gif.parse_blocks]. unfold bind at 1.
  rewrite (check_blocktype_block b r w H Hwf).
  destruct b as [bs packed d0 d1 tc term
                | l0 l1 t0 t1 w0 w1 h0 h1 packed table lzw chain
                | label chain]; cbn [dispatch fst snd].
  - destruct gc as [g |]; [now rewrite advance_0 |].
    unfold bind.
    rewrite (consume_graphic_control_extension_run _ _ _ _ _ _ _ _ H).
    unfold decode_graphic_control.
    destruct (DisposalMethod_of_value _); reflexivity.
  - unfold bind.
    rewrite (GifImage_init_run _ _ _ _ _ _ _ _ _ _ _ _ gc r w Hwf H).
    reflexivity.
  - unfold bind. destruct Hwf as [_ Hchain].
    rewrite (skip_extension_run label chain r w Hchain H).
    reflexivity.
Qed.

Lemma encode_blocks_cons b blocks :
  encode_blocks (b :: blocks) = encode_block b ++ encode_blocks blocks.
Proof. reflexivity. Qed.

(** The loop over a sequence of well-formed blocks is [dispatch_all]. *)
Lemma parse_blocks_run blocks :
  forall r bound gc images w,
    Forall wf_block blocks ->
    remaining w = encode_blocks blocks ++ r ->
    Gif.parse_blocks (List.length blocks + bound) gc images w =
    match dispatch_all blocks (gc, images) with
    | inl (e, consumed) => Raise e (advance consumed w)
    | inr (gc', images') =>
        Gif.parse_blocks bound gc' images'
          (advance (List.length (encode_blocks blocks)) w)
    end.
Proof.
  induction blocks as [| b blocks IH]; intros r bound gc images w Hwf H.
  - cbn. now rewrite advance_0.
  - inversion Hwf as [| ? ? Hb Hrest]; subst.
    rewrite encode_blocks_cons, <- app_assoc in H.
    cbn [List.length Nat.add].
    rewrite (parse_blocks_step b _ _ gc images w Hb H).
    cbn [dispatch_all].
    destruct (dispatch b (gc, images)) as [[e k] | [gc' images']];
      [reflexivity |].
    rewrite (IH r bound gc' images' _ Hrest (remaining_advance_app _ _ _ H)).
    destruct (dispatch_all blocks (gc', images')) as [[e k] | [gc'' images'']];
      rewrite advance_advance; [reflexivity |].
    now rewrite encode_blocks_cons, length_app.
Qed.

(* ===================================================================== *)
(** ** Processes the parser cannot tell apart *)
(* ===================================================================== *)

Lemma alike_advance n w1 w2 : alike w1 w2 -> alike (advance n w1) (advance n w2).
Proof.
  intros (R & P & L & C & O). unfold alike.
  rewrite !remaining_advance, R. cbn [advance stream position data closed stdout].
  repeat split; congruence.
Qed.

Lemma alike_release w1 w2 : alike w1 w2 -> alike (release w1) (release w2).
Proof.
  intros (R & P & L & C & O). unfold alike, release, remaining in *.
  cbn [stream position data closed stdout]. repeat split; congruence.
Qed.

Lemma uniform_ret {A} (a : A) : uniform (ret a).
Proof. intros w1 w2 H. now split. Qed.

Lemma uniform_raise {A} e : uniform (@raise A e).
Proof. intros w1 w2 H. now split. Qed.

Lemma uniform_bind {A B} (c : M A) (k : A -> M B) :
  uniform c -> (forall a, uniform (k a)) -> uniform (bind c k).
Proof.
  intros Hc Hk w1 w2 H. unfold bind. specialize (Hc w1 w2 H).
  destruct (c w1) as [a1 u1 | e1 u1], (c w2) as [a2 u2 | e2 u2];
    cbn in Hc; try contradiction.
  - destruct Hc as [<- Hu]. now apply Hk.
  - exact Hc.
Qed.

Lemma uniform_next n : uniform (MmapCursor_next n).
Proof.
  intros w1 w2 H. unfold MmapCursor_next.
  pose proof H as (R & _). rewrite R.
  destruct (_ <? _)%nat; cbn.
  - now split.
  - split; [reflexivity | now apply alike_advance].
Qed.

Lemma uniform_read n : uniform (MmapCursor_read n).
Proof.
  intros w1 w2 H. unfold MmapCursor_read.
  pose proof H as (R & _). rewrite R. now split.
Qed.

Lemma uniform_position_add z : uniform (MmapCursor_position_add z).
Proof.
  intros w1 w2 H. split; [reflexivity | now apply alike_advance].
Qed.

Lemma uniform_bytes_index bs i : uniform (bytes_index bs i).
Proof.
  unfold bytes_index. destruct (nth_error bs i);
    [apply uniform_ret | apply uniform_raise].
Qed.

(** The proof that a straight-line method is [uniform]: by its syntax. *)
Ltac uniform_step :=
  match goal with
  | |- uniform (bind _ _) => apply uniform_bind; [| intros ?]
  | |- uniform (ret _) => apply uniform_ret
  | |- uniform (raise _) => apply uniform_raise
  | |- uniform (MmapCursor_next _) => apply uniform_next
  | |- uniform (MmapCursor_read _) => apply uniform_read
  | |- uniform (MmapCursor_position_add _) => apply uniform_position_add
  | |- uniform (bytes_index _ _) => apply uniform_bytes_index
  | |- uniform (if ?c then _ else _) => destruct c
  | |- uniform (match ?x with _ => _ end) => destruct x
  | H : uniform ?c |- uniform ?c => exact H
  end.

Create HintDb uniform.

Lemma uniform_next_byte : uniform MmapCursor_next_byte.
Proof. unfold MmapCursor_next_byte. repeat uniform_step. Qed.

Lemma uniform_next_int n : uniform (MmapCursor_next_int n).
Proof. unfold MmapCursor_next_int. repeat uniform_step. Qed.

#[local] Hint Resolve uniform_next_byte uniform_next_int : uniform.

Ltac uniform_auto :=
  repeat first [ uniform_step | solve [auto with uniform] ].

Lemma uniform_check_blocktype : uniform GifStream.check_blocktype.
Proof. unfold GifStream.check_blocktype. uniform_auto. Qed.

Lemma uniform_consume_graphic_control_extension :
  uniform GifStream.consume_graphic_control_extension.
Proof. unfold GifStream.consume_graphic_control_extension. uniform_auto. Qed.

Lemma uniform_consume_image_descriptor :
  uniform GifStream.consume_image_descriptor.
Proof. unfold GifStream.consume_image_descriptor. uniform_auto. Qed.

Lemma uniform_consume_color_table_loop n :
  forall acc, uniform (GifStream.consume_color_table_loop n acc).
Proof.
  induction n as [| n IH]; intros acc; cbn [GifStream.consume_color_table_loop].
  - apply uniform_ret.
  - apply uniform_bind; [apply uniform_next |]. intros rgb.
    destruct rgb as [| r [| g [| b [| ? ?]]]]; try apply uniform_raise.
    apply IH.
Qed.

Lemma uniform_consume_color_table z : uniform (GifStream.consume_color_table z).
Proof. apply uniform_consume_color_table_loop. Qed.

Lemma uniform_skip_data_loop bound :
  forall data_size total,
    uniform (GifStream.skip_data_loop bound data_size total).
Proof.
  induction bound as [| bound IH]; intros data_size total;
    cbn [GifStream.skip_data_loop].
  - destruct (data_size =? 0); [apply uniform_ret | apply uniform_raise].
  - destruct (data_size =? 0); [apply uniform_ret |].
    uniform_auto; try apply IH.
Qed.

Lemma uniform_skip_data : uniform GifStream.skip_data.
Proof.
  intros w1 w2 H. unfold GifStream.skip_data.
  pose proof H as (_ & _ & L & _). rewrite L.
  apply (uniform_bind MmapCursor_next_byte
           (fun data_size =>
              GifStream.skip_data_loop (List.length (data (stream w2)))
                data_size data_size));
    [apply uniform_next_byte | | exact H].
  intros data_size. apply uniform_skip_data_loop.
Qed.

#[local] Hint Resolve uniform_check_blocktype
  uniform_consume_graphic_control_extension uniform_consume_image_descriptor
  uniform_consume_color_table uniform_skip_data : uniform.

Lemma uniform_skip_image_data : uniform GifStream.skip_image_data.
Proof. unfold GifStream.skip_image_data. uniform_auto. Qed.

Lemma uniform_skip_extension : uniform GifStream.skip_extension.
Proof. unfold GifStream.skip_extension. uniform_auto. Qed.

#[local] Hint Resolve uniform_skip_image_data uniform_skip_extension : uniform.

Lemma uniform_GifImage_init gc : uniform (GifImage.init gc).
Proof. unfold GifImage.init. uniform_auto. Qed.

#[local] Hint Resolve uniform_GifImage_init : uniform.

Lemma uniform_parse_blocks bound :
  forall gc images, uniform (Gif.parse_blocks bound gc images).
Proof.
  induction bound as [| bound IH]; intros gc images; cbn [Gif.parse_blocks].
  - apply uniform_raise.
  - uniform_auto; apply IH.
Qed.

Lemma alike_observation {A} (o1 o2 : outcome A) :
  alike_outcome o1 o2 -> observation o1 = observation o2.
Proof.
  destruct o1 as [a1 w1 | e1 w1], o2 as [a2 w2 | e2 w2]; cbn;
    try contradiction; intros (-> & _ & P & _ & C & O); congruence.
Qed.

(* ===================================================================== *)
(** ** Sub-block payload does not reach the result *)
(* ===================================================================== *)

Lemma same_size_chain_total chain1 chain2 :
  Forall2 same_size chain1 chain2 -> chain_total chain1 = chain_total chain2.
Proof.
  induction 1 as [| sb1 sb2 c1 c2 Hs _ IH]; [reflexivity |].
  change (chain_total (sb1 :: c1))
    with (byte_int (sb_size sb1) + chain_total c1).
  change (chain_total (sb2 :: c2))
    with (byte_int (sb_size sb2) + chain_total c2).
  unfold same_size in Hs. now rewrite Hs, IH.
Qed.

Lemma same_size_length_encode chain1 chain2 :
  Forall2 same_size chain1 chain2 ->
  Forall wf_subblock chain1 -> Forall wf_subblock chain2 ->
  List.length (encode_chain chain1) = List.length (encode_chain chain2).
Proof.
  induction 1 as [| sb1 sb2 c1 c2 Hs _ IH]; [reflexivity |].
  intros W1 W2.
  inversion W1 as [| ? ? [_ L1] W1']; inversion W2 as [| ? ? [_ L2] W2'];
    subst.
  rewrite !length_encode_chain_cons, L1, L2, (IH W1' W2').
  unfold same_size in Hs. now rewrite Hs.
Qed.

Lemma same_structure_dispatch b1 b2 state :
  same_structure b1 b2 -> wf_block b1 -> wf_block b2 ->
  dispatch b1 state = dispatch b2 state
  /\ List.length (encode_block b1) = List.length (encode_block b2).
Proof.
  intros [b | l0 l1 t0 t1 w0 w1 h0 h1 packed table lzw c1 c2 Hc
            | label c1 c2 Hc] W1 W2.
  - split; reflexivity.
  - destruct W1 as [_ W1], W2 as [_ W2]. split.
    + cbn [dispatch]. unfold decode_image.
      now rewrite (same_size_chain_total _ _ Hc).
    + rewrite !length_encode_Image.
      now rewrite (same_size_length_encode _ _ Hc W1 W2).
  - destruct W1 as [_ W1], W2 as [_ W2]. split; [reflexivity |].
    cbn [encode_block List.length].
    now rewrite (same_size_length_encode _ _ Hc W1 W2).
Qed.

Lemma same_structure_dispatch_all blocks1 blocks2 :
  Forall2 same_structure blocks1 blocks2 ->
  Forall wf_block blocks1 -> Forall wf_block blocks2 ->
  (forall state, dispatch_all blocks1 state = dispatch_all blocks2 state)
  /\ List.length (encode_blocks blocks1) = List.length (encode_blocks blocks2)
  /\ List.length blocks1 = List.length blocks2.
Proof.
  induction 1 as [| b1 b2 bs1 bs2 Hb _ IH]; intros W1 W2.
  - repeat split.
  - inversion W1 as [| ? ? Wb1 W1']; inversion W2 as [| ? ? Wb2 W2']; subst.
    destruct (IH W1' W2') as (IHd & IHl & IHn).
    split; [| split].
    + intros state. cbn [dispatch_all].
      destruct (same_structure_dispatch b1 b2 state Hb Wb1 Wb2) as [-> ->].
      destruct (dispatch b2 state) as [failure | state']; [reflexivity |].
      now rewrite IHd.
    + rewrite !encode_blocks_cons, !length_app, IHl.
      now destruct (same_structure_dispatch b1 b2 (None, []) Hb Wb1 Wb2)
        as [_ ->].
    + cbn. now rewrite IHn.
Qed.

Lemma length_blocks_le blocks :
  (List.length blocks <= List.length (encode_blocks blocks))%nat.
Proof.
  induction blocks as [| b blocks IH]; [cbn; lia |].
  rewrite encode_blocks_cons, length_app. cbn [List.length].
  assert (1 <= List.length (encode_block b))%nat
    by (destruct b; cbn [encode_block List.length app]; lia).
  lia.
Qed.

Lemma length_encode_layout f :
  List.length (encode_layout f) =
  (13 + List.length (lay_table f) + List.length (encode_blocks (lay_blocks f))
   + List.length (lay_tail f))%nat.
Proof.
  unfold encode_layout. rewrite !length_app.
  destruct (lay_version f); cbn [encode_version List.length]; lia.
Qed.

(** The loop on a laid-out stream, started with the bound that
    [__parse_metadata] gives it. *)
Lemma parse_blocks_layout f w0 w :
  wf_layout f ->
  List.length (data (stream w0)) = List.length (encode_layout f) ->
  remaining w = encode_blocks (lay_blocks f) ++ lay_tail f ->
  exists bound,
    Gif.parse_blocks (S (List.length (data (stream w0)))) None [] w =
    match dispatch_all (lay_blocks f) (None, []) with
    | inl (e, consumed) => Raise e (advance consumed w)
    | inr (gc', images') =>
        Gif.parse_blocks bound gc' images'
          (advance (List.length (encode_blocks (lay_blocks f))) w)
    end
    /\ bound = (S (List.length (data (stream w0)))
                - List.length (lay_blocks f))%nat.
Proof.
  intros [_ Hwf] Hlen H. eexists. split; [| reflexivity].
  pose proof (length_blocks_le (lay_blocks f)) as L.
  rewrite length_encode_layout in Hlen.
  rewrite <- (parse_blocks_run (lay_blocks f) (lay_tail f) _ None [] w Hwf H).
  f_equal. lia.
Qed.

Lemma after_preamble_twin f1 f2 :
  same_layout f1 f2 ->
  List.length (encode_layout f1) = List.length (encode_layout f2) ->
  let W1 := after_preamble f1 (world_of (encode_layout f1)) in
  let W2 := after_preamble f2 (world_of (encode_layout f2)) in
  position (stream W1) = position (stream W2)
  /\ List.length (data (stream W1)) = List.length (data (stream W2))
  /\ closed (stream W1) = closed (stream W2)
  /\ stdout W1 = stdout W2.
Proof.
  intros (_ & _ & _ & _ & _ & Ep & _ & _ & Et & _) L.
  unfold after_preamble. rewrite Ep, Et.
  destruct (Z.testbit (byte_int (lay_packed f2)) 7);
    cbn [advance say world_of MmapCursor_open stream position data closed
         stdout]; repeat split; exact L.
Qed.

Lemma same_layout_length f1 f2 :
  wf_layout f1 -> wf_layout f2 -> same_layout f1 f2 ->
  List.length (encode_layout f1) = List.length (encode_layout f2).
Proof.
  intros [_ W1] [_ W2] (_ & _ & _ & _ & _ & _ & _ & _ & Et & Eb & El).
  rewrite !length_encode_layout, Et, El.
  now destruct (same_structure_dispatch_all _ _ Eb W1 W2) as (_ & -> & _).
Qed.

(** C9.  Two streams laid out as GIF files that are the same except for
    the payload bytes inside the sub-block chains of their image and
    extension blocks (same size bytes at the same positions, same
    everything else, including whatever follows the blocks) have the
    same length and parse to the same observation: the same aggregate,
    with the same skipped-byte count in every frame, or the same
    exception, with the same output, the same final cursor position and
    the same state of the stream.  No payload byte is decoded or
    influences the result. *)
Theorem payload_does_not_reach_result (f1 f2 : layout) :
  wf_layout f1 -> wf_layout f2 -> same_layout f1 f2 ->
  List.length (encode_layout f1) = List.length (encode_layout f2)
  /\ observation (Gif.init (encode_layout f1))
     = observation (Gif.init (encode_layout f2)).
Proof.
  intros Hwf1 Hwf2 Hsame.
  pose proof (same_layout_length f1 f2 Hwf1 Hwf2 Hsame) as Hlen.
  split; [exact Hlen |].
  unfold Gif.init.
  set (w1 := world_of (encode_layout f1)).
  set (w2 := world_of (encode_layout f2)).
  rewrite (parse_metadata_run f1 w1 Hwf1 eq_refl).
  rewrite (parse_metadata_run f2 w2 Hwf2 eq_refl).
  pose proof (remaining_after_preamble f1 w1 Hwf1 eq_refl) as R1.
  pose proof (remaining_after_preamble f2 w2 Hwf2 eq_refl) as R2.
  pose proof (after_preamble_twin f1 f2 Hsame Hlen) as (TP & TL & TC & TO).
  fold w1 w2 in TP, TL, TC, TO.
  destruct (parse_blocks_layout f1 w1 _ Hwf1 eq_refl R1) as (b1 & -> & Eb1).
  destruct (parse_blocks_layout f2 w2 _ Hwf2 eq_refl R2) as (b2 & -> & Eb2).
  destruct Hsame as (Ev & Ew0 & Ew1 & Eh0 & Eh1 & Ep & Ebg & Ea & Et & Eb & El).
  destruct Hwf1 as [_ Hb1], Hwf2 as [_ Hb2].
  destruct (same_structure_dispatch_all _ _ Eb Hb1 Hb2) as (Ed & Ebl & En).
  assert (Escreen : screen_descriptor_of f1 = screen_descriptor_of f2)
    by (unfold screen_descriptor_of; congruence).
  assert (Ebound : b1 = b2).
  { subst b1 b2. cbn [w1 w2 world_of MmapCursor_open stream data].
    now rewrite Hlen, En. }
  rewrite Ed, Escreen, Ev, Ep, Et, Ebl, Ebound.
  destruct (dispatch_all (lay_blocks f2) (None, []))
    as [[e k] | [gc' images']].
  - cbn [observation advance stream position closed stdout].
    now rewrite TP, TC, TO.
  - set (u1 := advance _ (after_preamble f1 w1)).
    set (u2 := advance _ (after_preamble f2 w2)).
    assert (Hu : alike u1 u2).
    { subst u1 u2. unfold alike.
      rewrite <- Ebl at 1.
      rewrite (remaining_advance_app _ _ _ R1).
      rewrite (remaining_advance_app _ _ _ R2).
      cbn [advance stream position data closed stdout].
      repeat split; congruence. }
    pose proof (uniform_parse_blocks b2 gc' images' u1 u2 Hu) as U.
    destruct (Gif.parse_blocks b2 gc' images' u1) as [im1 v1 | e1 v1],
             (Gif.parse_blocks b2 gc' images' u2) as [im2 v2 | e2 v2];
      cbn in U; try contradiction;
      destruct U as [<- Hv]; apply alike_observation; cbn;
      split; [reflexivity | | reflexivity | exact Hv].
    now apply alike_release.
Qed.

Lemma payload_does_not_reach_result_witness :
  List.length (encode_layout (sample_layout x11 x12 x13 x14))
  = List.length (encode_layout (sample_layout xaa xbb xcc xdd))
  /\ observation (Gif.init (encode_layout (sample_layout x11 x12 x13 x14)))
     = observation (Gif.init (encode_layout (sample_layout xaa xbb xcc xdd))).
Proof.
  apply payload_does_not_reach_result.
  - split; [reflexivity |].
    repeat constructor; discriminate.
  - split; [reflexivity |].
    repeat constructor; discriminate.
  - repeat split; cbn [lay_blocks sample_layout].
    repeat first [ apply Forall2_cons | apply Forall2_nil
                 | apply same_block | apply same_Image | apply same_Extension
                 | reflexivity ].
Defined.

(* ===================================================================== *)
(** ** Two graphic control blocks for one image *)
(* ===================================================================== *)

Lemma parse_blocks_pending_control bound control images w w' :
  GifStream.check_blocktype w = Return EXT_GRAPHIC_CONTROL w' ->
  Gif.parse_blocks (S bound) (Some control) images w =
  Raise Exception_two_graphic_control_blocks w'.
Proof.
  intros E. cbn [Gif.parse_blocks]. unfold bind at 1. now rewrite E.
Qed.

Lemma dispatch_all_pending between second after :
  forall control images,
    Forall not_image between ->
    is_graphic_control second ->
    exists consumed,
      dispatch_all (between ++ second :: after) (Some control, images)
      = inl (Exception_two_graphic_control_blocks, consumed).
Proof.
  induction between as [| b between IH]; intros control images Hb Hs.
  - destruct second; try contradiction. cbn. eauto.
  - inversion Hb as [| ? ? Hn Hb']; subst.
    destruct b; try contradiction.
    + cbn. eauto.
    + cbn [app dispatch_all dispatch].
      destruct (IH control images Hb' Hs) as [k ->]. eauto.
Qed.

Lemma dispatch_all_doubled before first between second after :
  forall state,
    Forall disposal_defined (before ++ [first]) ->
    is_graphic_control first -> is_graphic_control second ->
    Forall not_image between ->
    exists consumed,
      dispatch_all (before ++ first :: between ++ second :: after) state
      = inl (Exception_two_graphic_control_blocks, consumed).
Proof.
  assert (Hone : forall packed d0 d1 tc,
             Z.land (Z.shiftr (byte_int packed) 2) 0x7 <= 3 ->
             exists control,
               decode_graphic_control packed d0 d1 tc = inr control).
  { intros packed d0 d1 tc Hc. unfold decode_graphic_control.
    pose proof (land_7_range (Z.shiftr (byte_int packed) 2)) as R.
    destruct (DisposalMethod_of_value_defined _ (conj (proj1 R) Hc))
      as [d ->]. eauto. }
  induction before as [| b before IH]; intros [gc images] Hd Hf Hs Hb.
  - cbn [app] in *. inversion Hd as [| ? ? Hd1 _]; subst.
    destruct first as [bs packed d0 d1 tc tm | |]; try contradiction.
    cbn [dispatch_all dispatch fst snd].
    destruct gc as [g |]; [eauto |].
    destruct (Hone packed d0 d1 tc Hd1) as [control ->].
    destruct (dispatch_all_pending between second after control images Hb Hs)
      as [k ->]. eauto.
  - cbn [app] in Hd. inversion Hd as [| ? ? Hd1 Hd']; subst.
    cbn [app dispatch_all].
    destruct b as [bs packed d0 d1 tc tm | |]; cbn [dispatch fst snd].
    + destruct gc as [g |]; [eauto |].
      destruct (Hone packed d0 d1 tc Hd1) as [control ->].
      destruct (IH (Some control, images) Hd' Hf Hs Hb) as [k ->]. eauto.
    + destruct (IH (None, images ++ [decode_image left_lo left_hi top_lo
                              top_hi width_lo width_hi height_lo height_hi
                              packed table chain gc]) Hd' Hf Hs Hb)
        as [k ->]. eauto.
    + destruct (IH (gc, images) Hd' Hf Hs Hb) as [k ->]. eauto.
Qed.

(** C4, as the claim states it, fails on a file whose first graphic
    control block carries a reserved disposal code: the decode of that
    block raises [ValueError] before the second block is looked at, so
    the parse does not end in the duplicate-control error. *)
Lemma reserved_code_precedes_duplicate_control :
  wf_layout reserved_control_layout
  /\ (exists b1 b2 rest,
        lay_blocks reserved_control_layout = b1 :: b2 :: rest
        /\ is_graphic_control b1 /\ is_graphic_control b2)
  /\ observation (Gif.init (encode_layout reserved_control_layout))
     = (inr (ValueError_DisposalMethod 4),
        ["warning: no global color table"%string], 21%nat, false).
Proof.
  split; [| split].
  - split; [reflexivity |]. repeat constructor; discriminate.
  - do 3 eexists. split; [reflexivity |]. split; exact I.
  - vm_compute. reflexivity.
Qed.

(** C4, as the code has it.  When the classifier reports a graphic
    control block while a pending graphic control value exists, the
    dispatch loop raises "Two graphic control blocks for one image!" at
    once, without decoding the block and without touching the pending
    value.  Hence a well-formed file in which two graphic control blocks
    occur with no image block between them fails with that error,
    provided the graphic control blocks up to the first of the two carry
    disposal codes 0-3, which the decode accepts; a reserved code there
    ends the parse earlier. *)
Theorem duplicate_graphic_control_raises
  (f : layout) (before between after : list block) (first second : block) :
  wf_layout f ->
  lay_blocks f = before ++ first :: between ++ second :: after ->
  is_graphic_control first -> is_graphic_control second ->
  Forall not_image between ->
  Forall disposal_defined (before ++ [first]) ->
  (exists w',
     Gif.init (encode_layout f)
     = Raise Exception_two_graphic_control_blocks w')
  /\ (forall bound control images w w',
        GifStream.check_blocktype w = Return EXT_GRAPHIC_CONTROL w' ->
        Gif.parse_blocks (S bound) (Some control) images w
        = Raise Exception_two_graphic_control_blocks w' /\ w' = w).
Proof.
  intros Hwf Hblocks Hf Hs Hb Hd. split.
  - unfold Gif.init. set (w := world_of (encode_layout f)).
    rewrite (parse_metadata_run f w Hwf eq_refl).
    pose proof (remaining_after_preamble f w Hwf eq_refl) as R.
    destruct (parse_blocks_layout f w _ Hwf eq_refl R) as (b & -> & _).
    rewrite Hblocks.
    destruct (dispatch_all_doubled before first between second after
                (None, []) Hd Hf Hs Hb) as [k ->].
    eauto.
  - intros bound control images w w' E.
    split; [now apply parse_blocks_pending_control |].
    pose proof (check_blocktype_world w) as W. now rewrite E in W.
Qed.

Lemma duplicate_graphic_control_raises_witness :
  (exists w',
     Gif.init (encode_layout doubled_control_layout)
     = Raise Exception_two_graphic_control_blocks w')
  /\ (forall bound control images w w',
        GifStream.check_blocktype w = Return EXT_GRAPHIC_CONTROL w' ->
        Gif.parse_blocks (S bound) (Some control) images w
        = Raise Exception_two_graphic_control_blocks w' /\ w' = w).
Proof.
  apply (duplicate_graphic_control_raises doubled_control_layout
           []
           [Extension xfe [ {| sb_size := x02; sb_data := [x41; x42] |} ]]
           [Image x01 x00 x02 x00 x03 x00 x04 x00 x00 [] x02
              [ {| sb_size := x01; sb_data := [x14] |} ]]
           (GraphicControl x04 x09 x32 x00 x07 x00)
           (GraphicControl x04 x04 x0a x00 x00 x00)).
  - split; [reflexivity |]. repeat constructor; discriminate.
  - reflexivity.
  - exact I.
  - exact I.
  - repeat constructor.
  - repeat constructor. vm_compute. discriminate.
Defined.

(* ===================================================================== *)
(** ** The header *)
(* ===================================================================== *)

Lemma bind_Raise_inv {A B} (c : M A) (k : A -> M B) w e w' :
  bind c k w = Raise e w' ->
  c w = Raise e w'
  \/ exists a w1, c w = Return a w1 /\ k a w1 = Raise e w'.
Proof.
  unfold bind. destruct (c w) as [a w1 | e1 w1]; intros E.
  - right. exists a, w1. split; [reflexivity | exact E].
  - left. now injection E as -> ->.
Qed.

Lemma next_ascii_cases n w :
  MmapCursor_next_ascii n w =
  if (List.length (remaining w) <? n)%nat
  then Raise (ShortRead n (List.length (remaining w))) w
  else match decode_ascii (firstn n (remaining w)) with
       | inl bad => Raise (UnicodeDecodeError bad) (advance n w)
       | inr s => Return s (advance n w)
       end.
Proof.
  unfold MmapCursor_next_ascii, bind, MmapCursor_next.
  destruct (_ <? _)%nat; [reflexivity |].
  destruct (decode_ascii _); reflexivity.
Qed.

(** The bytes of an ASCII text are determined by the text. *)
Lemma decode_ascii_inv bs :
  forall s, decode_ascii bs = inr s ->
            bs = map byte_of_ascii (list_ascii_of_string s).
Proof.
  induction bs as [| b bs IH]; intros s E; cbn [decode_ascii] in E.
  - now injection E as <-.
  - destruct (127 <? byte_int b); [discriminate |].
    destruct (decode_ascii bs) as [bad | t]; [discriminate |].
    injection E as <-. cbn [list_ascii_of_string map].
    now rewrite byte_of_ascii_of_byte, <- (IH t eq_refl).
Qed.

Lemma firstn_3_3 {A} (l : list A) :
  l = firstn 3 l ++ firstn 3 (skipn 3 l) ++ skipn 6 l.
Proof.
  rewrite <- (firstn_skipn 3 l) at 1. f_equal.
  rewrite <- (firstn_skipn 3 (skipn 3 l)) at 1. f_equal.
  now rewrite skipn_skipn.
Qed.

(** The six bytes of a header that [consume_header] has accepted. *)
Lemma consume_header_Return_inv w v w' :
  GifStream.consume_header w = Return v w' ->
  exists rest, remaining w = encode_version v ++ rest.
Proof.
  unfold GifStream.consume_header. intros E.
  apply bind_Return_inv in E as (sig & w1 & E1 & E).
  rewrite next_ascii_cases in E1.
  destruct (_ <? _)%nat; [discriminate |].
  destruct (decode_ascii (firstn 3 (remaining w))) as [bad | s] eqn:D1;
    [discriminate |].
  injection E1 as <- <-.
  destruct (String.eqb_spec s "GIF") as [-> |]; [| discriminate].
  cbn [negb] in E.
  apply bind_Return_inv in E as (ver & w2 & E2 & E).
  rewrite next_ascii_cases, remaining_advance in E2.
  destruct (_ <? _)%nat; [discriminate |].
  destruct (decode_ascii (firstn 3 (skipn 3 (remaining w)))) as [bad | t] eqn:D2;
    [discriminate |].
  injection E2 as <- <-.
  apply decode_ascii_inv in D1, D2.
  exists (skipn 6 (remaining w)).
  rewrite (firstn_3_3 (remaining w)) at 1. rewrite D1, D2.
  unfold VALID_GIF_REVS, GIF_87a, GIF_89a, GifStream.version_of_rev in E.
  cbn [existsb] in E.
  destruct (String.eqb_spec t "87a") as [-> |].
  - injection E as <- _. reflexivity.
  - destruct (String.eqb_spec t "89a") as [-> |]; [| discriminate].
    injection E as <- _. reflexivity.
Qed.

(** X1.  [consume_header] returns a version exactly when the six bytes
    ahead are the ASCII text of that version, [GIF87a] or [GIF89a], as
    [GifVersion.__str__] prints it, and it then leaves the cursor six
    bytes further. *)
Theorem header_accepts_exactly_two_versions (w : world) (v : GifVersion)
  (w' : world) :
  (GifStream.consume_header w = Return v w'
   <-> (exists rest, remaining w = encode_version v ++ rest)
       /\ w' = advance 6 w)
  /\ decode_ascii (encode_version v) = inr (GifVersion_str v).
Proof.
  split; [| now destruct v].
  split.
  - intros E. destruct (consume_header_Return_inv _ _ _ E) as [rest H].
    split; [now exists rest |].
    rewrite (consume_header_run _ _ _ H) in E. now injection E.
  - intros [[rest H] ->]. apply (consume_header_run _ _ _ H).
Qed.

Lemma header_accepts_exactly_two_versions_witness :
  let w := world_of (["G"; "I"; "F"; "8"; "7"; "a"; x01; x00]%byte) in
  GifStream.consume_header w = Return GIF87a (advance 6 w)
  /\ decode_ascii (encode_version GIF87a) = inr "GIF87a"%string.
Proof.
  intros w. split.
  - apply (proj1 (header_accepts_exactly_two_versions w GIF87a (advance 6 w))).
    split; [now exists [x01; x00] | reflexivity].
  - exact (proj2 (header_accepts_exactly_two_versions w GIF87a w)).
Defined.






(* ===================================================================== *)
(** ** The fixed-size blocks: fields, ranges and failures *)
(* ===================================================================== *)

Lemma int_from_bytes_little_2 b0 b1 :
  int_from_bytes_little [b0; b1] = byte_int b0 + 256 * byte_int b1
  /\ 0 <= int_from_bytes_little [b0; b1] <= 65535.
Proof.
  cbn [int_from_bytes_little].
  pose proof (byte_int_range b0). pose proof (byte_int_range b1). lia.
Qed.

Lemma consume_screen_descriptor_run w0 w1 h0 h1 packed bg aspect r w :
  remaining w = w0 :: w1 :: h0 :: h1 :: packed :: bg :: aspect :: r ->
  GifStream.consume_screen_descriptor w =
  Return
    {| LogicalScreenDescriptor.width := int_from_bytes_little [w0; w1];
       LogicalScreenDescriptor.height := int_from_bytes_little [h0; h1];
       LogicalScreenDescriptor.colortable_exists :=
         Z.testbit (byte_int packed) 7;
       LogicalScreenDescriptor.color_resolution :=
         Z.land (Z.shiftr (byte_int packed) 4) 0x7;
       LogicalScreenDescriptor.colortable_is_sorted :=
         Z.testbit (byte_int packed) 3;
       LogicalScreenDescriptor.colortable_size := Z.land (byte_int packed) 0x7;
       LogicalScreenDescriptor.background_color_index := byte_int bg;
       LogicalScreenDescriptor.pixel_aspect_ratio := byte_int aspect |}
    (advance 7 w).
Proof.
  intros H. unfold GifStream.consume_screen_descriptor.
  cursor_run H. rewrite ?int_from_bytes_little_1.
  now rewrite !shift_mask_testbit by lia.
Qed.

(** X3.  [consume_screen_descriptor] reads exactly seven bytes.  Width
    and height are the little-endian values of their two bytes, within
    0-65535; the four fields of the packed byte make up the whole byte
    (bits 0-2 the size code, bit 3 the sorted flag, bits 4-6 the color
    resolution, bit 7 the table flag), so [num_colors] is between 2 and
    256; with fewer than seven bytes left the decode fails with the
    short read of the cursor and with nothing else. *)
Theorem screen_descriptor_fields (w : world) :
  (forall w0 w1 h0 h1 packed bg aspect rest,
     remaining w = w0 :: w1 :: h0 :: h1 :: packed :: bg :: aspect :: rest ->
     exists lsd,
       GifStream.consume_screen_descriptor w = Return lsd (advance 7 w)
       /\ LogicalScreenDescriptor.width lsd
          = byte_int w0 + 256 * byte_int w1
       /\ 0 <= LogicalScreenDescriptor.width lsd <= 65535
       /\ LogicalScreenDescriptor.height lsd
          = byte_int h0 + 256 * byte_int h1
       /\ 0 <= LogicalScreenDescriptor.height lsd <= 65535
       /\ byte_int packed
          = LogicalScreenDescriptor.colortable_size lsd
            + 8 * Z.b2z (LogicalScreenDescriptor.colortable_is_sorted lsd)
            + 16 * LogicalScreenDescriptor.color_resolution lsd
            + 128 * Z.b2z (LogicalScreenDescriptor.colortable_exists lsd)
       /\ 0 <= LogicalScreenDescriptor.colortable_size lsd <= 7
       /\ 0 <= LogicalScreenDescriptor.color_resolution lsd <= 7
       /\ 2 <= LogicalScreenDescriptor.num_colors lsd <= 256
       /\ LogicalScreenDescriptor.background_color_index lsd = byte_int bg
       /\ LogicalScreenDescriptor.pixel_aspect_ratio lsd = byte_int aspect)
  /\ ((List.length (remaining w) < 7)%nat ->
      exists wanted available w',
        GifStream.consume_screen_descriptor w
        = Raise (ShortRead wanted available) w'
        /\ (available < wanted)%nat).
Proof.
  split.
  - intros w0 w1 h0 h1 packed bg aspect rest H.
    eexists. split; [apply (consume_screen_descriptor_run _ _ _ _ _ _ _ _ _ H) |].
    unfold LogicalScreenDescriptor.num_colors.
    cbn [LogicalScreenDescriptor.width LogicalScreenDescriptor.height
         LogicalScreenDescriptor.colortable_exists
         LogicalScreenDescriptor.color_resolution
         LogicalScreenDescriptor.colortable_is_sorted
         LogicalScreenDescriptor.colortable_size
         LogicalScreenDescriptor.background_color_index
         LogicalScreenDescriptor.pixel_aspect_ratio].
    destruct (int_from_bytes_little_2 w0 w1) as [-> Rw].
    destruct (int_from_bytes_little_2 h0 h1) as [-> Rh].
    repeat split; try lia; try apply land_7_range;
      destruct packed; vm_compute; congruence.
  - intros L. unfold GifStream.consume_screen_descriptor.
    destruct (remaining w)
      as [| b0 [| b1 [| b2 [| b3 [| b4 [| b5 [| b6 r]]]]]]] eqn:H;
      try (cbn in L; lia);
      cursor_run H; do 3 eexists; (split; [reflexivity | lia]).
Qed.

Lemma screen_descriptor_fields_witness :
  let w := world_of [x0a; x00; x14; x01; xf7; x05; x31; x3b] in
  (exists lsd,
     GifStream.consume_screen_descriptor w = Return lsd (advance 7 w)
     /\ LogicalScreenDescriptor.width lsd = 10
     /\ LogicalScreenDescriptor.height lsd = 276
     /\ LogicalScreenDescriptor.num_colors lsd = 256)
  /\ exists wanted available w',
       GifStream.consume_screen_descriptor (world_of [x0a; x00; x14])
       = Raise (ShortRead wanted available) w'
       /\ (available < wanted)%nat.
Proof.
  intros w. split.
  - destruct (proj1 (screen_descriptor_fields w)
                x0a x00 x14 x01 xf7 x05 x31 [x3b] eq_refl)
      as (lsd & E & Ew & _ & Eh & _ & _ & _ & _ & _ & _).
    exists lsd. split; [exact E |]. 
    injection E as <-. repeat split.
  - apply (proj2 (screen_descriptor_fields (world_of [x0a; x00; x14]))).
    cbn. lia.
Defined.

(** X4.  [consume_image_descriptor] checks the separator first: a first
    byte other than 0x2C raises "bad separator" with that byte, one byte
    in.  After the separator it reads nine more bytes: the four
    coordinates are the little-endian values of their byte pairs, within
    0-65535, and the size code is within 0-7.  With the separator in
    place and fewer than ten bytes left, or with no byte left at all,
    the decode fails with the short read of the cursor. *)
Theorem image_descriptor_decode (w : world) :
  (forall b rest,
     remaining w = b :: rest -> byte_int b <> 0x2C ->
     GifStream.consume_image_descriptor w
     = Raise (GifStreamException (Bad_separator (byte_int b))) (advance 1 w))
  /\ (forall l0 l1 t0 t1 w0 w1 h0 h1 packed rest,
        remaining w = x2c :: l0 :: l1 :: t0 :: t1 :: w0 :: w1 :: h0 :: h1
                        :: packed :: rest ->
        exists desc,
          GifStream.consume_image_descriptor w = Return desc (advance 10 w)
          /\ ImageDescriptor.leftpos desc = byte_int l0 + 256 * byte_int l1
          /\ ImageDescriptor.toppos desc = byte_int t0 + 256 * byte_int t1
          /\ ImageDescriptor.width desc = byte_int w0 + 256 * byte_int w1
          /\ ImageDescriptor.height desc = byte_int h0 + 256 * byte_int h1
          /\ 0 <= ImageDescriptor.leftpos desc <= 65535
          /\ 0 <= ImageDescriptor.toppos desc <= 65535
          /\ 0 <= ImageDescriptor.width desc <= 65535
          /\ 0 <= ImageDescriptor.height desc <= 65535
          /\ 0 <= ImageDescriptor.colortable_size desc <= 7
          /\ 2 <= ImageDescriptor.num_colors desc <= 256)
  /\ ((List.length (remaining w) < 10)%nat ->
      (forall b rest, remaining w = b :: rest -> byte_int b = 0x2C) ->
      exists wanted available w',
        GifStream.consume_image_descriptor w
        = Raise (ShortRead wanted available) w'
        /\ (available < wanted)%nat).
Proof.
  split; [| split].
  - intros b rest H Hb. unfold GifStream.consume_image_descriptor.
    cursor_run H. rewrite int_from_bytes_little_1.
    apply Z.eqb_neq in Hb. unfold IMAGE_SEPARATOR. now rewrite Hb.
  - intros l0 l1 t0 t1 w0 w1 h0 h1 packed rest H.
    eexists.
    split; [apply (consume_image_descriptor_run _ _ _ _ _ _ _ _ _ _ _ H) |].
    unfold ImageDescriptor.num_colors.
    cbn [ImageDescriptor.leftpos ImageDescriptor.toppos ImageDescriptor.width
         ImageDescriptor.height ImageDescriptor.colortable_size].
    destruct (int_from_bytes_little_2 l0 l1) as [-> ?].
    destruct (int_from_bytes_little_2 t0 t1) as [-> ?].
    destruct (int_from_bytes_little_2 w0 w1) as [-> ?].
    destruct (int_from_bytes_little_2 h0 h1) as [-> ?].
    repeat split; try lia; try apply land_7_range;
      destruct packed; vm_compute; congruence.
  - intros L Hsep. unfold GifStream.consume_image_descriptor.
    destruct (remaining w) as [| b0 r0] eqn:H.
    + cursor_run H. do 3 eexists. split; [reflexivity | lia].
    + specialize (Hsep b0 r0 eq_refl).
      destruct r0 as [| b1 [| b2 [| b3 [| b4 [| b5 [| b6 [| b7 [| b8 [| b9 r]]]]]]]]];
        try (cbn in L; lia);
        cursor_run H; rewrite ?int_from_bytes_little_1;
        unfold IMAGE_SEPARATOR; rewrite Hsep; cursor_run H;
        do 3 eexists; (split; [reflexivity | lia]).
Qed.

Lemma image_descriptor_decode_witness :
  GifStream.consume_image_descriptor (world_of [x21; xf9])
  = Raise (GifStreamException (Bad_separator 0x21))
      (advance 1 (world_of [x21; xf9]))
  /\ (exists desc,
        GifStream.consume_image_descriptor
          (world_of [x2c; x01; x00; x02; x00; x03; x01; x04; x00; x00])
        = Return desc
            (advance 10
               (world_of [x2c; x01; x00; x02; x00; x03; x01; x04; x00; x00]))
        /\ ImageDescriptor.width desc = 259)
  /\ exists wanted available w',
       GifStream.consume_image_descriptor (world_of [x2c; x01; x00])
       = Raise (ShortRead wanted available) w'
       /\ (available < wanted)%nat.
Proof.
  split; [| split].
  - apply (proj1 (image_descriptor_decode (world_of [x21; xf9]))
             x21 [xf9] eq_refl).
    vm_compute. discriminate.
  - destruct (proj1 (proj2 (image_descriptor_decode
                (world_of [x2c; x01; x00; x02; x00; x03; x01; x04; x00; x00])))
                x01 x00 x02 x00 x03 x01 x04 x00 x00 [] eq_refl)
      as (desc & E & _ & _ & Ew & _).
    exists desc. split; [exact E | exact Ew].
  - apply (proj2 (proj2 (image_descriptor_decode (world_of [x2c; x01; x00])))).
    + cbn. lia.
    + intros b rest [= <- _]. reflexivity.
Defined.

(** X5.  [consume_graphic_control_extension] checks its two signature
    bytes first: anything other than 0x21 0xF9 raises "Bad signature",
    two bytes in.  Of the eight bytes of a block, the block size byte
    and the terminator are skipped unread: the result is a function of
    the packed byte, the delay bytes and the transparent index alone.
    In the result, the delay is the little-endian value of its two
    bytes, within 0-65535, [delay_ms] is ten times the delay, and the
    low five bits of the packed byte are the transparency flag, the user
    input flag and the disposal method; bits 5-7 are dropped. *)
Theorem graphic_control_decode (w : world) :
  (forall b0 b1 rest,
     remaining w = b0 :: b1 :: rest ->
     byte_int b0 <> 0x21 \/ byte_int b1 <> 0xF9 ->
     GifStream.consume_graphic_control_extension w
     = Raise (GifStreamException Bad_graphic_control_signature) (advance 2 w))
  /\ (forall block_size packed delay_lo delay_hi transparent terminator rest,
        remaining w
        = encode_block (GraphicControl block_size packed delay_lo delay_hi
                          transparent terminator) ++ rest ->
        GifStream.consume_graphic_control_extension w
        = match decode_graphic_control packed delay_lo delay_hi
                  transparent with
          | inl e => Raise e (advance 8 w)
          | inr ext => Return ext (advance 8 w)
          end
        /\ forall ext,
             decode_graphic_control packed delay_lo delay_hi transparent
             = inr ext ->
             GraphicControlExtension.delay ext
             = byte_int delay_lo + 256 * byte_int delay_hi
             /\ 0 <= GraphicControlExtension.delay ext <= 65535
             /\ GraphicControlExtension.delay_ms ext
                = 10 * GraphicControlExtension.delay ext
             /\ GraphicControlExtension.transparent_color ext
                = byte_int transparent
             /\ Z.land (byte_int packed) 0x1F
                = Z.b2z (GraphicControlExtension.transparent_flag ext)
                  + 2 * Z.b2z (GraphicControlExtension.user_input_flag ext)
                  + 4 * DisposalMethod_value
                          (GraphicControlExtension.disposal_method ext)).
Proof.
  split.
  - intros b0 b1 rest H Hne.
    unfold GifStream.consume_graphic_control_extension.
    cursor_run H. cbn [map].
    destruct (list_eq_dec _ _ _) as [E | _]; [| reflexivity].
    exfalso. injection E as E0 E1.
    unfold EXT_INTRODUCER, EXT_GRAPHIC_CONTROL_LABEL in *. tauto.
  - intros bs packed d0 d1 tc term rest H. split.
    + rewrite (consume_graphic_control_extension_run _ _ _ _ _ _ _ _ H).
      unfold decode_graphic_control.
      destruct (DisposalMethod_of_value _); reflexivity.
    + intros ext E. unfold decode_graphic_control in E.
      destruct (int_from_bytes_little_2 d0 d1) as [Ed Rd].
      remember (int_from_bytes_little [d0; d1]) as dl eqn:Hdl.
      destruct (DisposalMethod_of_value _) as [d |] eqn:D; [| discriminate].
      injection E as <-.
      apply DisposalMethod_of_value_Some in D.
      unfold GraphicControlExtension.delay_ms.
      cbn [GraphicControlExtension.delay
           GraphicControlExtension.transparent_color
           GraphicControlExtension.transparent_flag
           GraphicControlExtension.user_input_flag
           GraphicControlExtension.disposal_method].
      rewrite D. repeat split; try lia.
      destruct packed; vm_compute; congruence.
Qed.

Lemma graphic_control_decode_witness :
  let w := world_of [x21; xf9; x04; xe9; x32; x00; x07; x00; x3b] in
  GifStream.consume_graphic_control_extension (world_of [x21; xfe; x00])
  = Raise (GifStreamException Bad_graphic_control_signature)
      (advance 2 (world_of [x21; xfe; x00]))
  /\ exists ext,
       GifStream.consume_graphic_control_extension w = Return ext (advance 8 w)
       /\ GraphicControlExtension.delay_ms ext = 500.
Proof.
  intros w. split.
  - apply (proj1 (graphic_control_decode (world_of [x21; xfe; x00]))
             x21 xfe [x00] eq_refl).
    right. vm_compute. discriminate.
  - destruct (proj2 (graphic_control_decode w)
                x04 xe9 x32 x00 x07 x00 [x3b] eq_refl) as [E F].
    eexists. split; [exact E |].
    destruct (F _ eq_refl) as (_ & _ & Ems & _). exact Ems.
Defined.

(* ===================================================================== *)
(** ** [skip_data]: what a return and what a failure mean *)
(* ===================================================================== *)

Lemma next_byte_Return_inv w z w' :
  MmapCursor_next_byte w = Return z w' ->
  exists b, remaining w = b :: remaining w'
            /\ z = byte_int b /\ w' = advance 1 w.
Proof.
  unfold MmapCursor_next_byte. intros E.
  apply bind_Return_inv in E as (bs & w1 & E1 & E2).
  apply next_Return_inv in E1 as (-> & -> & L).
  injection E2 as <- <-. rewrite remaining_advance.
  destruct (remaining w) as [| b rest]; [cbn in L; lia |].
  exists b. cbn [firstn skipn]. now rewrite int_from_bytes_little_1.
Qed.

Lemma next_byte_Raise_inv w e w' :
  MmapCursor_next_byte w = Raise e w' ->
  e = ShortRead 1 0 /\ w' = w /\ remaining w = [].
Proof.
  unfold MmapCursor_next_byte, bind, MmapCursor_next.
  destruct (remaining w) as [| b rest]; cbn; [| discriminate].
  intros [= <- <-]. auto.
Qed.

Lemma byte_int_zero b : byte_int b = 0 -> b = x00.
Proof. intros E. now apply byte_int_inj. Qed.

(** The loop of [skip_data], entered after the size byte [b] has been
    read: a return means that [b] and the bytes ahead begin with a
    well-formed chain. *)
Lemma skip_data_loop_Return_inv bound :
  forall b total w n w',
    GifStream.skip_data_loop bound (byte_int b) total w = Return n w' ->
    exists chain,
      Forall wf_subblock chain
      /\ b :: remaining w = encode_chain chain ++ remaining w'
      /\ n = total + chain_total chain - byte_int b
      /\ w' = advance (List.length (encode_chain chain) - 1) w.
Proof.
  induction bound as [| bound IH]; intros b total w n w' E;
    cbn [GifStream.skip_data_loop] in E;
    destruct (Z.eqb_spec (byte_int b) 0) as [Z0 | NZ].
  1, 3: injection E as <- <-; apply byte_int_zero in Z0; subst b;
        exists []; cbn; rewrite advance_0; repeat split;
        [constructor | lia].
  - discriminate.
  - apply bind_Return_inv in E as (u & w1 & E1 & E).
    rewrite position_add_here in E1. injection E1 as _ <-.
    apply bind_Return_inv in E as (z & w2 & E2 & E).
    apply next_byte_Return_inv in E2 as (b' & R & -> & ->).
    rewrite remaining_advance in R.
    apply IH in E as (chain & Hwf & Hrem & Hn & Hw).
    rewrite byte_int_to_nat in *.
    assert (Hlen : List.length (firstn (Byte.to_nat b) (remaining w))
                   = Byte.to_nat b).
    { apply firstn_length_le.
      assert (L : (0 < List.length (skipn (Byte.to_nat b) (remaining w)))%nat)
        by (rewrite R; cbn; lia).
      rewrite length_skipn in L. lia. }
    exists ({| sb_size := b;
               sb_data := firstn (Byte.to_nat b) (remaining w) |} :: chain).
    split; [| split; [| split]].
    + constructor; [| exact Hwf]. split; [| exact Hlen].
      cbn [sb_size]. intros ->. now apply NZ.
    + rewrite encode_chain_cons. cbn [sb_size sb_data app]. f_equal.
      rewrite <- app_assoc, <- Hrem, <- R. symmetry. apply firstn_skipn.
    + change (chain_total (_ :: chain))
        with (byte_int b + chain_total chain). lia.
    + rewrite Hw, !advance_advance, length_encode_chain_cons.
      cbn [sb_data]. rewrite Hlen. f_equal.
      pose proof (length_encode_chain_lower chain). lia.
Qed.

(** X6.  The converse of the skip over a chain: whenever [skip_data]
    returns, the bytes it has passed over are a well-formed chain of
    sub-blocks ending in the zero size byte, the number it returns is
    the sum of the size bytes of that chain, and the cursor is on the
    byte after the terminator. *)
Theorem skip_data_returns_over_a_chain (w : world) (n : Z) (w' : world) :
  GifStream.skip_data w = Return n w' ->
  exists chain,
    Forall wf_subblock chain
    /\ remaining w = encode_chain chain ++ remaining w'
    /\ n = chain_total chain
    /\ w' = advance (List.length (encode_chain chain)) w.
Proof.
  unfold GifStream.skip_data. intros E.
  apply bind_Return_inv in E as (z & w1 & E1 & E).
  apply next_byte_Return_inv in E1 as (b & R & -> & ->).
  apply skip_data_loop_Return_inv in E as (chain & Hwf & Hrem & Hn & Hw).
  exists chain. split; [exact Hwf |]. split; [now rewrite R |].
  split; [lia |].
  rewrite Hw, advance_advance. f_equal.
  pose proof (length_encode_chain_lower chain). lia.
Qed.

Lemma skip_data_returns_over_a_chain_witness :
  let w := world_of [x02; x41; x42; x01; x43; x00; x3b] in
  exists chain,
    Forall wf_subblock chain
    /\ remaining w = encode_chain chain ++ remaining (advance 6 w)
    /\ 3 = chain_total chain
    /\ advance 6 w = advance (List.length (encode_chain chain)) w.
Proof.
  intros w.
  apply (skip_data_returns_over_a_chain w 3 (advance 6 w)).
  vm_compute. reflexivity.
Defined.

Lemma skip_data_loop_Raise_inv bound :
  forall data_size total w e w',
    (List.length (remaining w) < bound)%nat ->
    GifStream.skip_data_loop bound data_size total w = Raise e w' ->
    e = ShortRead 1 0 /\ remaining w' = []
    /\ data (stream w') = data (stream w).
Proof.
  induction bound as [| bound IH]; intros ds total w e w' Hb E; [lia |].
  cbn [GifStream.skip_data_loop] in E.
  destruct (ds =? 0); [discriminate |].
  apply bind_Raise_inv in E as [E | (u & w1 & E1 & E)];
    [rewrite position_add_here in E; discriminate |].
  rewrite position_add_here in E1. injection E1 as _ <-.
  pose proof (steady_advance (Z.to_nat ds) w) as (L1 & _ & _).
  apply bind_Raise_inv in E as [E | (z & w2 & E2 & E)].
  - apply next_byte_Raise_inv in E as (-> & -> & R). auto.
  - pose proof (next_byte_eats _ _ _ E2) as L2.
    apply next_byte_Return_inv in E2 as (_ & _ & _ & ->).
    apply IH in E; [| lia]. exact E.
Qed.

Lemma skip_data_Raise_inv w e w' :
  GifStream.skip_data w = Raise e w' ->
  e = ShortRead 1 0 /\ remaining w' = []
  /\ data (stream w') = data (stream w).
Proof.
  unfold GifStream.skip_data. intros E.
  apply bind_Raise_inv in E as [E | (z & w1 & E1 & E)].
  - apply next_byte_Raise_inv in E as (-> & -> & R). auto.
  - pose proof (next_byte_eats _ _ _ E1) as L.
    apply next_byte_Return_inv in E1 as (_ & _ & _ & ->).
    apply skip_data_loop_Raise_inv in E as (-> & R & D); [auto |].
    pose proof (length_remaining_le w). lia.
Qed.

(** X7.  The one way in which [skip_data] fails: the read of a size byte
    at the end of the mapping.  When it raises, the exception is the
    short read of one byte with none available, and the cursor is at or
    past the end: a chain that lacks its zero terminator is never
    accepted and never loops. *)
Theorem skip_data_fails_at_the_end (w : world) (e : exn) (w' : world) :
  GifStream.skip_data w = Raise e w' ->
  e = ShortRead 1 0
  /\ remaining w' = []
  /\ (List.length (data (stream w)) <= position (stream w'))%nat.
Proof.
  intros E. apply skip_data_Raise_inv in E as (-> & R & D).
  split; [reflexivity |]. split; [exact R |].
  rewrite <- D. unfold remaining in R.
  apply (f_equal (@List.length byte)) in R.
  rewrite length_skipn in R. cbn in R. lia.
Qed.

Lemma skip_data_fails_at_the_end_witness :
  let w := world_of [x02; x41; x42] in
  let w' := advance 3 w in
  ShortRead 1 0 = ShortRead 1 0
  /\ remaining w' = []
  /\ (List.length (data (stream w)) <= position (stream w'))%nat.
Proof.
  intros w w'.
  apply (skip_data_fails_at_the_end w (ShortRead 1 0) w').
  vm_compute. reflexivity.
Defined.

(* ===================================================================== *)
(** ** What a parse prints and where it stops *)
(* ===================================================================== *)

(** A computation that prints nothing, however it ends. *)
Lemma quiet_bind {A B} (c : M A) (k : A -> M B) :
  quiet c -> (forall a, quiet (k a)) -> quiet (bind c k).
Proof.
  intros Hc Hk w. unfold bind. specialize (Hc w).
  destruct (c w) as [a w1 | e w1]; cbn in *; [| exact Hc].
  now rewrite Hk.
Qed.

Lemma quiet_ret {A} (a : A) : quiet (ret a).
Proof. intros w. reflexivity. Qed.

Lemma quiet_raise {A} e : quiet (@raise A e).
Proof. intros w. reflexivity. Qed.

Lemma quiet_next n : quiet (MmapCursor_next n).
Proof. intros w. unfold MmapCursor_next. now destruct (_ <? _)%nat. Qed.

Lemma quiet_read n : quiet (MmapCursor_read n).
Proof. intros w. reflexivity. Qed.

Lemma quiet_position_add z : quiet (MmapCursor_position_add z).
Proof. intros w. reflexivity. Qed.

Lemma quiet_bytes_index bs i : quiet (bytes_index bs i).
Proof. unfold bytes_index. now destruct (nth_error bs i). Qed.

Ltac quiet_step :=
  match goal with
  | |- quiet (bind _ _) => apply quiet_bind; [| intros ?]
  | |- quiet (ret _) => apply quiet_ret
  | |- quiet (raise _) => apply quiet_raise
  | |- quiet (MmapCursor_next _) => apply quiet_next
  | |- quiet (MmapCursor_read _) => apply quiet_read
  | |- quiet (MmapCursor_position_add _) => apply quiet_position_add
  | |- quiet (bytes_index _ _) => apply quiet_bytes_index
  | |- quiet (if ?c then _ else _) => destruct c
  | |- quiet (match ?x with _ => _ end) => destruct x
  | H : quiet ?c |- quiet ?c => exact H
  end.

Create HintDb quiet.

Ltac quiet_auto :=
  unfold MmapCursor_next_byte, MmapCursor_next_int, MmapCursor_next_ascii;
  repeat first [ quiet_step | solve [auto with quiet] ].

Lemma quiet_consume_header : quiet GifStream.consume_header.
Proof.
  unfold GifStream.consume_header, GifStream.version_of_rev. quiet_auto.
Qed.

Lemma quiet_consume_screen_descriptor :
  quiet GifStream.consume_screen_descriptor.
Proof. unfold GifStream.consume_screen_descriptor. quiet_auto. Qed.

Lemma quiet_consume_color_table_loop n :
  forall acc, quiet (GifStream.consume_color_table_loop n acc).
Proof.
  induction n as [| n IH]; intros acc; cbn [GifStream.consume_color_table_loop].
  - apply quiet_ret.
  - apply quiet_bind; [apply quiet_next |]. intros rgb.
    destruct rgb as [| r [| g [| b [| ? ?]]]]; try apply quiet_raise.
    apply IH.
Qed.

Lemma quiet_consume_color_table z : quiet (GifStream.consume_color_table z).
Proof. apply quiet_consume_color_table_loop. Qed.

Lemma quiet_skip_data_loop bound :
  forall data_size total, quiet (GifStream.skip_data_loop bound data_size total).
Proof.
  induction bound as [| bound IH]; intros data_size total;
    cbn [GifStream.skip_data_loop];
    (destruct (data_size =? 0); [apply quiet_ret |]).
  - apply quiet_raise.
  - quiet_auto; try apply IH.
Qed.

Lemma quiet_skip_data : quiet GifStream.skip_data.
Proof.
  intros w. unfold GifStream.skip_data.
  apply (quiet_bind MmapCursor_next_byte
           (fun data_size =>
              GifStream.skip_data_loop (List.length (data (stream w)))
                data_size data_size)).
  - quiet_auto.
  - intros data_size. apply quiet_skip_data_loop.
Qed.

#[local] Hint Resolve quiet_consume_color_table quiet_skip_data : quiet.

Lemma quiet_check_blocktype : quiet GifStream.check_blocktype.
Proof. unfold GifStream.check_blocktype. quiet_auto. Qed.

Lemma quiet_consume_graphic_control_extension :
  quiet GifStream.consume_graphic_control_extension.
Proof. unfold GifStream.consume_graphic_control_extension. quiet_auto. Qed.

Lemma quiet_skip_extension : quiet GifStream.skip_extension.
Proof. unfold GifStream.skip_extension. quiet_auto. Qed.

Lemma quiet_GifImage_init gc : quiet (GifImage.init gc).
Proof.
  unfold GifImage.init, GifStream.consume_image_descriptor,
    GifStream.skip_image_data.
  quiet_auto.
Qed.

#[local] Hint Resolve quiet_check_blocktype
  quiet_consume_graphic_control_extension quiet_skip_extension
  quiet_GifImage_init : quiet.

Lemma quiet_parse_blocks bound :
  forall gc images, quiet (Gif.parse_blocks bound gc images).
Proof.
  induction bound as [| bound IH]; intros gc images; cbn [Gif.parse_blocks].
  - apply quiet_raise.
  - quiet_auto; apply IH.
Qed.

Lemma check_blocktype_TRAILER_inv w w' :
  GifStream.check_blocktype w = Return TRAILER w' ->
  exists rest, remaining w = x3b :: rest.
Proof.
  intros E. destruct (remaining w) as [| b0 [| b1 r]] eqn:H.
  - rewrite (check_blocktype_empty _ H) in E. discriminate.
  - destruct (Z.eq_dec (byte_int b0) TRAILER_LABEL) as [Eb | Nb].
    + exists []. f_equal. now apply byte_int_inj.
    + rewrite (check_blocktype_one _ _ H Nb) in E. discriminate.
  - rewrite (check_blocktype_two _ _ _ _ H) in E.
    destruct (Z.eqb_spec (byte_int b0) TRAILER_LABEL) as [Eb | Nb].
    + exists (b1 :: r). f_equal. now apply byte_int_inj.
    + repeat match type of E with
             | (if ?c then _ else _) = _ => destruct c
             end; discriminate.
Qed.

(** The dispatch loop returns only at a trailer byte. *)
Lemma parse_blocks_Return_at_trailer bound :
  forall gc images w images' w',
    Gif.parse_blocks bound gc images w = Return images' w' ->
    exists rest, remaining w' = x3b :: rest.
Proof.
  induction bound as [| bound IH]; intros gc images w images' w' E;
    [discriminate |].
  cbn [Gif.parse_blocks] in E.
  apply bind_Return_inv in E as (bt & w0 & E0 & E).
  pose proof (check_blocktype_world w) as W. rewrite E0 in W.
  cbn in W. subst w0.
  destruct bt; try discriminate.
  - apply bind_Return_inv in E as (img & w1 & _ & E). now apply IH in E.
  - destruct gc; [discriminate |].
    apply bind_Return_inv in E as (g & w1 & _ & E). now apply IH in E.
  - apply bind_Return_inv in E as (n & w1 & _ & E). now apply IH in E.
  - injection E as _ <-. now apply check_blocktype_TRAILER_inv in E0.
Qed.

Lemma skipn_cons_nth_error {A} n (l : list A) b rest :
  skipn n l = b :: rest -> nth_error l n = Some b.
Proof.
  revert l. induction n as [| n IH]; intros l E.
  - cbn in E. now subst l.
  - destruct l as [| a l]; [discriminate |]. cbn in *. now apply IH.
Qed.

(** X8.  A parse that returns has stopped on a trailer: the byte of the
    file at the final cursor position is 0x3B, which the parse has
    looked at but not consumed, so nothing behind it was read; the
    stream is closed and still maps the file; and what the parse has
    printed is the one warning line when the screen descriptor announces
    no global color table, and nothing otherwise. *)
Theorem parse_returns_at_trailer (file : list byte) (g : Gif.t) (w' : world) :
  Gif.init file = Return g w' ->
  nth_error file (position (stream w')) = Some x3b
  /\ data (stream w') = file
  /\ closed (stream w') = true
  /\ stdout w'
     = if LogicalScreenDescriptor.colortable_exists
            (Gif.logical_screen_descriptor g)
       then [] else ["warning: no global color table"%string].
Proof.
  unfold Gif.init, Gif.parse_metadata. intros E.
  apply bind_Return_inv in E as (version & w1 & E1 & E).
  apply bind_Return_inv in E as (lsd & w2 & E2 & E).
  apply bind_Return_inv in E as (colortable & w3 & E3 & E).
  apply bind_Return_inv in E as (images & w4 & E4 & E).
  apply bind_Return_inv in E as (u & w5 & E5 & E).
  injection E as <- <-. injection E5 as _ <-.
  cbn [Gif.logical_screen_descriptor].
  pose proof (tame_consume_header (world_of file)) as T1.
  rewrite E1 in T1. destruct T1 as (_ & _ & D1).
  change (data (stream (world_of file))) with file in D1.
  pose proof (tame_consume_screen_descriptor w1) as T2.
  rewrite E2 in T2. destruct T2 as (_ & _ & D2).
  pose proof (quiet_consume_header (world_of file)) as Q1.
  rewrite E1 in Q1. cbn [final_world] in Q1.
  change (stdout (world_of file)) with (@nil string) in Q1.
  pose proof (quiet_consume_screen_descriptor w1) as Q2.
  rewrite E2 in Q2. cbn [final_world] in Q2.
  assert (H3 : data (stream w3) = file
               /\ stdout w3
                  = if LogicalScreenDescriptor.colortable_exists lsd
                    then [] else ["warning: no global color table"%string]).
  { destruct (LogicalScreenDescriptor.colortable_exists lsd).
    - apply bind_Return_inv in E3 as (table & w3' & E3 & E3').
      injection E3' as _ <-.
      pose proof (tame_consume_color_table
                    (LogicalScreenDescriptor.num_colors lsd) w2) as T3.
      pose proof (quiet_consume_color_table
                    (LogicalScreenDescriptor.num_colors lsd) w2) as Q3.
      rewrite E3 in T3, Q3. destruct T3 as (_ & _ & D3).
      cbn [final_world] in Q3.
      split; congruence.
    - apply bind_Return_inv in E3 as (u' & w3' & E3 & E3').
      injection E3' as _ <-. injection E3 as _ <-.
      cbn [say stream stdout]. split; [congruence |].
      now rewrite Q2, Q1. }
  destruct H3 as [D3 O3].
  pose proof (parse_blocks_well (S (List.length file)) None [] w3) as T4.
  pose proof (quiet_parse_blocks (S (List.length file)) None [] w3) as Q4.
  change (data (stream (world_of file))) with file in E4.
  rewrite E4 in T4, Q4. cbn [final_world] in Q4.
  destruct (parse_blocks_Return_at_trailer _ _ _ _ _ _ E4) as [rest R].
  assert (L : (List.length (remaining w3) < S (List.length file))%nat)
    by (pose proof (length_remaining_le w3); rewrite D3 in *; lia).
  destruct (T4 L) as (_ & _ & D4).
  cbn [release stream position data closed stdout].
  split; [| split; [congruence | split; [reflexivity | congruence]]].
  unfold remaining in R. apply skipn_cons_nth_error in R. congruence.
Qed.

Lemma parse_returns_at_trailer_witness :
  nth_error sample_file 57 = Some x3b
  /\ data (stream (release (advance 57 (world_of sample_file)))) = sample_file
  /\ true = true
  /\ @nil string = [].
Proof.
  assert (E : Gif.init sample_file
              = Return sample_gif
                  (release (advance 57 (world_of sample_file))))
    by (vm_compute; reflexivity).
  exact (parse_returns_at_trailer sample_file _ _ E).
Defined.

(* ===================================================================== *)
(** ** The exceptions of a parse *)
(* ===================================================================== *)

Lemma fails_bind {A B} (c : M A) (k : A -> M B) w :
  fails_in c w ->
  (forall a w1, c w = Return a w1 -> fails_in (k a) w1) ->
  fails_in (bind c k) w.
Proof.
  intros Hc Hk e w' E.
  apply bind_Raise_inv in E as [E | (a & w1 & E1 & E)].
  - now apply (Hc e w').
  - now apply (Hk a w1 E1 e w').
Qed.

Lemma only_bind {A B} (c : M A) (k : A -> M B) :
  only c -> (forall a, only (k a)) -> only (bind c k).
Proof. intros Hc Hk w. apply fails_bind; [apply Hc | intros; apply Hk]. Qed.

Lemma only_at {A} (c : M A) w : only c -> fails_in c w.
Proof. intros H. apply H. Qed.

Lemma only_ret {A} (a : A) : only (ret a).
Proof. intros w e w' E. discriminate. Qed.

Lemma only_raise {A} e : parse_failure e -> only (@raise A e).
Proof. intros H w e' w' [= <- _]. now left. Qed.

Lemma only_next n : only (MmapCursor_next n).
Proof.
  intros w e w'. unfold MmapCursor_next.
  destruct (_ <? _)%nat; [| discriminate].
  intros [= <- _]. now left.
Qed.

Lemma only_position_add z : only (MmapCursor_position_add z).
Proof. intros w e w' E. discriminate. Qed.

Lemma only_read n : only (MmapCursor_read n).
Proof. intros w e w' E. discriminate. Qed.

Lemma only_bytes_index bs i : only (bytes_index bs i).
Proof.
  unfold bytes_index. destruct (nth_error bs i);
    [apply only_ret | now apply only_raise].
Qed.

Create HintDb only.

Ltac only_step :=
  match goal with
  | |- only (bind _ _) => apply only_bind; [| intros ?]
  | |- only (ret _) => apply only_ret
  | |- only (raise _) => apply only_raise; exact I
  | |- only (MmapCursor_next _) => apply only_next
  | |- only (MmapCursor_read _) => apply only_read
  | |- only (MmapCursor_position_add _) => apply only_position_add
  | |- only (bytes_index _ _) => apply only_bytes_index
  | |- only (if ?c then _ else _) => destruct c
  | |- only (match ?x with _ => _ end) => destruct x
  end.

Ltac only_auto :=
  unfold MmapCursor_next_byte, MmapCursor_next_int, MmapCursor_next_ascii;
  repeat first [ only_step | solve [auto with only] ].

Lemma only_next_byte : only MmapCursor_next_byte.
Proof. only_auto. Qed.

Lemma only_next_int n : only (MmapCursor_next_int n).
Proof. only_auto. Qed.

Lemma only_next_ascii n : only (MmapCursor_next_ascii n).
Proof. only_auto. Qed.

#[local] Hint Resolve only_next_byte only_next_int only_next_ascii : only.

(** The lookup of the version in the dictionary comes after the test
    that the version is one of its two keys. *)
Lemma only_consume_header : only GifStream.consume_header.
Proof.
  unfold GifStream.consume_header.
  apply only_bind; [apply only_next_ascii | intros signature].
  destruct (negb _); [apply only_raise; exact I |].
  apply only_bind; [apply only_next_ascii | intros version].
  destruct (negb _) eqn:G; [apply only_raise; exact I |].
  apply negb_false_iff in G. unfold VALID_GIF_REVS in G.
  cbn [existsb] in G. unfold GifStream.version_of_rev.
  destruct (String.eqb version GIF_87a); [apply only_ret |].
  destruct (String.eqb version GIF_89a); [apply only_ret |].
  discriminate.
Qed.

Lemma only_consume_screen_descriptor :
  only GifStream.consume_screen_descriptor.
Proof.
  unfold GifStream.consume_screen_descriptor.
  repeat first [ only_step | solve [auto with only] ].
Qed.

(** A read of three bytes that returns has three bytes to unpack. *)
Lemma only_consume_color_table_loop n :
  forall acc, only (GifStream.consume_color_table_loop n acc).
Proof.
  induction n as [| n IH]; intros acc; cbn [GifStream.consume_color_table_loop].
  - apply only_ret.
  - intros w. apply fails_bind; [apply only_next |].
    intros rgb w1 E. apply next_Return_inv in E as (-> & -> & L).
    destruct (remaining w) as [| r [| g [| b rest]]];
      cbn [List.length] in L; try lia.
    cbn [firstn]. apply IH.
Qed.

Lemma only_consume_color_table z : only (GifStream.consume_color_table z).
Proof. apply only_consume_color_table_loop. Qed.

Lemma only_skip_data_loop bound :
  forall data_size total, only (GifStream.skip_data_loop bound data_size total).
Proof.
  induction bound as [| bound IH]; intros data_size total;
    cbn [GifStream.skip_data_loop];
    (destruct (data_size =? 0); [apply only_ret |]).
  - intros w e w' [= <- _]. now right.
  - only_auto; apply IH.
Qed.

Lemma only_skip_data : only GifStream.skip_data.
Proof.
  intros w. unfold GifStream.skip_data.
  apply (only_bind MmapCursor_next_byte
           (fun data_size =>
              GifStream.skip_data_loop (List.length (data (stream w)))
                data_size data_size)).
  - apply only_next_byte.
  - intros data_size. apply only_skip_data_loop.
Qed.

#[local] Hint Resolve only_consume_color_table only_skip_data : only.

Lemma only_skip_image_data : only GifStream.skip_image_data.
Proof. unfold GifStream.skip_image_data. only_auto. Qed.

#[local] Hint Resolve only_skip_image_data : only.

(** What the classifier has seen when it answers. *)
Lemma check_blocktype_Return_inv w blocktype w' :
  GifStream.check_blocktype w = Return blocktype w' ->
  w' = w
  /\ match blocktype with
     | TRAILER => exists r, remaining w = x3b :: r
     | IMAGE_DATA =>
         exists b0 b1 r, remaining w = b0 :: b1 :: r
                         /\ byte_int b0 = IMAGE_SEPARATOR
     | EXT_GRAPHIC_CONTROL =>
         exists b0 b1 r, remaining w = b0 :: b1 :: r
                         /\ byte_int b0 = EXT_INTRODUCER
                         /\ byte_int b1 = EXT_GRAPHIC_CONTROL_LABEL
     | EXT_UNKNOWN =>
         exists b0 b1 r, remaining w = b0 :: b1 :: r
                         /\ byte_int b0 = EXT_INTRODUCER
                         /\ byte_int b1 <> EXT_GRAPHIC_CONTROL_LABEL
     | _ => False
     end.
Proof.
  intros E.
  pose proof (check_blocktype_world w) as W. rewrite E in W. cbn in W.
  split; [exact W |]. subst w'.
  destruct (remaining w) as [| b0 [| b1 r]] eqn:H.
  - rewrite (check_blocktype_empty _ H) in E. discriminate.
  - destruct (Z.eq_dec (byte_int b0) TRAILER_LABEL) as [Eb | Nb].
    + rewrite (check_blocktype_trailer _ _ _ H Eb) in E.
      injection E as <-. exists []. f_equal. now apply byte_int_inj.
    + rewrite (check_blocktype_one _ _ H Nb) in E. discriminate.
  - rewrite (check_blocktype_two _ _ _ _ H) in E.
    destruct (Z.eqb_spec (byte_int b0) TRAILER_LABEL) as [E0 | N0].
    { injection E as <-. exists (b1 :: r). f_equal. now apply byte_int_inj. }
    destruct (Z.eqb_spec (byte_int b0) IMAGE_SEPARATOR) as [E1 | N1].
    { injection E as <-. now exists b0, b1, r. }
    destruct (Z.eqb_spec (byte_int b0) EXT_INTRODUCER) as [E2 | N2];
      [| discriminate].
    destruct (Z.eqb_spec (byte_int b1) EXT_GRAPHIC_CONTROL_LABEL)
      as [E3 | N3]; injection E as <-; now exists b0, b1, r.
Qed.

(** The three consume methods behind the dispatch loop, entered on the
    bytes the classifier has seen: their own test of these bytes
    passes. *)
Lemma fails_in_consume_image_descriptor b0 r w :
  remaining w = b0 :: r -> byte_int b0 = IMAGE_SEPARATOR ->
  fails_in GifStream.consume_image_descriptor w.
Proof.
  intros H E0. unfold GifStream.consume_image_descriptor.
  apply fails_bind; [apply only_next_byte |].
  intros separator w1 E1.
  apply next_byte_Return_inv in E1 as (b & R & -> & ->).
  rewrite H in R. injection R as <- _. rewrite E0, Z.eqb_refl.
  cbn [negb]. apply only_at. only_auto.
Qed.

Lemma fails_in_GifImage_init gc b0 r w :
  remaining w = b0 :: r -> byte_int b0 = IMAGE_SEPARATOR ->
  fails_in (GifImage.init gc) w.
Proof.
  intros H E0. unfold GifImage.init.
  apply fails_bind; [now apply (fails_in_consume_image_descriptor b0 r) |].
  intros desc w1 _. apply only_at. only_auto.
Qed.

Lemma fails_in_consume_graphic_control_extension b0 b1 r w :
  remaining w = b0 :: b1 :: r ->
  byte_int b0 = EXT_INTRODUCER -> byte_int b1 = EXT_GRAPHIC_CONTROL_LABEL ->
  fails_in GifStream.consume_graphic_control_extension w.
Proof.
  intros H E0 E1. unfold GifStream.consume_graphic_control_extension.
  apply fails_bind; [apply only_next |].
  intros signature w1 E. apply next_Return_inv in E as (-> & -> & _).
  rewrite H. cbn [firstn map]. rewrite E0, E1.
  destruct (list_eq_dec _ _ _) as [_ | N]; [| now destruct N].
  apply only_at. only_auto.
Qed.

Lemma fails_in_skip_extension b0 r w :
  remaining w = b0 :: r -> byte_int b0 = EXT_INTRODUCER ->
  fails_in GifStream.skip_extension w.
Proof.
  intros H E0. unfold GifStream.skip_extension.
  apply fails_bind; [apply only_next_byte |].
  intros introducer w1 E1.
  apply next_byte_Return_inv in E1 as (b & R & -> & ->).
  rewrite H in R. injection R as <- _. rewrite E0, Z.eqb_refl.
  cbn [negb]. apply only_at. only_auto.
Qed.

Lemma only_parse_blocks bound :
  forall gc images, only (Gif.parse_blocks bound gc images).
Proof.
  induction bound as [| bound IH]; intros gc images w;
    cbn [Gif.parse_blocks].
  - intros e w' [= <- _]. now right.
  - apply fails_bind.
    { unfold GifStream.check_blocktype. apply only_at. only_auto. }
    intros blocktype w0 E0.
    apply check_blocktype_Return_inv in E0 as [-> Hb].
    destruct blocktype; try contradiction.
    + destruct Hb as (b0 & b1 & r & H & Eb).
      apply fails_bind; [now apply (fails_in_GifImage_init gc b0 (b1 :: r)) |].
      intros img w1 _. apply IH.
    + destruct Hb as (b0 & b1 & r & H & Eb0 & Eb1).
      destruct gc as [g |]; [now apply only_raise |].
      apply fails_bind;
        [now apply (fails_in_consume_graphic_control_extension b0 b1 r) |].
      intros control w1 _. apply IH.
    + destruct Hb as (b0 & b1 & r & H & Eb0 & _).
      apply fails_bind; [now apply (fails_in_skip_extension b0 (b1 :: r)) |].
      intros n w1 _. apply IH.
    + apply only_ret.
Qed.

(** X9.  Whatever the bytes of the file, a parse that raises ends in one
    of nine ways: a short read, an ASCII decoding error, a bad
    signature or an invalid version in the header; the classifier's
    [IndexError], end-of-file or unknown-block error; the
    two-graphic-control-blocks error; or the [ValueError] of a reserved
    disposal code.  The separator test of [consume_image_descriptor],
    the signature test of [consume_graphic_control_extension] and the
    introducer test of [skip_extension] never fail in a parse, since
    the dispatch loop calls these methods only on bytes the classifier
    has just seen; the version lookup never raises [KeyError], and the
    unpacking of a color triple never fails. *)
Theorem parse_raises_only_these (file : list byte) (e : exn) (w' : world) :
  Gif.init file = Raise e w' ->
  parse_failure e.
Proof.
  intros E.
  pose proof (Gif_init_terminates _ _ _ E) as NB.
  assert (O : only Gif.parse_metadata).
  { intros w. unfold Gif.parse_metadata.
    apply (only_bind GifStream.consume_header); [apply only_consume_header |].
    intros version.
    apply only_bind; [apply only_consume_screen_descriptor |]. intros lsd.
    apply only_bind.
    { destruct (LogicalScreenDescriptor.colortable_exists lsd).
      - only_auto.
      - apply only_bind; [intros w0 e0 w0' E0; discriminate |].
        intros _. apply only_ret. }
    intros colortable.
    apply only_bind; [apply only_parse_blocks |]. intros images.
    apply only_bind; [intros w0 e0 w0' E0; discriminate |].
    intros _. apply only_ret. }
  destruct (O _ _ _ E) as [H | H]; [exact H | contradiction].
Qed.

Lemma parse_raises_only_these_witness :
  let file := [x47; x49; x46; x38; x39; x61;
               x01; x00; x01; x00; x00; x00; x00;
               x00; xff] in
  let e := GifStreamException (Unknown_block 0 255) in
  let w' := say "warning: no global color table" (advance 13 (world_of file)) in
  Gif.init file = Raise e w' /\ parse_failure e.
Proof.
  intros file e w'.
  assert (E : Gif.init file = Raise e w') by (vm_compute; reflexivity).
  split; [exact E | exact (parse_raises_only_these file e w' E)].
Defined.

(* ===================================================================== *)
(** ** A whole parse of a laid-out stream *)
(* ===================================================================== *)

Lemma after_preamble_start f :
  wf_layout f ->
  let P := after_preamble f (world_of (encode_layout f)) in
  position (stream P) = blocks_offset f
  /\ stdout P = preamble_output f
  /\ closed (stream P) = false.
Proof.
  intros [Htable _]. unfold after_preamble, preamble_output, blocks_offset,
    table_bytes in *.
  destruct (Z.testbit (byte_int (lay_packed f)) 7); cbn.
  - auto.
  - rewrite Htable. auto.
Qed.

(** A parse of a laid-out stream is the preamble, [dispatch_all] over
    the blocks, and the dispatch loop on what follows them. *)
Lemma layout_run f :
  wf_layout f ->
  let P := after_preamble f (world_of (encode_layout f)) in
  let W := advance (List.length (encode_blocks (lay_blocks f))) P in
  remaining W = lay_tail f
  /\ exists bound,
       Gif.init (encode_layout f) =
       match dispatch_all (lay_blocks f) (None, []) with
       | inl (e, consumed) => Raise e (advance consumed P)
       | inr (gc', images') =>
           match Gif.parse_blocks (S bound) gc' images' W with
           | Return images w' => Return (gif_of f images) (release w')
           | Raise e w' => Raise e w'
           end
       end.
Proof.
  intros Hwf P W.
  set (w := world_of (encode_layout f)).
  pose proof (remaining_after_preamble f w Hwf eq_refl) as R.
  split; [exact (remaining_advance_app _ _ _ R) |].
  unfold Gif.init. fold w.
  rewrite (parse_metadata_run f w Hwf eq_refl).
  destruct (parse_blocks_layout f w _ Hwf eq_refl R) as (b & -> & Eb).
  exists (List.length (data (stream w)) - List.length (lay_blocks f))%nat.
  assert (Hb : b = S (List.length (data (stream w))
                      - List.length (lay_blocks f))).
  { subst b. cbn [w world_of MmapCursor_open stream data].
    pose proof (length_blocks_le (lay_blocks f)).
    rewrite length_encode_layout. lia. }
  rewrite Hb. fold P. fold W.
  destruct (dispatch_all (lay_blocks f) (None, [])) as [[e k] | [gc' im']];
    reflexivity.
Qed.

(** X10.  A stream that is laid out as a GIF file (header, screen
    descriptor, global table when announced, well-formed blocks) and has
    the trailer byte behind its blocks parses to what the loop
    transition [dispatch_all] makes of the blocks.  When the transition
    goes through, the parse returns the version, the screen descriptor
    and the global table of the layout with the frames of the
    transition; it has printed the warning exactly when no global table
    is announced, the cursor rests on the trailer and the stream is
    closed.  A graphic control extension still pending at the trailer
    is dropped, and the bytes behind the trailer are never looked at.
    When the transition fails, the parse raises that exception with the
    cursor where the failing block left it and the stream open. *)
Theorem trailer_ends_the_parse (f : layout) (junk : list byte) :
  wf_layout f ->
  lay_tail f = x3b :: junk ->
  observation (Gif.init (encode_layout f)) =
  match dispatch_all (lay_blocks f) (None, []) with
  | inr (pending, images) =>
      (inl (gif_of f images), preamble_output f,
       (blocks_offset f + List.length (encode_blocks (lay_blocks f)))%nat,
       true)
  | inl (e, consumed) =>
      (inr e, preamble_output f, (blocks_offset f + consumed)%nat, false)
  end.
Proof.
  intros Hwf Htail.
  destruct (layout_run f Hwf) as (R & bound & ->).
  destruct (after_preamble_start f Hwf) as (Hp & Ho & Hc).
  destruct (dispatch_all (lay_blocks f) (None, [])) as [[e k] | [gc' im']].
  - cbn [observation advance stream position closed stdout].
    now rewrite Hp, Ho, Hc.
  - rewrite Htail in R. cbn [Gif.parse_blocks]. unfold bind.
    rewrite (check_blocktype_trailer _ _ _ R eq_refl).
    cbn [ret observation release advance stream position closed stdout].
    now rewrite Hp, Ho.
Qed.

Lemma trailer_ends_the_parse_witness :
  exists img,
    observation (Gif.init (encode_layout dangling_control_layout))
    = (inl (gif_of dangling_control_layout [img]),
       ["warning: no global color table"%string], 36%nat, true)
    /\ GifImage.graphic_control img = None
    /\ GifImage.image_data_size img = 2.
Proof.
  eexists. split.
  - refine (trailer_ends_the_parse dangling_control_layout [x2c; xff] _ eq_refl).
    split; [reflexivity |]. repeat constructor; discriminate.
  - split; reflexivity.
Defined.

(** X11.  A laid-out stream whose blocks the loop gets through, and
    which ends without a trailer, does not parse: with nothing behind
    the blocks the read-ahead of the classifier is empty and indexing it
    raises [IndexError]; with a single byte other than the trailer
    behind them the classifier raises the end-of-file error.  Either
    way the frames read so far are lost, the cursor rests behind the
    last block and the stream stays open. *)
Theorem missing_trailer (f : layout) (state : loop_state) :
  wf_layout f ->
  dispatch_all (lay_blocks f) (None, []) = inr state ->
  let stop :=
    (blocks_offset f + List.length (encode_blocks (lay_blocks f)))%nat in
  (lay_tail f = [] ->
   observation (Gif.init (encode_layout f))
   = (inr IndexError, preamble_output f, stop, false))
  /\ (forall b, lay_tail f = [b] -> b <> x3b ->
      observation (Gif.init (encode_layout f))
      = (inr (GifStreamException Unexpected_end_of_file),
         preamble_output f, stop, false)).
Proof.
  intros Hwf Hd stop.
  destruct (layout_run f Hwf) as (R & bound & E).
  destruct (after_preamble_start f Hwf) as (Hp & Ho & Hc).
  rewrite Hd in E. destruct state as [gc' im'].
  cbn [Gif.parse_blocks] in E. unfold bind in E.
  split.
  - intros Htail. rewrite Htail in R.
    rewrite (check_blocktype_empty _ R) in E. rewrite E.
    cbn [observation advance stream position closed stdout].
    now rewrite Hp, Ho, Hc.
  - intros b Htail Hb. rewrite Htail in R.
    assert (Nb : byte_int b <> TRAILER_LABEL).
    { intros Eb. apply Hb. now apply byte_int_inj. }
    rewrite (check_blocktype_one _ _ R Nb) in E. rewrite E.
    cbn [observation advance stream position closed stdout].
    now rewrite Hp, Ho, Hc.
Qed.

Lemma missing_trailer_witness :
  observation (Gif.init (encode_layout truncated_layout))
  = (inr IndexError, ["warning: no global color table"%string], 28%nat,
     false).
Proof.
  assert (Hwf : wf_layout truncated_layout).
  { split; [reflexivity |]. repeat constructor; discriminate. }
  exact (proj1 (missing_trailer truncated_layout _ Hwf eq_refl) eq_refl).
Defined.

(** The invariant of the loop transition that counts frames, bytes and
    graphic control blocks. *)
Lemma dispatch_all_counts blocks :
  forall gc images gc' images',
    Forall wf_block blocks ->
    dispatch_all blocks (gc, images) = inr (gc', images') ->
    map GifImage.image_data_size images'
    = map GifImage.image_data_size images ++ image_payload_sizes blocks
    /\ (count_controls blocks + count_controlled images
        + match gc with Some _ => 1 | None => 0 end
        = count_controlled images' + match gc' with Some _ => 1 | None => 0 end)%nat.
Proof.
  induction blocks as [| b blocks IH]; intros gc images gc' images' Hwf E.
  - cbn in E. injection E as <- <-. cbn. now rewrite app_nil_r.
  - inversion Hwf as [| ? ? Hb Hbs]; subst.
    cbn [dispatch_all] in E.
    destruct (dispatch b (gc, images)) as [failure | [gc1 im1]] eqn:D;
      [discriminate |].
    destruct (dispatch_all blocks (gc1, im1)) as [[e k] | [gc2 im2]] eqn:DA;
      [discriminate |].
    injection E as <- <-.
    destruct (IH _ _ _ _ Hbs DA) as [IHs IHc].
    rewrite IHs. clear IH IHs DA.
    destruct b as [bs packed d0 d1 tc term
                  | l0 l1 t0 t1 w0 w1 h0 h1 packed table lzw chain
                  | label chain]; cbn [dispatch fst snd] in D.
    + destruct gc as [g |]; [discriminate |].
      destruct (decode_graphic_control packed d0 d1 tc) as [e | control];
        [discriminate |].
      injection D as <- <-.
      unfold image_payload_sizes, count_controls in *.
      cbn [flat_map filter List.length app] in *.
      split; [reflexivity | lia].
    + injection D as <- <-. destruct Hb as [_ Hchain].
      unfold image_payload_sizes, count_controls, count_controlled in *.
      cbn [flat_map filter List.length app] in *.
      rewrite map_app, <- app_assoc. cbn [map app decode_image
        GifImage.image_data_size].
      rewrite (chain_total_payload _ Hchain).
      split; [reflexivity |].
      rewrite filter_app, length_app in IHc.
      cbn [filter decode_image GifImage.graphic_control] in IHc.
      destruct gc; cbn [List.length] in IHc; lia.
    + injection D as <- <-.
      unfold image_payload_sizes, count_controls in *.
      cbn [flat_map filter List.length app] in *.
      split; [reflexivity | lia].
Qed.

(** X12.  The frames of a parse that returns are the image blocks of
    the file, in file order: there is one frame for each image block,
    and the byte count of a frame is the number of payload bytes in the
    data chain of its block.  Every frame that carries a graphic
    control extension has a graphic control block of its own in the
    file, and at most one graphic control block of the file, one
    standing behind the last image, is not carried by any frame. *)
Theorem frames_follow_the_image_blocks
  (f : layout) (junk : list byte) (g : Gif.t) (w' : world) :
  wf_layout f ->
  lay_tail f = x3b :: junk ->
  Gif.init (encode_layout f) = Return g w' ->
  map GifImage.image_data_size (Gif.images g)
  = image_payload_sizes (lay_blocks f)
  /\ (count_controlled (Gif.images g) <= count_controls (lay_blocks f)
      <= S (count_controlled (Gif.images g)))%nat.
Proof.
  intros Hwf Htail E.
  destruct (layout_run f Hwf) as (R & bound & E').
  rewrite E in E'.
  destruct (dispatch_all (lay_blocks f) (None, []))
    as [[e k] | [gc' im']] eqn:D; [discriminate |].
  rewrite Htail in R. cbn [Gif.parse_blocks] in E'. unfold bind in E'.
  rewrite (check_blocktype_trailer _ _ _ R eq_refl) in E'.
  cbn [ret] in E'. injection E' as -> _.
  destruct (dispatch_all_counts _ _ _ _ _ (proj2 Hwf) D) as [Hs Hc].
  cbn [gif_of Gif.images]. split; [exact Hs |].
  unfold count_controlled in Hc at 1. cbn [filter List.length] in Hc.
  destruct gc'; lia.
Qed.

Lemma frames_follow_the_image_blocks_witness :
  let f := dangling_control_layout in
  let img :=
    decode_image x01 x00 x02 x00 x03 x00 x04 x00 x00 []
      [ {| sb_size := x02; sb_data := [x14; x15] |} ] None in
  map GifImage.image_data_size (Gif.images (gif_of f [img])) = [2]
  /\ (0 <= 1 <= 1)%nat.
Proof.
  intros f img.
  assert (Hwf : wf_layout f).
  { split; [reflexivity |]. repeat constructor; discriminate. }
  assert (E : Gif.init (encode_layout f)
              = Return (gif_of f [img])
                  (release
                     (advance 23
                        (say "warning: no global color table"
                           (advance 13 (world_of (encode_layout f)))))))
    by (vm_compute; reflexivity).
  exact (frames_follow_the_image_blocks f [x2c; xff] _ _ Hwf eq_refl E).
Defined.

(* ===================================================================== *)
(** ** [consume_color_table] on any stream *)
(* ===================================================================== *)

Lemma consume_color_table_loop_cases n :
  forall acc w,
    GifStream.consume_color_table_loop n acc w =
    let have := List.length (remaining w) in
    if (3 * n <=? have)%nat
    then Return (acc ++ rgb_triples (firstn (3 * n) (remaining w)))
           (advance (3 * n) w)
    else Raise (ShortRead 3 (have mod 3)) (advance (3 * (have / 3)) w).
Proof.
  induction n as [| n IH]; intros acc w; cbv zeta.
  - cbn. now rewrite app_nil_r, advance_0.
  - cbn [GifStream.consume_color_table_loop]. unfold bind, MmapCursor_next.
    destruct (Nat.ltb_spec (List.length (remaining w)) 3) as [L | L].
    + destruct (Nat.leb_spec (3 * S n) (List.length (remaining w)));
        [lia |].
      rewrite (Nat.mod_small _ 3 L), (Nat.div_small _ 3 L).
      now rewrite advance_0.
    + pose proof (remaining_advance 3 w) as R.
      destruct (remaining w) as [| r [| g [| b rest]]] eqn:H;
        try (cbn in L; lia).
      cbn [firstn skipn] in *. rewrite IH. cbv zeta. rewrite R.
      cbn [List.length].
      replace (3 * S n)%nat with (S (S (S (3 * n)))) by lia.
      change (S (S (S (3 * n))) <=? S (S (S (List.length rest))))%nat
        with (3 * n <=? List.length rest)%nat.
      destruct (3 * n <=? List.length rest)%nat.
      * rewrite advance_advance. cbn [firstn rgb_triples].
        rewrite <- app_assoc. cbn [app]. do 2 f_equal. 
      * rewrite advance_advance.
        replace (S (S (S (List.length rest))))
          with (List.length rest + 1 * 3)%nat by lia.
        rewrite Nat.Div0.mod_add, Nat.div_add by lia.
        do 2 f_equal. lia.
Qed.

(** X13.  [consume_color_table] on any stream.  With [3 * num_colors]
    bytes or more ahead it returns the triples of the next
    [3 * num_colors] bytes, in order, and leaves the cursor behind
    them; a count of zero or less reads nothing.  With fewer bytes
    ahead it raises the short read of the first triple that is not
    complete: by then every complete triple ahead has been consumed, so
    the cursor stops at most two bytes before the end of the file, and
    the entries read so far are lost. *)
Theorem color_table_decode (num_colors : Z) (w : world) :
  let n := Z.to_nat num_colors in
  let have := List.length (remaining w) in
  GifStream.consume_color_table num_colors w =
  if (3 * n <=? have)%nat
  then Return (rgb_triples (firstn (3 * n) (remaining w))) (advance (3 * n) w)
  else Raise (ShortRead 3 (have mod 3)) (advance (3 * (have / 3)) w).
Proof.
  unfold GifStream.consume_color_table.
  exact (consume_color_table_loop_cases (Z.to_nat num_colors) [] w).
Qed.

(* ===================================================================== *)
(** ** [Gif.name] *)
(* ===================================================================== *)

Lemma str_split_nonempty sep s : str_split sep s <> [].
Proof.
  destruct s as [| c s]; cbn; [discriminate |].
  destruct (Ascii.eqb c sep); [discriminate |].
  destruct (str_split sep s); discriminate.
Qed.

Lemma str_split_none sep s :
  str_contains sep s = false -> str_split sep s = [s].
Proof.
  induction s as [| c s IH]; cbn; [reflexivity |].
  destruct (Ascii.eqb c sep); [discriminate |].
  cbn. intros H. now rewrite (IH H).
Qed.

Lemma str_split_app sep s1 s2 :
  str_split sep (s1 ++ String sep s2)
  = str_split sep s1 ++ str_split sep s2.
Proof.
  induction s1 as [| c s1 IH]; cbn.
  - now rewrite Ascii.eqb_refl.
  - destruct (Ascii.eqb c sep); [now rewrite IH |].
    rewrite IH. pose proof (str_split_nonempty sep s1) as N.
    destruct (str_split sep s1); [contradiction | reflexivity].
Qed.

Lemma str_concat_cons sep x y l :
  String.concat sep (x :: y :: l)
  = (x ++ sep ++ String.concat sep (y :: l))%string.
Proof. reflexivity. Qed.

Lemma str_join_split sep s :
  String.concat (String sep EmptyString) (str_split sep s) = s.
Proof.
  induction s as [| c s IH]; [reflexivity |].
  cbn [str_split]. pose proof (str_split_nonempty sep s) as N.
  destruct (Ascii.eqb_spec c sep) as [-> | _].
  - destruct (str_split sep s) as [| f o]; [contradiction |].
    rewrite str_concat_cons, IH. reflexivity.
  - destruct (str_split sep s) as [| f o]; [contradiction |].
    destruct o as [| y o].
    + cbn in *. now rewrite IH.
    + rewrite str_concat_cons in *. rewrite <- IH. reflexivity.
Qed.

(** X14.  [Gif.name] is the file name without its directories and
    without its last extension: for a path that ends, behind its last
    slash if it has one, in [stem.ext] with no dot in [ext], the name
    is [stem], dots inside [stem] included; for a file name without
    any dot the name is empty, not the file name. *)
Theorem name_drops_the_last_extension (path : string) :
  (forall dir file,
      path = (dir ++ "/" ++ file)%string ->
      str_contains "/" file = false ->
      os_path_basename path = file)
  /\ (str_contains "/" path = false -> os_path_basename path = path)
  /\ (forall stem ext,
         os_path_basename path = (stem ++ "." ++ ext)%string ->
         str_contains "." ext = false ->
         Gif_name path = stem)
  /\ (str_contains "." (os_path_basename path) = false ->
      Gif_name path = EmptyString).
Proof.
  unfold Gif_name, os_path_basename. repeat split.
  - intros dir file -> H. cbn [append].
    rewrite str_split_app, (str_split_none _ _ H). apply last_last.
  - intros H. now rewrite (str_split_none _ _ H).
  - intros stem ext -> H. cbn [append].
    rewrite str_split_app, (str_split_none _ _ H), removelast_last.
    apply str_join_split.
  - intros H. now rewrite (str_split_none _ _ H).
Qed.

(* ===================================================================== *)
(** ** The palette image of gifdump *)
(* ===================================================================== *)

Lemma enumerate_from_snd {A} (l : list A) :
  forall start, map snd (enumerate_from start l) = l.
Proof. induction l as [| a l IH]; intros start; cbn; [| rewrite IH]; easy. Qed.

Lemma enumerate_from_In {A} (l : list A) :
  forall start k a,
    In (k, a) (enumerate_from start l) ->
    start <= k < start + Z.of_nat (List.length l).
Proof.
  induction l as [| a0 l IH]; intros start k a; cbn [enumerate_from In].
  - contradiction.
  - intros [[= <- _] | H]; [cbn [List.length]; lia |].
    apply IH in H. cbn [List.length]. lia.
Qed.

Lemma enumerate_from_covers {A} (l : list A) :
  forall start k,
    start <= k < start + Z.of_nat (List.length l) ->
    exists a, In (k, a) (enumerate_from start l).
Proof.
  induction l as [| a0 l IH]; intros start k H; cbn [List.length] in H.
  - lia.
  - destruct (Z.eq_dec k start) as [-> | N].
    + exists a0. now left.
    + destruct (IH (start + 1) k) as [a Ha]; [lia |].
      exists a. now right.
Qed.

(** The grid of [generate_palette_img] for a table of [n] colors. *)
Lemma palette_grid n :
  1 <= n ->
  let h := Z.sqrt n in
  let w := if h ^ 2 =? n then h else h + 1 in
  1 <= h /\ h <= w /\ (n <= w * h <-> n <= h * h + h).
Proof.
  intros Hn h w.
  pose proof (Z.sqrt_spec n ltac:(lia)) as S. fold h in S. cbv zeta in S.
  assert (Hh : 1 <= h).
  { destruct (Z_lt_le_dec h 1) as [L |]; [| assumption].
    pose proof (Z.sqrt_nonneg n). fold h in H. nia. }
  subst w. rewrite Z.pow_2_r.
  destruct (Z.eqb_spec (h * h) n) as [E | N];
    (split; [exact Hh |]); (split; [lia |]); split; intros; nia.
Qed.

(** X15.  The palette image.  [generate_palette_img] draws one square
    of 25 by 25 pixels for each entry of the table, in table order, on
    a grid that is [h = isqrt(n)] squares high and [h] or [h + 1]
    squares wide.  Every square lies within the width of the image,
    and either within its height or wholly below its last row.  All
    squares lie within the image exactly when [n <= h * h + h]: for a
    table whose length exceeds that, such as the 8 and the 32 colors
    of a GIF table, the grid has too few rows and the last entries
    fall outside the image; of the eight lengths a GIF table can have,
    these two are the only ones. *)
Theorem palette_image_rows (colortable : Colortable) :
  let img := generate_palette_img colortable in
  let n := Z.of_nat (List.length colortable) in
  let h := Z.sqrt n in
  map snd (img_rectangles img) = colortable
  /\ Forall (fun r => rect_inside (img_size img) (fst r)
                      \/ rect_below (img_size img) (fst r))
       (img_rectangles img)
  /\ (Forall (fun r => rect_inside (img_size img) (fst r))
        (img_rectangles img)
      <-> n <= h * h + h)
  /\ (forall size, 0 <= size <= 7 -> n = 2 ^ (size + 1) ->
      (n <= h * h + h <-> size <> 2 /\ size <> 4)).
Proof.
  intros img n h. subst img. unfold generate_palette_img. fold n. fold h.
  set (w := if h ^ 2 =? n then h else h + 1).
  cbn [img_size img_rectangles]. cbv zeta.
  split; [| split; [| split]].
  4: { intros size Hs Hn. subst h. rewrite Hn.
       assert (C : size = 0 \/ size = 1 \/ size = 2 \/ size = 3 \/ size = 4
                   \/ size = 5 \/ size = 6 \/ size = 7) by lia.
       destruct C as [-> | [-> | [-> | [-> | [-> | [-> | [-> | ->]]]]]]];
         cbn; lia. }
  - rewrite map_map. cbn [snd]. apply enumerate_from_snd.
  - apply Forall_forall. intros [rect color] Hin.
    apply in_map_iff in Hin as ([k c] & [= <- <-] & Hin).
    apply enumerate_from_In in Hin. fold n in Hin.
    destruct (palette_grid n ltac:(lia)) as (Hh & Hw & _).
    fold h in Hh, Hw. fold w in Hw. cbn [fst snd].
    pose proof (Z.mod_pos_bound k w ltac:(lia)) as Hm.
    pose proof (Z.div_pos k w ltac:(lia) ltac:(lia)) as Hd.
    unfold rect_inside, rect_below. cbn [fst snd].
    destruct (Z_lt_le_dec (k / w) h); [left | right]; nia.
  - destruct (Z_lt_le_dec n 1) as [L | L].
    { assert (n = 0) by lia.
      destruct colortable; [| cbn in n; lia].
      cbn. split; [intros _ | constructor].
      subst h. replace n with 0 by lia. cbn. lia. }
    destruct (palette_grid n L) as (Hh & Hw & Hfit).
    fold h in Hh, Hw, Hfit. fold w in Hw, Hfit.
    rewrite <- Hfit. rewrite Forall_forall. split.
    + intros H.
      destruct (enumerate_from_covers colortable 0 (n - 1)) as [c Hc];
        [fold n; lia |].
      specialize (H _ (in_map _ _ _ Hc)).
      unfold rect_inside in H. cbn [fst snd] in H.
      destruct H as (_ & _ & _ & H).
      assert (Hq : (n - 1) / w < h) by lia.
      pose proof (Z.div_mod (n - 1) w ltac:(lia)) as Hdm.
      pose proof (Z.mod_pos_bound (n - 1) w ltac:(lia)) as Hm.
      nia.
    + intros Hn [rect color] Hin.
      apply in_map_iff in Hin as ([k c] & [= <- <-] & Hin).
      apply enumerate_from_In in Hin. fold n in Hin. cbn [fst snd].
      pose proof (Z.mod_pos_bound k w ltac:(lia)) as Hm.
      assert (Hq : k / w < h) by (apply Z.div_lt_upper_bound; lia).
      pose proof (Z.div_pos k w ltac:(lia) ltac:(lia)) as Hd.
      unfold rect_inside. cbn [fst snd]. nia.
Qed.

(* ===================================================================== *)
(** ** The files that parse *)
(* ===================================================================== *)

Lemma spans_ret {A} (a : A) : spans 0 0 (ret a).
Proof. intros w a' w' [= _ <-]. rewrite advance_0. split; [easy | lia]. Qed.

Lemma spans_raise {A} k m e : spans k m (@raise A e).
Proof. intros w a w' E. discriminate. Qed.

Lemma spans_next n : spans n n (MmapCursor_next n).
Proof. intros w bs w' E. now apply next_Return_inv in E as (_ & -> & L). Qed.

Lemma spans_position_add z : spans (Z.to_nat z) 0 (MmapCursor_position_add z).
Proof. intros w a w' [= _ <-]. split; [easy | lia]. Qed.

Lemma spans_bind {A B} k1 m1 k2 m2 k m (c : M A) (f : A -> M B) :
  spans k1 m1 c -> (forall a, spans k2 m2 (f a)) ->
  k = (k1 + k2)%nat ->
  (m <= m1 \/ (m2 <> 0 /\ m <= k1 + m2))%nat ->
  spans k m (bind c f).
Proof.
  intros Hc Hf -> Hm w b w' E.
  apply bind_Return_inv in E as (a & w1 & E1 & E2).
  apply Hc in E1 as [-> L1]. apply Hf in E2 as [-> L2].
  rewrite remaining_advance, length_skipn in L2.
  rewrite advance_advance. split; [reflexivity | lia].
Qed.

Lemma spans_next_byte : spans 1 1 MmapCursor_next_byte.
Proof.
  apply (spans_bind 1 1 0 0); [apply spans_next | intros; apply spans_ret
                              | reflexivity | lia].
Qed.

Lemma spans_next_int n : spans n n (MmapCursor_next_int n).
Proof.
  apply (spans_bind n n 0 0); [apply spans_next | intros; apply spans_ret
                              | lia | lia].
Qed.

Lemma spans_consume_screen_descriptor :
  spans 7 7 GifStream.consume_screen_descriptor.
Proof.
  unfold GifStream.consume_screen_descriptor.
  apply (spans_bind 2 2 5 5); [apply spans_next_int | intros | easy | lia].
  apply (spans_bind 2 2 3 3); [apply spans_next_int | intros | easy | lia].
  apply (spans_bind 1 1 2 2); [apply spans_next_byte | intros | easy | lia].
  apply (spans_bind 1 1 1 1); [apply spans_next_byte | intros | easy | lia].
  apply (spans_bind 1 1 0 0); [apply spans_next_byte | intros | easy | lia].
  apply spans_ret.
Qed.

Lemma spans_consume_image_descriptor :
  spans 10 10 GifStream.consume_image_descriptor.
Proof.
  unfold GifStream.consume_image_descriptor.
  apply (spans_bind 1 1 9 9); [apply spans_next_byte | intros | easy | lia].
  destruct (negb _); [apply spans_raise |].
  apply (spans_bind 2 2 7 7); [apply spans_next_int | intros | easy | lia].
  apply (spans_bind 2 2 5 5); [apply spans_next_int | intros | easy | lia].
  apply (spans_bind 2 2 3 3); [apply spans_next_int | intros | easy | lia].
  apply (spans_bind 2 2 1 1); [apply spans_next_int | intros | easy | lia].
  apply (spans_bind 1 1 0 0); [apply spans_next_byte | intros | easy | lia].
  apply spans_ret.
Qed.

(** The graphic control decode steps over eight bytes and reads the
    seventh: the terminator is stepped over unseen. *)
Lemma spans_consume_graphic_control_extension :
  spans 8 7 GifStream.consume_graphic_control_extension.
Proof.
  unfold GifStream.consume_graphic_control_extension.
  apply (spans_bind 2 2 6 5); [apply spans_next | intros | easy | lia].
  destruct (list_eq_dec _ _ _); [| apply spans_raise].
  apply (spans_bind 1 0 5 4);
    [apply (spans_position_add 1) | intros | easy | lia].
  apply (spans_bind 1 1 4 3); [apply spans_next_byte | intros | easy | lia].
  apply (spans_bind 2 2 2 1); [apply spans_next_int | intros | easy | lia].
  apply (spans_bind 1 1 1 0); [apply spans_next_byte | intros | easy | lia].
  apply (spans_bind 1 0 0 0);
    [apply (spans_position_add 1) | intros | easy | lia].
  destruct (DisposalMethod_of_value _); [apply spans_ret | apply spans_raise].
Qed.

Lemma remaining_split k w :
  (k <= List.length (remaining w))%nat ->
  remaining w = firstn k (remaining w) ++ remaining (advance k w)
  /\ List.length (firstn k (remaining w)) = k.
Proof.
  intros L. rewrite remaining_advance, firstn_skipn.
  split; [reflexivity |]. rewrite length_firstn. lia.
Qed.

Lemma skip_data_Return_inv w n w' :
  GifStream.skip_data w = Return n w' ->
  exists chain,
    Forall wf_subblock chain
    /\ remaining w = encode_chain chain ++ remaining w'.
Proof.
  unfold GifStream.skip_data. intros E.
  apply bind_Return_inv in E as (z & w1 & E1 & E).
  apply next_byte_Return_inv in E1 as (b & R & -> & ->).
  apply skip_data_loop_Return_inv in E as (chain & Hwf & Hrem & _).
  exists chain. split; [exact Hwf | now rewrite R].
Qed.

(** A skip over one byte followed by a [skip_data] that returns: the
    byte was there. *)
Lemma skip_after_one_byte w n w' :
  GifStream.skip_data (advance 1 w) = Return n w' ->
  exists b chain,
    Forall wf_subblock chain
    /\ remaining w = b :: encode_chain chain ++ remaining w'.
Proof.
  intros E. apply skip_data_Return_inv in E as (chain & Hwf & R).
  rewrite remaining_advance in R.
  destruct (remaining w) as [| b rest].
  - cbn in R. unfold encode_chain in R.
    destruct (flat_map encode_subblock chain); discriminate.
  - exists b, chain. cbn in R. now rewrite R.
Qed.

(** A color table read that returns, as the bytes it has read. *)
Lemma color_table_Return_inv (present : bool) size w table w' :
  (if present
   then t <- GifStream.consume_color_table (2 ^ (size + 1)) ;; ret (Some t)
   else ret (@None Colortable)) w = Return table w' ->
  exists bytes,
    remaining w = bytes ++ remaining w'
    /\ List.length bytes
       = if present then (3 * Z.to_nat (2 ^ (size + 1)))%nat else 0%nat.
Proof.
  destruct present; intros E.
  - apply bind_Return_inv in E as (t & w1 & E1 & E2).
    injection E2 as _ <-.
    unfold GifStream.consume_color_table in E1.
    rewrite consume_color_table_loop_cases in E1. cbv zeta in E1.
    destruct (Nat.leb_spec (3 * Z.to_nat (2 ^ (size + 1)))
                (List.length (remaining w))) as [L | L]; [| discriminate].
    injection E1 as _ <-.
    destruct (remaining_split _ _ L) as [R Hl]. eauto.
  - injection E as _ <-. now exists [].
Qed.

Lemma GifImage_init_Return_inv gc b0 b1 r w img w' :
  remaining w = b0 :: b1 :: r -> byte_int b0 = IMAGE_SEPARATOR ->
  GifImage.init gc w = Return img w' ->
  exists b, wf_block b /\ remaining w = encode_block b ++ remaining w'.
Proof.
  intros H0 Hb0 E. unfold GifImage.init in E.
  apply bind_Return_inv in E as (desc & wa & Ea & E).
  apply bind_Return_inv in E as (ct & wb & Eb & E).
  apply bind_Return_inv in E as (n & wc & Ec & E).
  injection E as _ <-.
  destruct (spans_consume_image_descriptor _ _ _ Ea) as [-> L].
  assert (Hx : b0 = x2c) by now apply byte_int_inj.
  subst b0.
  destruct r as [| l1 [| t0 [| t1 [| w0 [| w1 [| h0 [| h1 [| packed r]]]]]]]];
    try (rewrite H0 in L; cbn in L; lia).
  rewrite (consume_image_descriptor_run _ _ _ _ _ _ _ _ _ _ _ H0) in Ea.
  injection Ea as <-.
  cbn [ImageDescriptor.colortable_exists] in Eb.
  unfold ImageDescriptor.num_colors in Eb.
  cbn [ImageDescriptor.colortable_size] in Eb.
  apply color_table_Return_inv in Eb as (table & Rt & Lt).
  rewrite (remaining_advance_skip _ _ _ H0) in Rt. cbn [skipn] in Rt.
  unfold GifStream.skip_image_data in Ec.
  apply bind_Return_inv in Ec as (u & wd & Ed & Ec).
  injection Ed as _ <-. change (Z.to_nat 1) with 1%nat in Ec.
  apply skip_after_one_byte in Ec as (lzw & chain & Hwf & Rc).
  exists (Image b1 l1 t0 t1 w0 w1 h0 h1 packed table lzw chain).
  split.
  - split; [| exact Hwf]. unfold table_bytes. exact Lt.
  - rewrite H0, Rt, Rc. cbn [encode_block app].
    now rewrite <- !app_assoc.
Qed.

Lemma consume_graphic_control_extension_Return_inv b0 b1 r w g w' :
  remaining w = b0 :: b1 :: r ->
  byte_int b0 = EXT_INTRODUCER -> byte_int b1 = EXT_GRAPHIC_CONTROL_LABEL ->
  GifStream.consume_graphic_control_extension w = Return g w' ->
  remaining w' <> [] ->
  exists b, wf_block b /\ remaining w = encode_block b ++ remaining w'.
Proof.
  intros H0 Hb0 Hb1 E N.
  destruct (spans_consume_graphic_control_extension _ _ _ E) as [-> _].
  rewrite remaining_advance, H0 in N.
  assert (b0 = x21) as -> by now apply byte_int_inj.
  assert (b1 = xf9) as -> by now apply byte_int_inj.
  destruct r as [| bs [| p [| d0 [| d1 [| t [| term r]]]]]];
    try (cbn in N; now destruct N).
  exists (GraphicControl bs p d0 d1 t term). split; [exact I |].
  rewrite remaining_advance, H0. reflexivity.
Qed.

Lemma skip_extension_Return_inv b0 b1 r w n w' :
  remaining w = b0 :: b1 :: r ->
  byte_int b0 = EXT_INTRODUCER -> byte_int b1 <> EXT_GRAPHIC_CONTROL_LABEL ->
  GifStream.skip_extension w = Return n w' ->
  exists b, wf_block b /\ remaining w = encode_block b ++ remaining w'.
Proof.
  intros H0 Hb0 Hb1 E. unfold GifStream.skip_extension in E.
  apply bind_Return_inv in E as (z & wa & Ea & E).
  apply next_byte_Return_inv in Ea as (b & R & -> & ->).
  rewrite H0 in R. injection R as <- R.
  rewrite Hb0 in E. cbn [Z.eqb negb] in E.
  change (negb (EXT_INTRODUCER =? EXT_INTRODUCER)) with false in E.
  cbv iota in E.
  apply bind_Return_inv in E as (u & wb & Eb & E).
  injection Eb as _ <-. change (Z.to_nat 1) with 1%nat in E.
  apply skip_after_one_byte in E as (label & chain & Hwf & Rc).
  rewrite <- R in Rc. injection Rc as <- Rc.
  assert (b0 = x21) as -> by now apply byte_int_inj.
  exists (Extension b1 chain). split.
  - split; [| exact Hwf]. intros ->. now apply Hb1.
  - rewrite H0. cbn [encode_block]. now rewrite Rc.
Qed.

(** A dispatch loop that returns has walked over a sequence of
    well-formed blocks and stopped at a trailer. *)
Lemma parse_blocks_Return_inv bound :
  forall gc images w images' w',
    Gif.parse_blocks bound gc images w = Return images' w' ->
    exists blocks junk,
      Forall wf_block blocks
      /\ remaining w = encode_blocks blocks ++ x3b :: junk.
Proof.
  induction bound as [| bound IH]; intros gc images w images' w' E;
    [discriminate |].
  cbn [Gif.parse_blocks] in E.
  apply bind_Return_inv in E as (bt & w0 & E0 & E).
  apply check_blocktype_Return_inv in E0 as [-> Hb].
  destruct bt; try contradiction.
  - destruct Hb as (b0 & b1 & r & H & Eb).
    apply bind_Return_inv in E as (img & w1 & E1 & E).
    apply (GifImage_init_Return_inv _ _ _ _ _ _ _ H Eb) in E1
      as (b & Hwf & R).
    apply IH in E as (blocks & junk & Hbs & R1).
    exists (b :: blocks), junk. split; [now constructor |].
    rewrite R, R1, encode_blocks_cons. now rewrite <- app_assoc.
  - destruct Hb as (b0 & b1 & r & H & Eb0 & Eb1).
    destruct gc as [g |]; [discriminate |].
    apply bind_Return_inv in E as (control & w1 & E1 & E).
    apply IH in E as (blocks & junk & Hbs & R1).
    apply (consume_graphic_control_extension_Return_inv _ _ _ _ _ _
             H Eb0 Eb1) in E1 as (b & Hwf & R).
    2: { rewrite R1. destruct (encode_blocks blocks); discriminate. }
    exists (b :: blocks), junk. split; [now constructor |].
    rewrite R, R1, encode_blocks_cons. now rewrite <- app_assoc.
  - destruct Hb as (b0 & b1 & r & H & Eb0 & Eb1).
    apply bind_Return_inv in E as (n & w1 & E1 & E).
    apply (skip_extension_Return_inv _ _ _ _ _ _ H Eb0 Eb1) in E1
      as (b & Hwf & R).
    apply IH in E as (blocks & junk & Hbs & R1).
    exists (b :: blocks), junk. split; [now constructor |].
    rewrite R, R1, encode_blocks_cons. now rewrite <- app_assoc.
  - destruct Hb as [r H]. exists [], r. split; [constructor | exact H].
Qed.

(** A parse that returns has read a laid-out stream with a trailer, and
    returns what the loop transition makes of its blocks. *)
Lemma Gif_init_Return_layout file g w' :
  Gif.init file = Return g w' ->
  exists f junk pending,
    wf_layout f
    /\ encode_layout f = file
    /\ lay_tail f = x3b :: junk
    /\ dispatch_all (lay_blocks f) (None, []) = inr (pending, Gif.images g)
    /\ g = gif_of f (Gif.images g).
Proof.
  intros E0. pose proof E0 as E.
  unfold Gif.init, Gif.parse_metadata in E.
  apply bind_Return_inv in E as (version & w1 & E1 & E).
  apply bind_Return_inv in E as (lsd & w2 & E2 & E).
  apply bind_Return_inv in E as (colortable & w3 & E3 & E).
  apply bind_Return_inv in E as (images & w4 & E4 & _).
  destruct (consume_header_Return_inv _ _ _ E1) as [rest R0].
  rewrite (consume_header_run version rest (world_of file) R0) in E1.
  injection E1 as <-.
  destruct (spans_consume_screen_descriptor _ _ _ E2) as [-> L].
  assert (R1 : remaining (advance 6 (world_of file)) = rest).
  { rewrite (remaining_advance_skip _ _ _ R0).
    destruct version; reflexivity. }
  rewrite R1 in L.
  destruct rest as [| s0 [| s1 [| h0 [| h1 [| packed [| bg [| aspect r]]]]]]];
    try (cbn in L; lia).
  rewrite (consume_screen_descriptor_run _ _ _ _ _ _ _ _ _ R1) in E2.
  injection E2 as Hl.
  assert (Hex : LogicalScreenDescriptor.colortable_exists lsd
                = Z.testbit (byte_int packed) 7) by now rewrite <- Hl.
  assert (Hsz : LogicalScreenDescriptor.colortable_size lsd
                = Z.land (byte_int packed) 7) by now rewrite <- Hl.
  unfold LogicalScreenDescriptor.num_colors in E3.
  rewrite Hex, Hsz in E3. clear Hl Hex Hsz.
  assert (H3 : exists table,
             r = table ++ remaining w3
             /\ List.length table = table_bytes packed).
  { pose proof (remaining_advance_skip 7 _ _ R1) as R2. cbn [skipn] in R2.
    unfold table_bytes.
    destruct (Z.testbit (byte_int packed) 7).
    - apply (color_table_Return_inv true) in E3 as (table & Rt & Lt).
      rewrite R2 in Rt. eauto.
    - apply bind_Return_inv in E3 as (u & wp & Ep & E3).
      injection E3 as _ <-. injection Ep as _ <-.
      rewrite remaining_say. exists []. now rewrite R2. }
  destruct H3 as (table & Rt & Lt).
  apply parse_blocks_Return_inv in E4 as (blocks & junk & Hbs & Rb).
  set (f := {| lay_version := version;
               lay_width_lo := s0; lay_width_hi := s1;
               lay_height_lo := h0; lay_height_hi := h1;
               lay_packed := packed; lay_background := bg;
               lay_aspect := aspect; lay_table := table;
               lay_blocks := blocks; lay_tail := x3b :: junk |}).
  assert (Hwf : wf_layout f) by (split; assumption).
  assert (Hf : encode_layout f = file).
  { unfold encode_layout. cbn [f lay_version lay_width_lo lay_width_hi
      lay_height_lo lay_height_hi lay_packed lay_background lay_aspect
      lay_table lay_blocks lay_tail].
    change (remaining (world_of file)) with file in R0.
    rewrite R0, Rt, Rb. reflexivity. }
  destruct (layout_run f Hwf) as (R & bound & Er).
  rewrite <- Hf in E0. rewrite E0 in Er.
  destruct (dispatch_all (lay_blocks f) (None, []))
    as [[e k] | [gc' im']] eqn:D; [discriminate |].
  cbn [Gif.parse_blocks] in Er. unfold bind in Er.
  rewrite (check_blocktype_trailer _ _ _ R eq_refl) in Er.
  cbn [ret] in Er. injection Er as -> _.
  exists f, junk, gc'. cbn [gif_of Gif.images].
  repeat split; assumption.
Qed.

(** A laid-out stream with a trailer on whose blocks the loop transition
    goes through parses, to the aggregate of the layout with the frames
    of the transition. *)
Lemma layout_with_trailer_parses f junk pending images :
  wf_layout f ->
  lay_tail f = x3b :: junk ->
  dispatch_all (lay_blocks f) (None, []) = inr (pending, images) ->
  exists w', Gif.init (encode_layout f) = Return (gif_of f images) w'.
Proof.
  intros Hwf Htail D.
  destruct (layout_run f Hwf) as (R & bound & E).
  rewrite D in E. rewrite Htail in R.
  cbn [Gif.parse_blocks] in E. unfold bind in E.
  rewrite (check_blocktype_trailer _ _ _ R eq_refl) in E.
  cbn [ret] in E. eexists. exact E.
Qed.

(** X16.  The files that parse, and what they parse to.  [Gif(path)]
    returns the aggregate [g] exactly when the bytes of the file are, in
    this order, a header with one of the two versions, a screen
    descriptor, a global color table of the announced length when bit 7
    of the packed byte is set and none otherwise, a sequence of
    well-formed image, graphic control and other extension blocks, the
    trailer byte, and any bytes at all behind it, and the loop
    transition [dispatch_all] goes through on these blocks and [g] is
    the aggregate of this layout with the frames the transition
    yields. *)
Theorem parse_returns_iff_laid_out (file : list byte) (g : Gif.t) :
  (exists w', Gif.init file = Return g w')
  <-> (exists f junk pending,
         wf_layout f
         /\ encode_layout f = file
         /\ lay_tail f = x3b :: junk
         /\ dispatch_all (lay_blocks f) (None, [])
            = inr (pending, Gif.images g)
         /\ g = gif_of f (Gif.images g)).
Proof.
  split.
  - intros [w' E]. exact (Gif_init_Return_layout file g w' E).
  - intros (f & junk & pending & Hwf & <- & Htail & D & Hg).
    destruct (layout_with_trailer_parses f junk pending _ Hwf Htail D)
      as [w' E].
    exists w'. rewrite Hg. exact E.
Qed.

Lemma parse_returns_iff_laid_out_witness :
  exists f junk pending,
    wf_layout f
    /\ encode_layout f = sample_file
    /\ lay_tail f = x3b :: junk
    /\ dispatch_all (lay_blocks f) (None, [])
       = inr (pending, Gif.images sample_gif)
    /\ sample_gif = gif_of f (Gif.images sample_gif).
Proof.
  assert (E : Gif.init sample_file
              = Return sample_gif
                  (release (advance 57 (world_of sample_file))))
    by (vm_compute; reflexivity).
  exact (proj1 (parse_returns_iff_laid_out sample_file sample_gif)
           (ex_intro _ _ E)).
Defined.

(* ===================================================================== *)
(** ** The global palette of a parsed file *)
(* ===================================================================== *)

(** X17.  A global table that a parse has read is never empty, so the
    truth-value test that [write_global_palette] makes on it is a test
    for its presence: for the aggregate of a parse, the palette writer
    ends in the parser error exactly when the screen descriptor
    announces no global table, and otherwise draws the whole table and
    names its output after the file, [Gif.name] followed by
    [_palette.png]. *)
Theorem global_palette_written_iff_announced
  (file : list byte) (path : string) (g : Gif.t) (w' : world) :
  Gif.init file = Return g w' ->
  truthy (Gif.colortable g)
  = LogicalScreenDescriptor.colortable_exists (Gif.logical_screen_descriptor g)
  /\ match write_global_palette path g with
     | Parser_error _ =>
         Gif.colortable g = None
         /\ LogicalScreenDescriptor.colortable_exists
              (Gif.logical_screen_descriptor g) = false
     | Palette_written output_name img _ =>
         output_name = (Gif_name path ++ "_palette.png")%string
         /\ exists table,
              Gif.colortable g = Some table
              /\ Z.of_nat (List.length table)
                 = LogicalScreenDescriptor.num_colors
                     (Gif.logical_screen_descriptor g)
              /\ img = generate_palette_img table
     end.
Proof.
  unfold Gif.init, Gif.parse_metadata. intros E.
  apply bind_Return_inv in E as (version & w1 & _ & E).
  apply bind_Return_inv in E as (lsd & w2 & E2 & E).
  apply bind_Return_inv in E as (colortable & w3 & E3 & E).
  apply bind_Return_inv in E as (images & w4 & _ & E).
  apply bind_Return_inv in E as (u & w5 & _ & E).
  injection E as <- _.
  pose proof (consume_screen_descriptor_size _ _ _ E2) as Hs.
  unfold write_global_palette.
  cbn [Gif.colortable Gif.logical_screen_descriptor].
  destruct (LogicalScreenDescriptor.colortable_exists lsd).
  - apply bind_Return_inv in E3 as (table & w3' & E3 & E3').
    injection E3' as <- _.
    apply consume_color_table_ok in E3 as (L & _ & _);
      [| apply pow2_nonneg].
    assert (Hn : 1 <= LogicalScreenDescriptor.num_colors lsd).
    { unfold LogicalScreenDescriptor.num_colors.
      pose proof (Z.pow_pos_nonneg 2
                    (LogicalScreenDescriptor.colortable_size lsd + 1)
                    ltac:(lia) ltac:(lia)).
      lia. }
    destruct table as [| c t]; [cbn in L; lia |].
    cbn [truthy negb]. split; [reflexivity |].
    split; [reflexivity |]. exists (c :: t). auto.
  - apply bind_Return_inv in E3 as (u' & w3' & _ & E3').
    injection E3' as <- _. now split.
Qed.

Lemma global_palette_written_iff_announced_witness :
  truthy (Gif.colortable sample_gif) = true
  /\ ("sample.anim_palette.png"%string
      = (Gif_name "dir/sample.anim.gif" ++ "_palette.png")%string
      /\ exists table,
           Gif.colortable sample_gif = Some table
           /\ Z.of_nat (List.length table) = 2 ^ (0 + 1)
           /\ generate_palette_img [(1, 2, 3); (4, 5, 6)]
              = generate_palette_img table).
Proof.
  assert (E : Gif.init sample_file
              = Return sample_gif
                  (release (advance 57 (world_of sample_file))))
    by (vm_compute; reflexivity).
  exact (global_palette_written_iff_announced sample_file
           "dir/sample.anim.gif" _ _ E).
Defined.
